(** * ride-service: the coordination core, embedded and verified

    A shallow embedding of the Go sources of the ride-hailing backend
    (trip ledger, matching consumer, geo registry, tracking hub, driver
    location endpoint), followed by the properties of its specification,
    stated and settled over the embedding.

    Conventions.
    - [float64] is Rocq's primitive binary64 [float]; arithmetic is IEEE-754,
      one rounding per operation.
    - Go maps are [gmap]s, slices are [list]s, nil-able pointers are
      [option]s, a [(T, error)] pair is a value of [result T].
    - Collaborators that live outside the repository (encoding/json, the
      trigonometric functions of package math, the Kafka reader) are
      [Variable]s of the section that uses them.
    - A table is its rows under its primary key.  In module [Trips] values
      are stored as they are given, and created_at, which the INSERT leaves
      to its default, takes the time of the call; module [TripsTable] adds
      what the column types of the migration do to the fare and to the
      completion time that [End] writes.  No other constraint is modelled: a
      statement that the database would reject, on a foreign key say, is a
      statement on a pool that is not [reachable].

    Part I holds the embedding, Part II the facts. *)

From Stdlib Require Import ZArith Lia Bool List Floats.
From stdpp Require Import gmap strings list fin_maps.

Set Default Proof Using "Type".
Local Open Scope Z_scope.

(** * Part I: the embedding *)

(** ** Errors, results, log lines *)

(** Go's [error] values.  [errorString] is what [errors.New] builds; the other
    constructors stand for errors handed back by a client library. *)
Inductive error : Type :=
| errorString (msg : string)
| driverError (component : string)
| syntaxError (msg : string).

(** The Go pair [(T, error)] with exactly one side meaningful. *)
Inductive result (A : Type) : Type :=
| Ok (a : A)
| Fail (e : error).
Arguments Ok {A} a.
Arguments Fail {A} e.

Definition is_ok {A} (r : result A) : bool :=
  match r with Ok _ => true | Fail _ => false end.

(** An argument of [log.Printf]. *)
Inductive log_arg : Type :=
| LStr (s : string)
| LErr (e : error).

(** One call [log.Printf(format, args...)]. *)
Record log_line : Type := Printf { format : string; args : list log_arg }.

(** What the retry loops of the start-up act on: the seconds spent in
    [time.Sleep] and the lines printed, whose arguments are attempt numbers
    and errors. *)
Inductive print_arg : Type :=
| PInt (n : Z)
| PErr (e : error).

Record startup : Type := mkStartup {
  slept : Z;
  printed : list (string * list print_arg);
}.

Definition Sleep (seconds : Z) (st : startup) : startup :=
  mkStartup (slept st + seconds) (printed st).

Definition Print (fmt : string) (a : list print_arg) (st : startup) : startup :=
  mkStartup (slept st) (printed st ++ [(fmt, a)]).

(** ** Tracking hub (package tracking) *)

Module Tracking.

(** A [*safeConn]: only pointer identity matters to the hub. *)
Definition safeConn := nat.

(** [type Hub struct { mu sync.RWMutex; conns map[string][]*safeConn }].
    Every method body that touches [conns] runs under [mu], so a method
    call is one atomic step on the map. *)
Record Hub : Type := mkHub { conns : gmap string (list safeConn) }.

Definition NewHub : Hub := mkHub ∅.

(** [m[tripID]]: indexing an absent key yields the nil slice. *)
Definition at_trip (m : gmap string (list safeConn)) (tripID : string)
  : list safeConn :=
  default [] (m !! tripID).

(** The registration step of [HandleWS]:
    [h.conns[tripID] = append(h.conns[tripID], conn)]. *)
Definition HandleWS_register (tripID : string) (conn : safeConn) (h : Hub) : Hub :=
  mkHub (<[tripID := at_trip (conns h) tripID ++ [conn]]> (conns h)).

(** Position of the first element equal to [conn], as the [range] loop with
    its [break] finds it. *)
Fixpoint first_index (conn : safeConn) (l : list safeConn) : option nat :=
  match l with
  | [] => None
  | c :: l' => if Nat.eqb c conn then Some O
               else option_map S (first_index conn l')
  end.

(** [removeConn]. *)
Definition removeConn (tripID : string) (conn : safeConn) (h : Hub) : Hub :=
  let cs := at_trip (conns h) tripID in
  let m1 :=
    match first_index conn cs with
    | Some i => <[tripID := take i cs ++ drop (S i) cs]> (conns h)
    | None => conns h
    end in
  mkHub (if Nat.eqb (length (at_trip m1 tripID)) 0 then delete tripID m1 else m1).

(** What a client does to the hub: connect, and later disconnect. *)
Inductive op : Type :=
| Subscribe (tripID : string) (conn : safeConn)
| Unsubscribe (tripID : string) (conn : safeConn).

Definition apply_op (h : Hub) (o : op) : Hub :=
  match o with
  | Subscribe t c => HandleWS_register t c h
  | Unsubscribe t c => removeConn t c h
  end.

Definition run (ops : list op) (h : Hub) : Hub := fold_left apply_op ops h.

(** No trip key is bound to an empty subscriber slice. *)
Definition no_empty_group (h : Hub) : Prop :=
  ∀ t cs, conns h !! t = Some cs → cs ≠ [].

(** A slice without the first occurrence of [conn]. *)
Fixpoint remove_first (conn : safeConn) (l : list safeConn) : list safeConn :=
  match l with
  | [] => []
  | c :: l' => if Nat.eqb c conn then l' else c :: remove_first conn l'
  end.

(** The connections that [ops] have subscribed to [tripID] and not
    unsubscribed since, oldest first. *)
Definition subscribers_step (tripID : string) (l : list safeConn) (o : op)
  : list safeConn :=
  match o with
  | Subscribe t c => if decide (t = tripID) then l ++ [c] else l
  | Unsubscribe t c => if decide (t = tripID) then remove_first c l else l
  end.

Definition subscribers (tripID : string) (ops : list op) : list safeConn :=
  fold_left (subscribers_step tripID) ops [].

(** The connection an operation is about. *)
Definition conn_of (o : op) : safeConn :=
  match o with Subscribe _ c | Unsubscribe _ c => c end.

(** The message of a broadcast:
    [map[string]any{"trip_id": ..., "lat": ..., "lng": ..., "ts": ...}]. *)
Record location : Type := mkLocation {
  trip_id : string;
  lat : float;
  lng : float;
  ts : Z;
}.

(** What [BroadcastLocation] acts on besides the hub: the calls of
    [c.ws.WriteJSON] made so far, oldest first, and the process log. *)
Record wire : Type := mkWire {
  attempts : list (safeConn * location);
  stderr : list log_line;
}.

Section Broadcast.

(** Whether [c.ws.WriteJSON(v)] fails, which may depend on everything written
    before. *)
Variable WriteJSON : list (safeConn * location) → safeConn → location → option error.

(** [safeConn.writeJSON]: the write, under the mutex of the connection. *)
Definition writeJSON (c : safeConn) (v : location) (w : wire) : option error * wire :=
  (WriteJSON (attempts w) c v, mkWire (attempts w ++ [(c, v)]) (stderr w)).

(** [BroadcastLocation]; [now] is [time.Now().Unix()].  The slice is read
    under the read lock and ranged over after the lock is released. *)
Definition BroadcastLocation (tripID : string) (lat lng : float) (now : Z)
  (h : Hub) (w : wire) : wire :=
  let cs := at_trip (conns h) tripID in
  let msg := mkLocation tripID lat lng now in
  fold_left
    (λ w c,
       match writeJSON c msg w with
       | (Some err, w') =>
           mkWire (attempts w') (stderr w' ++ [Printf "[ws] write error: %v" [LErr err]])
       | (None, w') => w'
       end) cs w.

End Broadcast.

End Tracking.

(** ** Regular expressions (package regexp, as far as it is used) *)

Module Regexp.

(** A regular expression over bytes, as far as the patterns of package
    validation go: classes, concatenation, alternation, repetition. *)
Inductive regexp : Type :=
| Nothing
| Epsilon
| Class (c : Ascii.ascii → bool)
| Concat (r1 r2 : regexp)
| Alternate (r1 r2 : regexp)
| Star (r : regexp).

(** [r+], [r?], [r{n}], [r{0,k}], [r{n,m}] and [r{n,}]. *)
Definition Plus (r : regexp) : regexp := Concat r (Star r).
Definition Quest (r : regexp) : regexp := Alternate r Epsilon.

Fixpoint Power (n : nat) (r : regexp) : regexp :=
  match n with
  | O => Epsilon
  | S n' => Concat r (Power n' r)
  end.

Fixpoint AtMost (k : nat) (r : regexp) : regexp :=
  match k with
  | O => Epsilon
  | S k' => Quest (Concat r (AtMost k' r))
  end.

Definition Repeat (n m : nat) (r : regexp) : regexp :=
  Concat (Power n r) (AtMost (m - n) r).

Definition AtLeast (n : nat) (r : regexp) : regexp := Concat (Power n r) (Star r).

(** Whether the expression matches the empty text. *)
Fixpoint nullable (r : regexp) : bool :=
  match r with
  | Nothing => false
  | Epsilon => true
  | Class _ => false
  | Concat r1 r2 => nullable r1 && nullable r2
  | Alternate r1 r2 => nullable r1 || nullable r2
  | Star _ => true
  end.

(** What is left of the expression after the byte [a]. *)
Fixpoint derive (a : Ascii.ascii) (r : regexp) : regexp :=
  match r with
  | Nothing => Nothing
  | Epsilon => Nothing
  | Class c => if c a then Epsilon else Nothing
  | Concat r1 r2 =>
      if nullable r1
      then Alternate (Concat (derive a r1) r2) (derive a r2)
      else Concat (derive a r1) r2
  | Alternate r1 r2 => Alternate (derive a r1) (derive a r2)
  | Star r1 => Concat (derive a r1) (Star r1)
  end.

(** Whether the whole text matches. *)
Fixpoint matchb (r : regexp) (s : list Ascii.ascii) : bool :=
  match s with
  | [] => nullable r
  | a :: s' => matchb (derive a r) s'
  end.

(** [regexp.MatchString] for a pattern of the form [^r$]. *)
Definition MatchString (r : regexp) (s : string) : bool :=
  matchb r (String.list_ascii_of_string s).

(** The texts of an expression. *)
Inductive matches : regexp → list Ascii.ascii → Prop :=
| matches_Epsilon : matches Epsilon []
| matches_Class c a : c a = true → matches (Class c) [a]
| matches_Concat r1 r2 s1 s2 :
    matches r1 s1 → matches r2 s2 → matches (Concat r1 r2) (s1 ++ s2)
| matches_Alternate_l r1 r2 s : matches r1 s → matches (Alternate r1 r2) s
| matches_Alternate_r r1 r2 s : matches r2 s → matches (Alternate r1 r2) s
| matches_Star_nil r : matches (Star r) []
| matches_Star_cons r s1 s2 :
    matches r s1 → matches (Star r) s2 → matches (Star r) (s1 ++ s2).

End Regexp.

(** ** Input validation (package validation) *)

Module Validation.

(** [ValidateCoordinates]. *)
Definition ValidateCoordinates (lat lng : float) : bool :=
  ((-90 <=? lat) && (lat <=? 90) && (-180 <=? lng) && (lng <=? 180))%float.

Import Regexp.

(** The code of a byte, and the classes of the two patterns. *)
Definition code (a : Ascii.ascii) : nat := Ascii.nat_of_ascii a.

Definition in_range (lo hi : nat) (a : Ascii.ascii) : bool :=
  (lo <=? code a)%nat && (code a <=? hi)%nat.

Definition is_byte (n : nat) (a : Ascii.ascii) : bool := Nat.eqb (code a) n.

(** [a-z], [A-Z], [0-9] (which is [\d]), [1-9]. *)
Definition lower : Ascii.ascii → bool := in_range 97 122.
Definition upper : Ascii.ascii → bool := in_range 65 90.
Definition digit : Ascii.ascii → bool := in_range 48 57.
Definition nonzero_digit : Ascii.ascii → bool := in_range 49 57.

(** [[a-zA-Z]]. *)
Definition letter (a : Ascii.ascii) : bool := lower a || upper a.

(** [[a-zA-Z0-9._%+\-]]: letters, digits, and the bytes 46, 95, 37, 43, 45. *)
Definition local_class (a : Ascii.ascii) : bool :=
  letter a || digit a || is_byte 46 a || is_byte 95 a || is_byte 37 a
  || is_byte 43 a || is_byte 45 a.

(** [[a-zA-Z0-9.\-]]. *)
Definition domain_class (a : Ascii.ascii) : bool :=
  letter a || digit a || is_byte 46 a || is_byte 45 a.

(** [^[a-zA-Z0-9._%+\-]+@[a-zA-Z0-9.\-]+\.[a-zA-Z]{2,}$]; 64 is the at sign,
    46 the dot. *)
Definition emailRegex : regexp :=
  Concat (Plus (Class local_class))
    (Concat (Class (is_byte 64))
       (Concat (Plus (Class domain_class))
          (Concat (Class (is_byte 46)) (AtLeast 2 (Class letter))))).

(** [^\+?[1-9]\d{1,14}$]; 43 is the plus sign. *)
Definition phoneRegex : regexp :=
  Concat (Quest (Class (is_byte 43)))
    (Concat (Class nonzero_digit) (Repeat 1 14 (Class digit))).

Section Trimmed.

(** [strings.TrimSpace]. *)
Variable TrimSpace : string → string.

(** [ValidateEmail]. *)
Definition ValidateEmail (email : string) : bool :=
  let email := TrimSpace email in
  negb (String.eqb email "") && MatchString emailRegex email
  && (String.length email <=? 200)%nat.

(** [ValidatePhone]. *)
Definition ValidatePhone (phone : string) : bool :=
  let phone := TrimSpace phone in
  negb (String.eqb phone "") && MatchString phoneRegex phone
  && (String.length phone <=? 50)%nat.

(** [ValidateName]. *)
Definition ValidateName (name : string) : bool :=
  let name := TrimSpace name in
  (2 <=? String.length name)%nat && (String.length name <=? 200)%nat.

End Trimmed.

(** [ValidatePassword]. *)
Definition ValidatePassword (password : string) : bool :=
  (6 <=? String.length password)%nat && (String.length password <=? 100)%nat.

End Validation.

(** ** Event payloads (package events) *)

Module Events.

Record LatLng : Type := mkLatLng { Lat : float; Lng : float }.

Record RideRequestedEvent : Type := mkRideRequested {
  rr_TripID : string;
  rr_RiderID : string;
  rr_Pickup : LatLng;
  rr_Drop : LatLng;
  rr_RequestedAt : string;
}.

Record DriverAssignedEvent : Type := mkDriverAssigned {
  da_TripID : string;
  da_DriverID : string;
}.

Record TripCompletedEvent : Type := mkTripCompleted {
  tc_TripID : string;
  tc_DriverID : string;
  tc_RiderID : string;
  tc_Fare : float;
  tc_CompletedAt : string;
  tc_DurationSeconds : Z;
}.

(** The [value any] argument of [Publish]: one of the three payloads. *)
Inductive event : Type :=
| RideRequested (ev : RideRequestedEvent)
| DriverAssigned (ev : DriverAssignedEvent)
| TripCompleted (ev : TripCompletedEvent).

End Events.

(** ** Geo registry (package redis) *)

Module Redis.

(** The connection and the one GEO set it is used for, ["driver:locations"]:
    member name to (longitude, latitude). *)
Record Client : Type := mkClient {
  reachable : bool;
  driver_locations : gmap string (float * float);
}.

Definition with_locations (f : gmap string (float * float) → gmap string (float * float))
  (c : Client) : Client :=
  mkClient (reachable c) (f (driver_locations c)).

Definition unreachable : error := driverError "redis".

Section Store.

(** The distance, in kilometres, that the store computes between a member at
    [(lng1, lat1)] and a centre at [(lng2, lat2)]. *)
Variable geodist : float → float → float → float → float.

(** Modelled from the spec: the server side of [GEOADD] is not part of the
    repository.  "Set or overwrite a driver's position". *)
Definition GeoAdd (name : string) (lng lat : float)
  (set : gmap string (float * float)) : gmap string (float * float) :=
  <[name := (lng, lat)]> set.

(** Modelled from the spec: the server side of [ZREM] is not part of the
    repository.  "Removing an absent driver is a no-op, not an error". *)
Definition ZRem (name : string)
  (set : gmap string (float * float)) : gmap string (float * float) :=
  delete name set.

(** A member together with its distance from the centre of a search. *)
Definition measured : Type := string * float.

(** Modelled from the spec: part of [GEOSEARCH] below, the distance of a
    member "from the query point". *)
Definition measure (lng lat : float) (m : string * (float * float)) : measured :=
  (m.1, geodist m.2.1 m.2.2 lng lat).

(** Modelled from the spec: part of [GEOSEARCH] below, "sorted ascending by
    distance" as an insertion sort. *)
Fixpoint insert_by_distance (x : measured) (l : list measured) : list measured :=
  match l with
  | [] => [x]
  | y :: l' => if (x.2 <=? y.2)%float then x :: y :: l'
               else y :: insert_by_distance x l'
  end.

(** Modelled from the spec: part of [GEOSEARCH] below. *)
Definition sort_by_distance (l : list measured) : list measured :=
  foldr insert_by_distance [] l.

(** Modelled from the spec: part of [GEOSEARCH] below, the members of a set
    "excluding any driver farther than radiusKm", each with its distance. *)
Definition near (set : gmap string (float * float)) (lng lat radiusKm : float)
  : list measured :=
  List.filter (λ m : measured, (m.2 <=? radiusKm)%float)
    (measure lng lat <$> map_to_list set).

(** [goredis.GeoSearchQuery], with the fields that the repository fills.  The
    unit of the radius is one of the strings "m" and "km" and the order one of
    "ASC" and "DESC" in the source (go-redis knows feet and miles too). *)
Inductive radius_unit : Type := UnitM | UnitKM.

Inductive sort_order : Type := SortASC | SortDESC.

Record GeoSearchQuery : Type := mkGeoSearchQuery {
  Longitude : float;
  Latitude : float;
  Radius : float;
  RadiusUnit : radius_unit;
  Count : Z;
  Sort : sort_order;
}.

(** The radius of a query, in kilometres. *)
Definition radius_km (q : GeoSearchQuery) : float :=
  match RadiusUnit q with
  | UnitKM => Radius q
  | UnitM => (Radius q / 1000)%float
  end.

(** Modelled from the spec: the server side of [GEOSEARCH key FROMLONLAT lng
    lat BYRADIUS r unit ASC|DESC COUNT n] is not part of the repository.
    "Returns drivers sorted ascending by distance from the query point,
    truncated to limit, excluding any driver farther than radiusKm"; the order
    is the one the query names, and go-redis asks for a COUNT only when the
    count of the query is positive. *)
Definition GEOSEARCH (set : gmap string (float * float)) (q : GeoSearchQuery)
  : list measured :=
  let found := near set (Longitude q) (Latitude q) (radius_km q) in
  let sorted := match Sort q with
                | SortASC => sort_by_distance found
                | SortDESC => reverse (sort_by_distance found)
                end in
  if (0 <? Count q)%Z then take (Z.to_nat (Count q)) sorted else sorted.

(** The GEO set under a key: the store holds one, ["driver:locations"], and
    a key that does not exist reads as an empty set. *)
Definition geo_set (key : string) (c : Client) : gmap string (float * float) :=
  if bool_decide (key = "driver:locations") then driver_locations c else ∅.

(** [c.rdb.GeoSearch(ctx, key, q).Result()]: the names of the members found. *)
Definition GeoSearch (key : string) (q : GeoSearchQuery) (c : Client)
  : result (list string) :=
  if reachable c then Ok ((GEOSEARCH (geo_set key c) q).*1)
  else Fail unreachable.

(** [SetDriverLocation]. *)
Definition SetDriverLocation (driverID : string) (lat lng : float) (c : Client)
  : option error * Client :=
  if reachable c then (None, with_locations (GeoAdd driverID lng lat) c)
  else (Some unreachable, c).

(** [GetNearbyDrivers]. *)
Definition GetNearbyDrivers (lat lng radiusKm : float) (count : Z) (c : Client)
  : result (list string) :=
  match GeoSearch "driver:locations"
          (mkGeoSearchQuery lng lat radiusKm UnitKM count SortASC) c with
  | Fail err => Fail err
  | Ok res => Ok res
  end.

(** [RemoveDriverLocation]. *)
Definition RemoveDriverLocation (driverID : string) (c : Client)
  : option error * Client :=
  if reachable c then (None, with_locations (ZRem driverID) c)
  else (Some unreachable, c).

(** The distance of a registered driver from a centre. *)
Definition distance_of (c : Client) (lng lat : float) (driverID : string)
  : option float :=
  (λ p : float * float, geodist p.1 p.2 lng lat) <$> driver_locations c !! driverID.

End Store.

Section NewClient.

(** [rdb.Ping(ctx).Err()] of the i-th turn of the loop, counted from 0. *)
Variable Ping : nat → option error.

(** The loop of [NewClient], from turn [i] on, with [togo] turns to go. *)
Fixpoint NewClient_loop (togo : nat) (i : nat) (st : startup)
  : option error * startup :=
  match togo with
  | O => (Some (errorString "redis: failed to connect after 20 attempts"), st)
  | S togo' =>
      match Ping i with
      | None => (None, Print "Connected to Redis" [] st)
      | Some _ =>
          NewClient_loop togo' (S i)
            (Sleep 2 (Print "Waiting for Redis... (%d/20)" [PInt (Z.of_nat i + 1)] st))
      end
  end.

(** [NewClient]: [for i := 0; i < 20; i++]. *)
Definition NewClient : option error * startup :=
  NewClient_loop 20 0 (mkStartup 0 []).

End NewClient.

(** Non-decreasing order of a list of distances: each element is [<=] the
    next one. *)
Fixpoint ascending (ds : list float) : Prop :=
  match ds with
  | [] => True
  | d :: ds' =>
      match ds' with
      | [] => True
      | d' :: _ => (d <=? d')%float = true
      end ∧ ascending ds'
  end.

End Redis.

(** ** Event bus client (package kafka) *)

Module Kafka.

Definition TopicRideRequested : string := "ride.requested".
Definition TopicDriverAssigned : string := "driver.assigned".
Definition TopicTripCompleted : string := "trip.completed".

(** A [kafkago.Message] as the client uses it. *)
Record Message : Type := mkMessage {
  Topic : string;
  Key : string;
  Value : list Byte.byte;
}.

(** The brokers as seen through [Client]: whether they answer, and what has
    been written to them, oldest first. *)
Record Client : Type := mkClient {
  reachable : bool;
  written : list Message;
}.

Definition unreachable : error := driverError "kafka".

Section Publish.

(** [json.Marshal] on an event payload. *)
Variable Marshal : Events.event → result (list Byte.byte).

(** [Publish]. *)
Definition Publish (topic key : string) (value : Events.event) (c : Client)
  : option error * Client :=
  match Marshal value with
  | Fail err => (Some err, c)
  | Ok data =>
      if reachable c
      then (None, mkClient (reachable c) (written c ++ [mkMessage topic key data]))
      else (Some unreachable, c)
  end.

End Publish.

(** What one call of [r.ReadMessage(ctx)] hands back: a message, or an error
    together with whether [ctx.Err()] is then non-nil. *)
Inductive read : Type :=
| Delivered (msg : Message)
| ReadError (err : error) (ctx_done : bool).

Section Subscribe.

(** The [kafkago.Reader] of a consumer group, with whatever it keeps (position,
    committed offsets): the client only ever calls [ReadMessage] on it. *)
Context {Reader : Type}.
Variable ReadMessage : Reader → read * Reader.

(** What the handler closure works on, and how [log.Printf] shows in it. *)
Context {W : Type}.
Variable logf : log_line → W → W.

(** The goroutine of [Subscribe], unrolled for [n] turns of its [for] loop.
    The handler's result goes to [log.Printf] and nowhere else. *)
Fixpoint Subscribe (n : nat) (topic : string)
  (handler : list Byte.byte → W → option error * W) (r : Reader) (w : W)
  : Reader * W :=
  match n with
  | O => (r, w)
  | S n' =>
      match ReadMessage r with
      | (ReadError err true, r') => (r', w)
      | (ReadError err false, r') =>
          Subscribe n' topic handler r'
            (logf (Printf "[kafka] read error on %s: %v" [LStr topic; LErr err]) w)
      | (Delivered msg, r') =>
          match handler (Value msg) w with
          | (Some err, w') =>
              Subscribe n' topic handler r'
                (logf (Printf "[kafka] handler error on %s: %v" [LStr topic; LErr err]) w')
          | (None, w') => Subscribe n' topic handler r' w'
          end
      end
  end.

(** What [ReadMessage] hands back in the first [n] turns, up to and
    including the error that ends the loop. *)
Fixpoint reads (n : nat) (r : Reader) : list read :=
  match n with
  | O => []
  | S n' =>
      match ReadMessage r with
      | (ReadError err true, _) => [ReadError err true]
      | (rd, r') => rd :: reads n' r'
      end
  end.

(** The body of the loop on one outcome of [ReadMessage]. *)
Definition turn (topic : string) (handler : list Byte.byte → W → option error * W)
  (w : W) (rd : read) : W :=
  match rd with
  | ReadError _ true => w
  | ReadError err false =>
      logf (Printf "[kafka] read error on %s: %v" [LStr topic; LErr err]) w
  | Delivered msg =>
      match handler (Value msg) w with
      | (Some err, w') =>
          logf (Printf "[kafka] handler error on %s: %v" [LStr topic; LErr err]) w'
      | (None, w') => w'
      end
  end.

End Subscribe.

(** [kafkago.TopicConfig], the fields that [EnsureTopics] sets. *)
Record TopicConfig : Type := mkTopicConfig {
  tc_Topic : string;
  NumPartitions : Z;
  ReplicationFactor : Z;
}.

Section EnsureTopics.

(** [kafkago.DialContext] of the given attempt, counted from 1: its error. *)
Variable DialContext : nat → option error.

(** [conn.CreateTopics(configs...)]: its error. *)
Variable CreateTopics : list TopicConfig → option error.

(** The loop of [EnsureTopics] from [attempt] on, with [togo] attempts to go;
    besides the error, the configurations handed to [CreateTopics], if it was
    called. *)
Fixpoint EnsureTopics_loop (togo : nat) (attempt : nat) (topics : list string)
  (st : startup) : option error * startup * option (list TopicConfig) :=
  match togo with
  | O => (Some (errorString "kafka: could not connect after 20 attempts"), st, None)
  | S togo' =>
      match DialContext attempt with
      | Some _ =>
          EnsureTopics_loop togo' (S attempt) topics
            (Sleep 3 (Print "Kafka not ready, retrying in 3s... (%d/20)"
                        [PInt (Z.of_nat attempt)] st))
      | None =>
          let configs := (λ t, mkTopicConfig t 3 1) <$> topics in
          let st1 :=
            match CreateTopics configs with
            | Some err =>
                Print "Topic creation returned (may already exist): %v" [PErr err] st
            | None => st
            end in
          (None, Print "Kafka topics ensured" [] st1, Some configs)
      end
  end.

(** [EnsureTopics]: [for attempt := 1; attempt <= 20; attempt++]. *)
Definition EnsureTopics (topics : list string)
  : option error * startup * option (list TopicConfig) :=
  EnsureTopics_loop 20 1 topics (mkStartup 0 []).

End EnsureTopics.

End Kafka.

(** ** Trip ledger (package trips) *)

Module Trips.

(** The lifecycle states ([StatusRequested] ... [StatusCancelled], string
    constants in the source). *)
Inductive TripStatus : Type :=
| StatusRequested
| StatusMatching
| StatusDriverAssigned
| StatusStarted
| StatusCompleted
| StatusCancelled.

#[export] Instance TripStatus_eq_dec : EqDecision TripStatus.
Proof. solve_decision. Defined.

(** A [time.Time], as an instant on the integer line. *)
Definition Time : Type := Z.

(** [type Trip struct]; a row of table [trips] has the same fields (the
    [fare] column is DECIMAL(12,2); a row of the model keeps the [float64] the
    statement was given). *)
Record Trip : Type := mkTrip {
  ID : string;
  RiderID : string;
  DriverID : option string;
  PickupLat : float;
  PickupLng : float;
  DropLat : float;
  DropLng : float;
  Fare : option float;
  Status : TripStatus;
  RequestedAt : option Time;
  StartedAt : option Time;
  CompletedAt : option Time;
  CreatedAt : Time;
}.

(** [type TripRequest struct]. *)
Record TripRequest : Type := mkTripRequest {
  req_PickupLat : float;
  req_PickupLng : float;
  req_DropLat : float;
  req_DropLng : float;
}.

(** *** The connection pool and the SQL statements sent through it *)

(** Table [trips], keyed by its primary key, behind a pool that either answers
    or does not ([reachable = false] stands for every reason for which the
    driver reports an error). *)
Record Pool : Type := mkPool {
  reachable : bool;
  trips : gmap string Trip;
}.

Definition unreachable : error := driverError "postgres".

(** [INSERT INTO trips (...) VALUES (...)]: refused on a primary key that is
    already there. *)
Definition Exec_insert (row : Trip) (p : Pool) : result nat * Pool :=
  if reachable p then
    match trips p !! ID row with
    | Some _ => (Fail (driverError "postgres: duplicate key"), p)
    | None => (Ok 1%nat, mkPool (reachable p) (<[ID row := row]> (trips p)))
    end
  else (Fail unreachable, p).

(** [UPDATE trips SET <set> WHERE id = tripID AND <cond>]; the [nat] is
    [RowsAffected()]. *)
Definition Exec_update (set : Trip → Trip) (tripID : string) (cond : Trip → bool)
  (p : Pool) : result nat * Pool :=
  if reachable p then
    match trips p !! tripID with
    | Some row =>
        if cond row
        then (Ok 1%nat, mkPool (reachable p) (<[tripID := set row]> (trips p)))
        else (Ok 0%nat, p)
    | None => (Ok 0%nat, p)
    end
  else (Fail unreachable, p).

(** [SELECT ... FROM trips WHERE id = tripID], scanned into a [Trip]. *)
Definition QueryRow (tripID : string) (p : Pool) : result Trip :=
  if reachable p then
    match trips p !! tripID with
    | Some row => Ok row
    | None => Fail (driverError "postgres: no rows in result set")
    end
  else Fail unreachable.

(** The SET clauses of the three UPDATE statements. *)
Definition set_driver_status (driverID : string) (st : TripStatus) (t : Trip) : Trip :=
  mkTrip (ID t) (RiderID t) (Some driverID) (PickupLat t) (PickupLng t)
    (DropLat t) (DropLng t) (Fare t) st (RequestedAt t) (StartedAt t)
    (CompletedAt t) (CreatedAt t).

Definition set_status_started_at (st : TripStatus) (now : Time) (t : Trip) : Trip :=
  mkTrip (ID t) (RiderID t) (DriverID t) (PickupLat t) (PickupLng t)
    (DropLat t) (DropLng t) (Fare t) st (RequestedAt t) (Some now)
    (CompletedAt t) (CreatedAt t).

Definition set_status_fare_completed_at (st : TripStatus) (fare : float) (now : Time)
  (t : Trip) : Trip :=
  mkTrip (ID t) (RiderID t) (DriverID t) (PickupLat t) (PickupLng t)
    (DropLat t) (DropLng t) (Some fare) st (RequestedAt t) (StartedAt t)
    (Some now) (CreatedAt t).

(** The WHERE conditions on [status]. *)
Definition status_in (a b : TripStatus) (t : Trip) : bool :=
  bool_decide (Status t = a) || bool_decide (Status t = b).

Definition status_is (a : TripStatus) (t : Trip) : bool :=
  bool_decide (Status t = a).

Definition any_status (t : Trip) : bool := true.

(** *** The service *)

(** What a method of [Service] acts on: the pool, the publishing goroutines it
    has started ([go func() { s.kafka.Publish(...) }()], as topic, key and
    payload), and the process log. *)
Record Service : Type := mkService {
  db : Pool;
  spawned : list (string * string * Events.event);
  stderr : list log_line;
}.

(** A method body: it returns a value or an error, and leaves a service
    state behind. *)
Definition M (A : Type) : Type := Service → result A * Service.

Definition ret {A} (a : A) : M A := λ s, (Ok a, s).
Definition fail {A} (e : error) : M A := λ s, (Fail e, s).
Definition bind {A B} (m : M A) (k : A → M B) : M B :=
  λ s, match m s with
       | (Ok a, s') => k a s'
       | (Fail e, s') => (Fail e, s')
       end.

(** [s.db.Exec(ctx, stmt)]. *)
Definition Exec (stmt : Pool → result nat * Pool) : M nat :=
  λ s, let '(r, p) := stmt (db s) in (r, mkService p (spawned s) (stderr s)).

(** [go func() { ... s.kafka.Publish(context.Background(), topic, key, ev) ... }()]. *)
Definition go_Publish (topic key : string) (ev : Events.event) : M unit :=
  λ s, (Ok tt, mkService (db s) (spawned s ++ [(topic, key, ev)]) (stderr s)).

Definition log_Printf (fmt : string) (a : list log_arg) : Service → Service :=
  λ s, mkService (db s) (spawned s) (stderr s ++ [Printf fmt a]).

(** [x ← m; k] and [m ;; k] are stdpp's notations for [bind]. *)
#[export] Instance M_ret : MRet M := @ret.
#[export] Instance M_bind : MBind M := λ A B k m, bind m k.

Section Methods.

(** [math.Sin], [math.Cos], [math.Atan2]. *)
Variables Sin Cos : float → float.
Variable Atan2 : float → float → float.

(** [t.Format(time.RFC3339)] and [int64(t2.Sub(t1).Seconds())]. *)
Variable FormatRFC3339 : Time → string.
Variable SubSeconds : Time → Time → Z.

(** [json.Unmarshal] into an [events.DriverAssignedEvent]. *)
Variable Unmarshal : list Byte.byte → result Events.DriverAssignedEvent.

(** [math.Pi] as a [float64]. *)
Definition Pi : float := 0x1.921fb54442d18p+1%float.

(** [haversineKm]. *)
Definition haversineKm (lat1 lng1 lat2 lng2 : float) : float :=
  (let R := 6371 in
   let dLat := (lat2 - lat1) * Pi / 180 in
   let dLng := (lng2 - lng1) * Pi / 180 in
   let a := Sin (dLat / 2) * Sin (dLat / 2) +
            Cos (lat1 * Pi / 180) * Cos (lat2 * Pi / 180) *
              Sin (dLng / 2) * Sin (dLng / 2) in
   R * 2 * Atan2 (sqrt a) (sqrt (1 - a)))%float.

(** The term [Sin(d/2) * Sin(d/2)] of [haversineKm] for the difference [d],
    in radians, between two coordinates in degrees. *)
Definition half_angle_square (from to : float) : float :=
  (Sin ((to - from) * Pi / 180 / 2) * Sin ((to - from) * Pi / 180 / 2))%float.

(** [Request]; [id] is the fresh [uuid.New().String()], [now] is
    [time.Now()] (the column default of [created_at] reads the same
    instant in this model). *)
Definition Request (id : string) (now : Time) (riderID : string)
  (req : TripRequest) : M Trip :=
  let trip :=
    mkTrip id riderID None (req_PickupLat req) (req_PickupLng req)
      (req_DropLat req) (req_DropLng req) None StatusRequested (Some now)
      None None now in
  Exec (Exec_insert trip) ;;
  go_Publish Kafka.TopicRideRequested id
         (Events.RideRequested
            (Events.mkRideRequested id riderID
               (Events.mkLatLng (req_PickupLat req) (req_PickupLng req))
               (Events.mkLatLng (req_DropLat req) (req_DropLng req))
               (FormatRFC3339 now))) ;;
  ret trip.

(** [GetByID]: every failure of the query is reported as "trip not found". *)
Definition GetByID (id : string) : M Trip :=
  λ s, match QueryRow id (db s) with
       | Ok t => (Ok t, s)
       | Fail _ => (Fail (errorString "trip not found"), s)
       end.

(** The statement shared by [AssignDriver] and the driver.assigned consumer:
    [UPDATE trips SET driver_id=$1, status=$2 WHERE id=$3 AND status IN ($4,$5)]. *)
Definition update_assign (driverID tripID : string) : Pool → result nat * Pool :=
  Exec_update (set_driver_status driverID StatusDriverAssigned) tripID
    (status_in StatusRequested StatusMatching).

(** [UPDATE trips SET status=$1, started_at=$2 WHERE id=$3 AND status=$4]. *)
Definition update_start (now : Time) (tripID : string) : Pool → result nat * Pool :=
  Exec_update (set_status_started_at StatusStarted now) tripID
    (status_is StatusDriverAssigned).

(** [UPDATE trips SET status=$1, fare=$2, completed_at=$3 WHERE id=$4]. *)
Definition update_end (fare : float) (now : Time) (tripID : string)
  : Pool → result nat * Pool :=
  Exec_update (set_status_fare_completed_at StatusCompleted fare now) tripID
    any_status.

(** [AssignDriver]. *)
Definition AssignDriver (tripID driverID : string) : M Trip :=
  tag ← Exec (update_assign driverID tripID);
  if Nat.eqb tag 0
  then fail (errorString "trip not found or invalid state for assignment")
  else GetByID tripID.

(** [Start]; [now] is [time.Now()]. *)
Definition Start (tripID : string) (now : Time) : M Trip :=
  tag ← Exec (update_start now tripID);
  if Nat.eqb tag 0
  then fail (errorString "trip not found or not in DRIVER_ASSIGNED state")
  else GetByID tripID.

(** The distance [End] charges for. *)
Definition distance (trip : Trip) (distKm : option float) : float :=
  match distKm with
  | Some d =>
      if (0 <? d)%float then d
      else haversineKm (PickupLat trip) (PickupLng trip) (DropLat trip) (DropLng trip)
  | None => haversineKm (PickupLat trip) (PickupLng trip) (DropLat trip) (DropLng trip)
  end.

(** [fare := 50.0 + km*12.0]. *)
Definition fare_of (km : float) : float := (50 + km * 12)%float.

(** [End], first half: read the trip, test its status, price it. *)
Definition End_check (tripID : string) (distKm : option float) : M (Trip * float) :=
  trip ← GetByID tripID;
  if bool_decide (Status trip ≠ StatusStarted)
  then fail (errorString "trip not in STARTED state")
  else ret (trip, fare_of (distance trip distKm)).

(** [End], second half: send the UPDATE, start the publishing goroutine, read
    the trip back; [now] is [time.Now()]. *)
Definition End_commit (tripID : string) (trip : Trip) (fare : float) (now : Time)
  : M Trip :=
  Exec (update_end fare now tripID) ;;
  let driverID := default "" (DriverID trip) in
  let durSec := from_option (SubSeconds now) 0 (StartedAt trip) in
  go_Publish Kafka.TopicTripCompleted tripID
         (Events.TripCompleted
            (Events.mkTripCompleted tripID driverID (RiderID trip) fare
               (FormatRFC3339 now) durSec)) ;;
  GetByID tripID.

(** [End]. *)
Definition End (tripID : string) (distKm : option float) (now : Time) : M Trip :=
  '(trip, fare) ← End_check tripID distKm;
  End_commit tripID trip fare now.

(** The handler that [StartDriverAssignedConsumer] subscribes. *)
Definition DriverAssigned_handler (data : list Byte.byte) (s : Service)
  : option error * Service :=
  match Unmarshal data with
  | Fail err => (Some err, s)
  | Ok ev =>
      let s1 := log_Printf "[trips] received driver.assigned: trip=%s driver=%s"
                  [LStr (Events.da_TripID ev); LStr (Events.da_DriverID ev)] s in
      match Exec (update_assign (Events.da_DriverID ev) (Events.da_TripID ev)) s1 with
      | (Ok _, s2) => (None, s2)
      | (Fail err, s2) => (Some err, s2)
      end
  end.

(** The goroutine that [End] starts for trip.completed. *)
Definition completed_event (tripID : string) (trip : Trip) (fare : float) (now : Time)
  : string * string * Events.event :=
  (Kafka.TopicTripCompleted, tripID,
   Events.TripCompleted
     (Events.mkTripCompleted tripID (default "" (DriverID trip)) (RiderID trip)
        fare (FormatRFC3339 now) (from_option (SubSeconds now) 0 (StartedAt trip)))).

(** *** The ledger as a transition system *)

(** The service together with the [End] calls that have passed their status
    test and have not sent their UPDATE yet (trip id, the trip as read, the
    fare): requests are served by goroutines of their own, so other calls may
    run in between. *)
Record System : Type := mkSystem {
  svc : Service;
  in_flight : list (string * Trip * float);
}.

Inductive step : Type :=
| DoRequest (id : string) (now : Time) (riderID : string) (req : TripRequest)
| DoAssignDriver (tripID driverID : string)
| DoStart (tripID : string) (now : Time)
| DoEnd (tripID : string) (distKm : option float) (now : Time)
| DoEndCheck (tripID : string) (distKm : option float)
| DoEndCommit (k : nat) (now : Time)
| DoDriverAssigned (data : list Byte.byte)
| DoPool (up : bool).

Definition exec (sys : System) (st : step) : System :=
  match st with
  | DoRequest id now riderID req =>
      mkSystem (Request id now riderID req (svc sys)).2 (in_flight sys)
  | DoAssignDriver tripID driverID =>
      mkSystem (AssignDriver tripID driverID (svc sys)).2 (in_flight sys)
  | DoStart tripID now =>
      mkSystem (Start tripID now (svc sys)).2 (in_flight sys)
  | DoEnd tripID distKm now =>
      mkSystem (End tripID distKm now (svc sys)).2 (in_flight sys)
  | DoEndCheck tripID distKm =>
      match End_check tripID distKm (svc sys) with
      | (Ok (trip, fare), s') => mkSystem s' (in_flight sys ++ [(tripID, trip, fare)])
      | (Fail _, s') => mkSystem s' (in_flight sys)
      end
  | DoEndCommit k now =>
      match in_flight sys !! k with
      | Some (tripID, trip, fare) =>
          mkSystem (End_commit tripID trip fare now (svc sys)).2
            (delete k (in_flight sys))
      | None => sys
      end
  | DoDriverAssigned data =>
      mkSystem (DriverAssigned_handler data (svc sys)).2 (in_flight sys)
  | DoPool up =>
      mkSystem
        (mkService (mkPool up (trips (db (svc sys)))) (spawned (svc sys))
           (stderr (svc sys)))
        (in_flight sys)
  end.

(** The states a run goes through, the first one included. *)
Fixpoint states (sys : System) (sts : list step) : list System :=
  sys ::
  match sts with
  | [] => []
  | st :: sts' => states (exec sys st) sts'
  end.

End Methods.

(** The errors the methods build with [errors.New]. *)
Definition conflict_assign : error :=
  errorString "trip not found or invalid state for assignment".
Definition conflict_start : error :=
  errorString "trip not found or not in DRIVER_ASSIGNED state".
Definition conflict_end : error := errorString "trip not in STARTED state".

(** The service [s] with the row of [tripID] replaced, and with one more
    goroutine started. *)
Definition with_row (tripID : string) (row : Trip) (s : Service) : Service :=
  mkService (mkPool (reachable (db s)) (<[tripID := row]> (trips (db s))))
    (spawned s) (stderr s).

Definition with_spawned (g : string * string * Events.event) (s : Service) : Service :=
  mkService (db s) (spawned s ++ [g]) (stderr s).

Ltac unfold_methods :=
  unfold AssignDriver, Start, End, End_check, End_commit, Request, GetByID,
    DriverAssigned_handler, update_assign, update_start, update_end,
    go_Publish, log_Printf, Exec, Exec_update, Exec_insert, QueryRow,
    mbind, M_bind, bind, mret, M_ret, ret, fail, with_row, with_spawned,
    completed_event in *.

Ltac break_service s :=
  let up := fresh "up" in let rows := fresh "rows" in
  let sp := fresh "sp" in let se := fresh "se" in
  destruct s as [[up rows] sp se]; simpl in *.

(** A ledger with no trip, a reachable pool and nothing in flight. *)
Definition empty_system : System :=
  mkSystem (mkService (mkPool true ∅) [] []) [].

(** The status of trip [tripID] in a state, if the trip exists there. *)
Definition status_at (tripID : string) (sys : System) : option TripStatus :=
  Status <$> trips (db (svc sys)) !! tripID.

(** A status sequence with immediate repetitions dropped. *)
Fixpoint changes (l : list TripStatus) : list TripStatus :=
  match l with
  | [] => []
  | a :: l' =>
      match l' with
      | [] => [a]
      | b :: _ => if bool_decide (a = b) then changes l' else a :: changes l'
      end
  end.

(** The statuses of trip [tripID] observed along a list of states, repetitions
    dropped. *)
Definition observed (tripID : string) (l : list System) : list TripStatus :=
  changes (omap (status_at tripID) l).

Definition lifecycle : list TripStatus :=
  [StatusRequested; StatusDriverAssigned; StatusStarted; StatusCompleted].

(** The status that follows a status on the lifecycle. *)
Definition next_status (a : TripStatus) : option TripStatus :=
  match a with
  | StatusRequested => Some StatusDriverAssigned
  | StatusDriverAssigned => Some StatusStarted
  | StatusStarted => Some StatusCompleted
  | _ => None
  end.

(** The lifecycle from a status on. *)
Definition lifecycle_from (a : TripStatus) : list TripStatus :=
  match a with
  | StatusRequested => lifecycle
  | StatusDriverAssigned => [StatusDriverAssigned; StatusStarted; StatusCompleted]
  | StatusStarted => [StatusStarted; StatusCompleted]
  | StatusCompleted => [StatusCompleted]
  | _ => []
  end.

(** [l] continues from status [a] by staying or by moving to the next status,
    one element at a time. *)
Fixpoint path (a : TripStatus) (l : list TripStatus) : Prop :=
  match l with
  | [] => True
  | b :: l' => (b = a ∨ next_status a = Some b) ∧ path b l'
  end.

(** How the status of one trip may differ between two consecutive states. *)
Definition moves (o o' : option TripStatus) : Prop :=
  match o with
  | None => o' = None ∨ o' = Some StatusRequested
  | Some a => o' = Some a ∨ ∃ b, next_status a = Some b ∧ o' = Some b
  end.

(** How table [trips] may differ between two consecutive states: not at all,
    by one new row in [StatusRequested], or by one row rewritten in place with
    its status kept or moved to the next one. *)
Definition trips_step (m m' : gmap string Trip) : Prop :=
  m' = m ∨
  (∃ id row, m !! id = None ∧ Status row = StatusRequested ∧ m' = <[id := row]> m) ∨
  (∃ id old new, m !! id = Some old ∧ m' = <[id := new]> m ∧
     (Status new = Status old ∨ next_status (Status old) = Some (Status new))).

(** What holds in every state of a run from [empty_system]: every row is in a
    status of the lifecycle, and an [End] call in flight is for a trip that is
    started or completed. *)
Definition ledger_inv (sys : System) : Prop :=
  (∀ id row, trips (db (svc sys)) !! id = Some row → Status row ∈ lifecycle) ∧
  (∀ id trip fare, (id, trip, fare) ∈ in_flight sys →
     ∃ row, trips (db (svc sys)) !! id = Some row ∧
            (Status row = StatusStarted ∨ Status row = StatusCompleted)).

(** The fields of a trip that no statement of the service writes after the
    INSERT. *)
Definition identity (t : Trip)
  : string * string * (float * float) * (float * float) * option Time * Time :=
  (ID t, RiderID t, (PickupLat t, PickupLng t), (DropLat t, DropLng t),
   RequestedAt t, CreatedAt t).

(** One row before and after one step of the ledger: untouched, or rewritten
    by one of the three UPDATE statements. *)
Definition row_step (old new : Trip) : Prop :=
  new = old ∨
  (∃ driverID,
     (Status old = StatusRequested ∨ Status old = StatusMatching) ∧
     new = set_driver_status driverID StatusDriverAssigned old) ∨
  (∃ now,
     Status old = StatusDriverAssigned ∧
     new = set_status_started_at StatusStarted now old) ∨
  (∃ fare now, new = set_status_fare_completed_at StatusCompleted fare now old).

(** The statuses a trip has once a driver is on it, and once it is under way. *)
Definition assigned (st : TripStatus) : bool :=
  match st with StatusRequested | StatusMatching => false | _ => true end.

Definition under_way (st : TripStatus) : bool :=
  match st with StatusStarted | StatusCompleted | StatusCancelled => true | _ => false end.

Definition final (st : TripStatus) : bool :=
  match st with StatusCompleted | StatusCancelled => true | _ => false end.

(** The steps in which a method runs from its first statement to its last
    with no other call in between. *)
Definition atomic (st : step) : bool :=
  match st with
  | DoEndCheck _ _ | DoEndCommit _ _ => false
  | _ => true
  end.

(** The goroutine that [Request] starts for ride.requested. *)
Definition requested_event (FormatRFC3339 : Time → string) (trip : Trip)
  : string * string * Events.event :=
  (Kafka.TopicRideRequested, ID trip,
   Events.RideRequested
     (Events.mkRideRequested (ID trip) (RiderID trip)
        (Events.mkLatLng (PickupLat trip) (PickupLng trip))
        (Events.mkLatLng (DropLat trip) (DropLng trip))
        (FormatRFC3339 (CreatedAt trip)))).

(** The row that [Request] inserts. *)
Definition requested_trip (id : string) (now : Time) (riderID : string)
  (req : TripRequest) : Trip :=
  mkTrip id riderID None (req_PickupLat req) (req_PickupLng req)
    (req_DropLat req) (req_DropLng req) None StatusRequested (Some now)
    None None now.

End Trips.

(** ** Table trips with its column types (migrations/V3_create_trips.sql) *)

Module TripsTable.
Import Trips.

(** *** The [fare] column, [DECIMAL(12,2)] *)

(** The hundredths in a positive [float64] [m * 2^e]: how many whole ones, and
    whether what is left over is half of one or more. *)
Definition hundredths (m : positive) (e : Z) : Z * bool :=
  match e with
  | Z.neg p =>
      let d := 2 ^ Z.pos p in
      ((100 * Z.pos m) / d, d <=? 2 * ((100 * Z.pos m) mod d))
  | _ => (100 * Z.pos m * 2 ^ e, false)
  end.

(** The [float64] nearest to an integer. *)
Definition float_of_Z (k : Z) : float :=
  SF2Prim (binary_normalize prec emax k 0 false).

(** What the column keeps of a [float64] written to it, as the [float64] read
    back; [None] when the server refuses the value (numeric field overflow).
    The column holds ten digits before the point and two after it.  The driver
    sends a [float64] as its shortest decimal text and the server rounds that
    text to two decimals, half away from zero: a value rounds up when what
    follows the second decimal is a half or more, or when its text is exactly
    a half (as for 1.005, which as a [float64] lies below its text).  NaN is a
    value of the column, the infinities are not, and zero has no sign. *)
Definition DECIMAL_12_2 (f : float) : option float :=
  match Prim2SF f with
  | S754_nan => Some nan
  | S754_infinity _ => None
  | S754_zero _ => Some 0%float
  | S754_finite s m e =>
      let '(k, half) := hundredths m e in
      if 10 ^ 12 <=? k then None
      else
        let up := half || (float_of_Z (2 * k + 1) / 200 =? abs f)%float in
        let K := if up then k + 1 else k in
        if 10 ^ 12 <=? K then None
        else if K =? 0 then Some 0%float
        else Some (if s then - (float_of_Z K / 100) else float_of_Z K / 100)%float
  end.

Definition numeric_overflow : error := driverError "postgres: numeric field overflow".

Section Methods.

Variables Sin Cos : float → float.
Variable Atan2 : float → float → float.
Variable FormatRFC3339 : Time → string.
Variable SubSeconds : Time → Time → Z.

(** What a [TIMESTAMPTZ] column keeps of a [time.Time]: the instant at the
    resolution of the column, microseconds. *)
Variable TIMESTAMPTZ : Time → Time.

(** [UPDATE trips SET status=$1, fare=$2, completed_at=$3 WHERE id=$4], the
    values going through the types of their columns. *)
Definition update_end (fare : float) (now : Time) (tripID : string) (p : Pool)
  : result nat * Pool :=
  if reachable p then
    match trips p !! tripID with
    | Some row =>
        match DECIMAL_12_2 fare with
        | Some stored =>
            (Ok 1%nat,
             mkPool (reachable p)
               (<[tripID := set_status_fare_completed_at StatusCompleted stored
                              (TIMESTAMPTZ now) row]> (trips p)))
        | None => (Fail numeric_overflow, p)
        end
    | None => (Ok 0%nat, p)
    end
  else (Fail unreachable, p).

(** [End], second half, on this table: send the UPDATE, start the publishing
    goroutine, read the trip back. *)
Definition End_commit (tripID : string) (trip : Trip) (fare : float) (now : Time)
  : M Trip :=
  Exec (update_end fare now tripID) ;;
  let driverID := default "" (DriverID trip) in
  let durSec := from_option (SubSeconds now) 0 (StartedAt trip) in
  go_Publish Kafka.TopicTripCompleted tripID
         (Events.TripCompleted
            (Events.mkTripCompleted tripID driverID (RiderID trip) fare
               (FormatRFC3339 now) durSec)) ;;
  GetByID tripID.

(** [End] on this table. *)
Definition End (tripID : string) (distKm : option float) (now : Time) : M Trip :=
  '(trip, fare) ← End_check Sin Cos Atan2 tripID distKm;
  End_commit tripID trip fare now.

End Methods.

End TripsTable.

(** ** Matching consumer (package matching) *)

Module Matching.

(** What the handler closure of [Matcher.Start] acts on: the two clients of
    the [Matcher] and the process log. *)
Record Matcher : Type := mkMatcher {
  kafka : Kafka.Client;
  redis : Redis.Client;
  stderr : list log_line;
}.

Definition log_Printf (l : log_line) (m : Matcher) : Matcher :=
  mkMatcher (kafka m) (redis m) (stderr m ++ [l]).

Section Handler.

Variable geodist : float → float → float → float → float.
Variable Marshal : Events.event → result (list Byte.byte).

(** [json.Unmarshal] into an [events.RideRequestedEvent]. *)
Variable Unmarshal : list Byte.byte → result Events.RideRequestedEvent.

(** What the handler does once a driver has been found: publish, then take the
    driver out of the pool. *)
Definition assign (ev : Events.RideRequestedEvent) (driver : string) (m : Matcher)
  : option error * Matcher :=
  let assigned := Events.mkDriverAssigned (Events.rr_TripID ev) driver in
  match Kafka.Publish Marshal Kafka.TopicDriverAssigned (Events.rr_TripID ev)
          (Events.DriverAssigned assigned) (kafka m) with
  | (Some err, k') =>
      (Some err,
       log_Printf (Printf "[matching] failed to publish driver.assigned: %v" [LErr err])
         (mkMatcher k' (redis m) (stderr m)))
  | (None, k') =>
      let '(_, r') := Redis.RemoveDriverLocation driver (redis m) in
      (None,
       log_Printf (Printf "[matching] assigned driver %s → trip %s"
                     [LStr driver; LStr (Events.rr_TripID ev)])
         (mkMatcher k' r' (stderr m)))
  end.

(** The handler that [Matcher.Start] subscribes to ride.requested, in the
    revision that tells a store error from an empty answer. *)
Definition handler (data : list Byte.byte) (m : Matcher) : option error * Matcher :=
  match Unmarshal data with
  | Fail err => (Some err, m)
  | Ok ev =>
      let m1 := log_Printf (Printf "[matching] ride.requested → trip=%s rider=%s"
                              [LStr (Events.rr_TripID ev); LStr (Events.rr_RiderID ev)]) m in
      match Redis.GetNearbyDrivers geodist (Events.Lat (Events.rr_Pickup ev))
              (Events.Lng (Events.rr_Pickup ev)) 5 1 (redis m1) with
      | Fail err =>
          (Some err,
           log_Printf (Printf "[matching] redis error for trip %s: %v"
                         [LStr (Events.rr_TripID ev); LErr err]) m1)
      | Ok [] =>
          (None,
           log_Printf (Printf "[matching] no nearby drivers for trip %s"
                         [LStr (Events.rr_TripID ev)]) m1)
      | Ok (driver :: _) => assign ev driver m1
      end
  end.

(** The same handler in the revision of matcher.go, where a store error and an
    empty answer share one branch. *)
Definition handler_merged (data : list Byte.byte) (m : Matcher)
  : option error * Matcher :=
  match Unmarshal data with
  | Fail err => (Some err, m)
  | Ok ev =>
      let m1 := log_Printf (Printf "[matching] ride.requested → trip=%s rider=%s"
                              [LStr (Events.rr_TripID ev); LStr (Events.rr_RiderID ev)]) m in
      match Redis.GetNearbyDrivers geodist (Events.Lat (Events.rr_Pickup ev))
              (Events.Lng (Events.rr_Pickup ev)) 5 1 (redis m1) with
      | Fail _ | Ok [] =>
          (None,
           log_Printf (Printf "[matching] no nearby drivers for trip %s"
                         [LStr (Events.rr_TripID ev)]) m1)
      | Ok (driver :: _) => assign ev driver m1
      end
  end.

(** [Matcher.Start]: the consumer goroutine over [n] turns of its loop. *)
Definition Start {Reader : Type} (ReadMessage : Reader → Kafka.read * Reader)
  (n : nat) (r : Reader) (m : Matcher) : Reader * Matcher :=
  Kafka.Subscribe ReadMessage log_Printf n Kafka.TopicRideRequested handler r m.

End Handler.

End Matching.

(** ** Driver endpoints (package drivers) *)

Module Drivers.

(** [type LocationUpdate struct]. *)
Record LocationUpdate : Type := mkLocationUpdate { Lat : float; Lng : float }.

(** What [writeJSON] sends: the status code and the JSON object. *)
Record response : Type := writeJSON {
  code : Z;
  body : list (string * string);
}.

(** [err.Error()]. *)
Definition Error (e : error) : string :=
  match e with
  | errorString msg => msg
  | driverError component => component
  | syntaxError msg => msg
  end.

Section Handler.

(** [json.NewDecoder(r.Body).Decode(&loc)]. *)
Variable Decode : list Byte.byte → result LocationUpdate.

(** [Service.UpdateLocation]. *)
Definition Service_UpdateLocation (driverID : string) (lat lng : float)
  (c : Redis.Client) : option error * Redis.Client :=
  Redis.SetDriverLocation driverID lat lng c.

(** [Handler.UpdateLocation], for [PATCH /drivers/{id}/location], in the
    revision that validates the coordinates; [id] is the URL parameter and
    [body] the request body. *)
Definition UpdateLocation (id : string) (body : list Byte.byte) (c : Redis.Client)
  : response * Redis.Client :=
  match Decode body with
  | Fail _ => (writeJSON 400 [("error", "invalid body")], c)
  | Ok loc =>
      if negb (Validation.ValidateCoordinates (Lat loc) (Lng loc))
      then (writeJSON 400 [("error", "invalid coordinates")], c)
      else
        match Service_UpdateLocation id (Lat loc) (Lng loc) c with
        | (Some err, c') => (writeJSON 500 [("error", Error err)], c')
        | (None, c') => (writeJSON 200 [("status", "location_updated")], c')
        end
  end.

End Handler.

(** What [GetNearby] sends: an error object, or the object
    [{"drivers": ids}]. *)
Inductive nearby_response : Type :=
| Refused (r : response)
| Drivers (code : Z) (ids : list string).

Section Nearby.

Variable geodist : float → float → float → float → float.

(** [strconv.ParseFloat(s, 64)]. *)
Variable ParseFloat : string → result float.

(** [Service.GetNearby]. *)
Definition Service_GetNearby (lat lng radiusKm : float) (c : Redis.Client)
  : result (list string) :=
  Redis.GetNearbyDrivers geodist lat lng radiusKm 10 c.

(** The end of [GetNearby], from the call of the service on. *)
Definition GetNearby_query (lat lng radius : float) (c : Redis.Client)
  : nearby_response :=
  match Service_GetNearby lat lng radius c with
  | Fail err => Refused (writeJSON 500 [("error", Error err)])
  | Ok ids => Drivers 200 ids
  end.

(** [Handler.GetNearby], for [GET /drivers/nearby]; the three strings are
    [r.URL.Query().Get] of "lat", "lng" and "radius", empty for a parameter
    that is absent. *)
Definition GetNearby (latStr lngStr radiusStr : string) (c : Redis.Client)
  : nearby_response :=
  if String.eqb latStr "" || String.eqb lngStr ""
  then Refused (writeJSON 400 [("error", "lat and lng are required")])
  else
    match ParseFloat latStr with
    | Fail _ => Refused (writeJSON 400 [("error", "invalid lat")])
    | Ok lat =>
        match ParseFloat lngStr with
        | Fail _ => Refused (writeJSON 400 [("error", "invalid lng")])
        | Ok lng =>
            if negb (Validation.ValidateCoordinates lat lng)
            then Refused (writeJSON 400 [("error", "invalid coordinates")])
            else if String.eqb radiusStr ""
            then GetNearby_query lat lng 5 c
            else
              match ParseFloat radiusStr with
              | Fail _ => Refused (writeJSON 400 [("error", "invalid radius")])
              | Ok radius =>
                  if (radius <=? 0)%float
                  then Refused (writeJSON 400 [("error", "invalid radius")])
                  else GetNearby_query lat lng radius c
              end
        end
    end.

End Nearby.

(** [type Driver struct]; [PasswordHash] is the column password_hash. *)
Record Driver : Type := mkDriver {
  ID : string;
  Name : string;
  Email : string;
  Phone : string;
  PasswordHash : string;
  VehicleType : string;
  LicensePlate : string;
  Status : string;
  Rating : float;
  CreatedAt : option Z;
}.

Record RegisterRequest : Type := mkRegisterRequest {
  req_Name : string;
  req_Email : string;
  req_Phone : string;
  req_Password : string;
  req_VehicleType : string;
  req_LicensePlate : string;
}.

Record AuthResponse : Type := mkAuthResponse {
  Token : string;
  driver : Driver;
}.

(** The pool and the table drivers behind it, oldest row first: id is the
    primary key, email and phone are UNIQUE. *)
Record Pool : Type := mkPool {
  reachable : bool;
  drivers : list Driver;
}.

(** What [Register] sends: an error object, or the token with the account. *)
Inductive register_response : Type :=
| RefusedJSON (r : response)
| AuthJSON (code : Z) (resp : AuthResponse).

Section Accounts.

Variable TrimSpace : string → string.

(** [json.NewDecoder(r.Body).Decode(&req)]. *)
Variable Decode_RegisterRequest : list Byte.byte → result RegisterRequest.

(** [bcrypt.GenerateFromPassword] and [jwt.Generate]. *)
Variable GenerateFromPassword : string → result string.
Variable Generate : Z → string → string → string → result string.

(** [SELECT EXISTS(SELECT 1 FROM drivers WHERE email=$1)] scanned into
    [exists], the error dropped. *)
Definition QueryRow_exists_email (email : string) (p : Pool) : bool :=
  reachable p && existsb (λ d, String.eqb (Email d) email) (drivers p).

(** The INSERT of [Service.Register]: status available and rating 5.0 are in
    the statement, created_at takes its default. *)
Definition Exec_insert (now : Z) (id name email phone hash vt plate : string) (p : Pool)
  : option error * Pool :=
  if reachable p
  then
    if existsb (λ d, String.eqb (ID d) id || String.eqb (Email d) email
                     || String.eqb (Phone d) phone) (drivers p)
    then (Some (driverError "postgres: duplicate key"), p)
    else (None,
          mkPool (reachable p)
            (drivers p ++
               [mkDriver id name email phone hash vt plate "available" 5 (Some now)]))
  else (Some (driverError "postgres"), p).

(** [Service.Register]; [id] is [uuid.New().String()], [now] the time of the
    call. *)
Definition Service_Register (id : string) (now : Z) (req : RegisterRequest) (p : Pool)
  : result AuthResponse * Pool :=
  if QueryRow_exists_email (req_Email req) p
  then (Fail (errorString "email already exists"), p)
  else
    match GenerateFromPassword (req_Password req) with
    | Fail err => (Fail err, p)
    | Ok hash =>
        let vt := if String.eqb (req_VehicleType req) "" then "sedan"
                  else req_VehicleType req in
        match Exec_insert now id (req_Name req) (req_Email req) (req_Phone req) hash vt
                (req_LicensePlate req) p with
        | (Some err, p') => (Fail err, p')
        | (None, p') =>
            match Generate now id (req_Email req) "driver" with
            | Fail err => (Fail err, p')
            | Ok token =>
                (Ok (mkAuthResponse token
                       (mkDriver id (req_Name req) (req_Email req) (req_Phone req) ""
                          vt (req_LicensePlate req) "available" 5 None)), p')
            end
        end
    end.

(** [Handler.Register], for [POST /drivers/register]. *)
Definition Register (id : string) (now : Z) (body : list Byte.byte) (p : Pool)
  : register_response * Pool :=
  match Decode_RegisterRequest body with
  | Fail _ => (RefusedJSON (writeJSON 400 [("error", "invalid body")]), p)
  | Ok req =>
      if negb (Validation.ValidateName TrimSpace (req_Name req))
      then (RefusedJSON (writeJSON 400 [("error", "invalid name")]), p)
      else if negb (Validation.ValidateEmail TrimSpace (req_Email req))
      then (RefusedJSON (writeJSON 400 [("error", "invalid email")]), p)
      else if negb (Validation.ValidatePhone TrimSpace (req_Phone req))
      then (RefusedJSON (writeJSON 400 [("error", "invalid phone")]), p)
      else if negb (Validation.ValidatePassword (req_Password req))
      then (RefusedJSON
              (writeJSON 400 [("error", "password must be at least 6 characters")]), p)
      else
        match Service_Register id now req p with
        | (Fail err, p') => (RefusedJSON (writeJSON 409 [("error", Error err)]), p')
        | (Ok resp, p') => (AuthJSON 201 resp, p')
        end
  end.

(** A series of requests to the endpoint, each with the id and the time that
    its call draws. *)
Definition Register_all (requests : list (string * Z * list Byte.byte)) (p : Pool)
  : Pool :=
  fold_left (λ p r, (Register r.1.1 r.1.2 r.2 p).2) requests p.

(** What holds of an account that came in through the endpoint. *)
Definition well_formed (d : Driver) : Prop :=
  Validation.ValidateName TrimSpace (Name d) = true ∧
  Validation.ValidateEmail TrimSpace (Email d) = true ∧
  Validation.ValidatePhone TrimSpace (Phone d) = true ∧
  VehicleType d ≠ "" ∧ Status d = "available".

End Accounts.

End Drivers.

(** ** Tokens and the authentication middleware (package jwt) *)

Module Jwt.

(** [type Claims struct], without the registered claims. *)
Record Claims : Type := mkClaims {
  UserID : string;
  Email : string;
  Role : string;
}.

(** What the middleware reads of a [*http.Request]: the Authorization header,
    empty when there is none, and the value under [claimsCtxKey] in the
    context of the request. *)
Record Request : Type := mkRequest {
  Authorization : string;
  ctx_claims : option Claims;
}.

(** A request as it comes from the network: nothing in its context. *)
Definition incoming (authorization : string) : Request :=
  mkRequest authorization None.

(** The body that [RequireAuth] sends, the JSON object with the one member
    error: unauthorized. *)
Definition quote : string := String (Ascii.ascii_of_nat 34) EmptyString.

Definition unauthorized : string :=
  "{" +:+ quote +:+ "error" +:+ quote +:+ ":" +:+ quote +:+ "unauthorized"
    +:+ quote +:+ "}".

Section Middleware.

(** [Validate]: the parsing and the signature check are the library's. *)
Variable Validate : string → result Claims.

(** What serving a request amounts to. *)
Context {A : Type}.

(** [http.Error(w, body, code)]. *)
Variable http_Error : string → Z → A.

(** [auth[7:]]. *)
Definition after_bearer (auth : string) : string :=
  String.substring 7 (String.length auth - 7) auth.

(** [OptionalAuth]. *)
Definition OptionalAuth (next : Request → A) (r : Request) : A :=
  let auth := Authorization r in
  if String.prefix "Bearer " auth
  then
    match Validate (after_bearer auth) with
    | Ok claims => next (mkRequest (Authorization r) (Some claims))
    | Fail _ => next r
    end
  else next r.

(** [GetClaims]. *)
Definition GetClaims (r : Request) : option Claims := ctx_claims r.

(** [RequireAuth]. *)
Definition RequireAuth (next : Request → A) (r : Request) : A :=
  match GetClaims r with
  | None => http_Error unauthorized 401
  | Some _ => next r
  end.

End Middleware.

End Jwt.

(** ** Trip endpoints (package trips, handler.go) *)

Module TripsHandler.
Import Trips.

(** What a trip endpoint sends: [writeJSON] of an error object, of the
    object with trip_id and status, or of a trip; [http.Error]; or nothing,
    when the handler panics on a nil pointer. *)
Inductive reply : Type :=
| writeJSON_error (code : Z) (msg : string)
| writeJSON_created (code : Z) (trip_id : string) (status : TripStatus)
| writeJSON_trip (code : Z) (t : Trip)
| http_Error (body : string) (code : Z)
| panic.

(** The endpoints of [Routes]; [id] is [chi.URLParam(r, "id")]. *)
Inductive route : Type :=
| PostRequest
| GetTrip (id : string)
| PatchAssign (id : string)
| PatchStart (id : string)
| PatchEnd (id : string).

Section Handlers.

Variables Sin Cos : float → float.
Variable Atan2 : float → float → float.
Variable FormatRFC3339 : Time → string.
Variable SubSeconds : Time → Time → Z.

(** [json.NewDecoder(r.Body).Decode] into a [TripRequest], into an
    [AssignRequest] (its one field), and into an [EndRequest]: the
    [DistanceKm] that the struct holds afterwards, and the error, which
    [End] drops. *)
Variable Decode_TripRequest : list Byte.byte → result TripRequest.
Variable Decode_AssignRequest : list Byte.byte → result string.
Variable Decode_EndRequest : list Byte.byte → option float * option error.

Variable Validate : string → result Jwt.Claims.

(** [Handler.Request]; [id] and [now] are what [uuid.New] and [time.Now]
    give to the service. *)
Definition Request (id : string) (now : Time) (r : Jwt.Request)
  (body : list Byte.byte) (s : Service) : reply * Service :=
  let claims := Jwt.GetClaims r in
  match Decode_TripRequest body with
  | Fail _ => (writeJSON_error 400 "invalid body", s)
  | Ok req =>
      match claims with
      | None => (panic, s)
      | Some c =>
          match Trips.Request FormatRFC3339 id now (Jwt.UserID c) req s with
          | (Fail err, s') => (writeJSON_error 500 (Drivers.Error err), s')
          | (Ok trip, s') => (writeJSON_created 201 (ID trip) (Status trip), s')
          end
      end
  end.

(** [Handler.GetByID]. *)
Definition GetByID (id : string) (s : Service) : reply * Service :=
  match Trips.GetByID id s with
  | (Fail err, s') => (writeJSON_error 404 (Drivers.Error err), s')
  | (Ok t, s') => (writeJSON_trip 200 t, s')
  end.

(** [Handler.Assign]. *)
Definition Assign (id : string) (body : list Byte.byte) (s : Service)
  : reply * Service :=
  match Decode_AssignRequest body with
  | Fail _ => (writeJSON_error 400 "invalid body", s)
  | Ok driverID =>
      match Trips.AssignDriver id driverID s with
      | (Fail err, s') => (writeJSON_error 400 (Drivers.Error err), s')
      | (Ok t, s') => (writeJSON_trip 200 t, s')
      end
  end.

(** [Handler.Start]. *)
Definition Start (id : string) (now : Time) (s : Service) : reply * Service :=
  match Trips.Start id now s with
  | (Fail err, s') => (writeJSON_error 400 (Drivers.Error err), s')
  | (Ok t, s') => (writeJSON_trip 200 t, s')
  end.

(** [Handler.End]. *)
Definition End (id : string) (now : Time) (body : list Byte.byte) (s : Service)
  : reply * Service :=
  let DistanceKm := (Decode_EndRequest body).1 in
  match Trips.End Sin Cos Atan2 FormatRFC3339 SubSeconds id DistanceKm now s with
  | (Fail err, s') => (writeJSON_error 400 (Drivers.Error err), s')
  | (Ok t, s') => (writeJSON_trip 200 t, s')
  end.

(** The handler that the router picks for an endpoint. *)
Definition handler (rt : route) (fresh : string) (now : Time)
  (body : list Byte.byte) (r : Jwt.Request) : Service → reply * Service :=
  match rt with
  | PostRequest => Request fresh now r body
  | GetTrip id => GetByID id
  | PatchAssign id => Assign id body
  | PatchStart id => Start id now
  | PatchEnd id => End id now body
  end.

(** [Routes]: every endpoint behind [jwt.RequireAuth]. *)
Definition Routes (rt : route) (fresh : string) (now : Time)
  (body : list Byte.byte) (r : Jwt.Request) : Service → reply * Service :=
  Jwt.RequireAuth (λ body code s, (http_Error body code, s))
    (handler rt fresh now body) r.

(** The router of [main] as far as the trip endpoints go:
    [r.Use(jwt.OptionalAuth)] in front of [r.Mount("/trips", ...)]. *)
Definition serve (rt : route) (fresh : string) (now : Time)
  (authorization : string) (body : list Byte.byte) : Service → reply * Service :=
  Jwt.OptionalAuth Validate (Routes rt fresh now body) (Jwt.incoming authorization).

End Handlers.

End TripsHandler.

(** ** Database start-up (package db) *)

Module Db.

(** What [Connect] returns: the pool, or the error that wraps the last error
    of [pgxpool.New], which is nil when only the ping failed. *)
Inductive connection : Type :=
| Connected
| FailedAfter30 (last : option error).

Section Connect.

(** [pgxpool.New(ctx, dsn)] and [pool.Ping(ctx)] of the i-th turn, counted
    from 0: their errors. *)
Variable New : nat → option error.
Variable Ping : nat → option error.

(** The loop of [Connect] from turn [i] on, with [togo] turns to go; [err] is
    the variable of that name. *)
Fixpoint Connect_loop (togo : nat) (i : nat) (err : option error) (st : startup)
  : connection * startup :=
  match togo with
  | O => (FailedAfter30 err, st)
  | S togo' =>
      let waiting :=
        Sleep 2 (Print "Waiting for PostgreSQL... (%d/30)" [PInt (Z.of_nat i + 1)] st) in
      match New i with
      | None =>
          match Ping i with
          | None => (Connected, Print "Connected to PostgreSQL" [] st)
          | Some _ => Connect_loop togo' (S i) None waiting
          end
      | Some e => Connect_loop togo' (S i) (Some e) waiting
      end
  end.

(** [Connect]: [for i := 0; i < 30; i++]. *)
Definition Connect : connection * startup :=
  Connect_loop 30 0 None (mkStartup 0 []).

End Connect.

(** An [fs.DirEntry]: its name, and whether it is a directory. *)
Record DirEntry : Type := mkDirEntry { Name : string; IsDir : bool }.

(** The database as [RunMigrations] sees it: whether the pool answers, the
    rows of schema_migrations in the order of their INSERT ([None] while the
    table does not exist), and the migration files executed, oldest first. *)
Record DB : Type := mkDB {
  reachable : bool;
  schema_migrations : option (list string);
  executed : list string;
}.

(** The errors of [RunMigrations], each wrapping its cause. *)
Inductive migration_error : Type :=
| create_schema_migrations (err : error)
| read_migrations_dir (err : error)
| read_file (file : string) (err : error)
| exec_file (file : string) (err : error)
| record_file (file : string) (err : error).

Definition unreachable : error := driverError "postgres".

(** [strings.HasSuffix]. *)
Definition HasSuffix (s suffix : string) : bool :=
  (String.length suffix <=? String.length s)%nat &&
  String.eqb
    (String.substring (String.length s - String.length suffix)
       (String.length suffix) s)
    suffix.

Section RunMigrations.

(** [fs.ReadDir(migrationFS, ".")] and [fs.ReadFile(migrationFS, file)]. *)
Variable ReadDir : result (list DirEntry).
Variable ReadFile : string → result string.

(** [sort.Strings], as a function. *)
Variable sort_Strings : list string → list string.

(** Whether the database, as it is, rejects the statements of a migration
    file; a file that is rejected changes nothing. *)
Variable rejects : string → DB → option error.

(** [CREATE TABLE IF NOT EXISTS schema_migrations (...)]. *)
Definition Exec_create (d : DB) : option error * DB :=
  if reachable d
  then (None, mkDB (reachable d) (Some (default [] (schema_migrations d))) (executed d))
  else (Some unreachable, d).

(** [SELECT COUNT( * ) FROM schema_migrations WHERE version=$1] scanned into
    [count], the error dropped: on an error [count] stays 0. *)
Definition QueryRow_count (file : string) (d : DB) : nat :=
  if reachable d
  then
    match schema_migrations d with
    | Some versions => length (List.filter (String.eqb file) versions)
    | None => O
    end
  else O.

(** [d.Pool.Exec(ctx, string(content))]. *)
Definition Exec_content (content : string) (d : DB) : option error * DB :=
  if reachable d
  then
    match rejects content d with
    | Some err => (Some err, d)
    | None =>
        (None, mkDB (reachable d) (schema_migrations d) (executed d ++ [content]))
    end
  else (Some unreachable, d).

(** [INSERT INTO schema_migrations (version) VALUES ($1)]; [version] is the
    primary key. *)
Definition Exec_record (file : string) (d : DB) : option error * DB :=
  if reachable d
  then
    match schema_migrations d with
    | Some versions =>
        if existsb (String.eqb file) versions
        then (Some (driverError "postgres: duplicate key"), d)
        else (None, mkDB (reachable d) (Some (versions ++ [file])) (executed d))
    | None => (Some (driverError "postgres: undefined table"), d)
    end
  else (Some unreachable, d).

(** The loop over the sorted file names. *)
Fixpoint apply_files (files : list string) (d : DB) (log : list log_line)
  : option migration_error * DB * list log_line :=
  match files with
  | [] => (None, d, log)
  | file :: rest =>
      if (0 <? QueryRow_count file d)%nat
      then apply_files rest d
             (log ++ [Printf "Migration %s — already applied" [LStr file]])
      else
        match ReadFile file with
        | Fail err => (Some (read_file file err), d, log)
        | Ok content =>
            match Exec_content content d with
            | (Some err, d1) => (Some (exec_file file err), d1, log)
            | (None, d1) =>
                match Exec_record file d1 with
                | (Some err, d2) => (Some (record_file file err), d2, log)
                | (None, d2) =>
                    apply_files rest d2
                      (log ++ [Printf "Applied migration: %s" [LStr file]])
                end
            end
        end
  end.

(** The names that the first loop collects. *)
Definition sqlFiles (entries : list DirEntry) : list string :=
  Name <$> List.filter (λ e, negb (IsDir e) && HasSuffix (Name e) ".sql") entries.

(** [RunMigrations]. *)
Definition RunMigrations (d : DB) : option migration_error * DB * list log_line :=
  match Exec_create d with
  | (Some err, d1) => (Some (create_schema_migrations err), d1, [])
  | (None, d1) =>
      match ReadDir with
      | Fail err => (Some (read_migrations_dir err), d1, [])
      | Ok entries => apply_files (sort_Strings (sqlFiles entries)) d1 []
      end
  end.

End RunMigrations.

(** The files of a list that are not among the recorded versions. *)
Definition pending (versions files : list string) : list string :=
  List.filter (λ f, negb (existsb (String.eqb f) versions)) files.

End Db.

(** ** Rider accounts (package users, service.go) *)

Module Users.

(** [type User struct]; [PasswordHash] is the column password_hash, which the
    service scans into a variable of its own. *)
Record User : Type := mkUser {
  ID : string;
  Name : string;
  Email : string;
  Phone : string;
  PasswordHash : string;
  Rating : float;
  CreatedAt : option Trips.Time;
}.

Record RegisterRequest : Type := mkRegisterRequest {
  req_Name : string;
  req_Email : string;
  req_Phone : string;
  req_Password : string;
}.

Record LoginRequest : Type := mkLoginRequest {
  login_Email : string;
  login_Password : string;
}.

Record AuthResponse : Type := mkAuthResponse {
  Token : string;
  user : User;
}.

(** The pool and the table users behind it, oldest row first: id is the
    primary key, email and phone are UNIQUE. *)
Record Pool : Type := mkPool {
  reachable : bool;
  users : list User;
}.

Definition unreachable : error := driverError "postgres".

(** [SELECT EXISTS(SELECT 1 FROM users WHERE <column>=$1)] scanned into
    [exists], the error dropped: on an error [exists] keeps its value, which
    is false at both calls. *)
Definition QueryRow_exists (column : User → string) (value : string) (p : Pool) : bool :=
  reachable p && existsb (λ u, String.eqb (column u) value) (users p).

(** [INSERT INTO users (id,name,email,phone,password_hash,rating) VALUES
    ($1,$2,$3,$4,$5,5.0)]; created_at takes its default. *)
Definition Exec_insert (now : Trips.Time) (id name email phone hash : string) (p : Pool)
  : option error * Pool :=
  if reachable p
  then
    if existsb (λ u, String.eqb (ID u) id || String.eqb (Email u) email
                     || String.eqb (Phone u) phone) (users p)
    then (Some (driverError "postgres: duplicate key"), p)
    else (None,
          mkPool (reachable p)
            (users p ++ [mkUser id name email phone hash 5 (Some now)]))
  else (Some unreachable, p).

(** [SELECT ... FROM users WHERE email=$1], scanned. *)
Definition QueryRow_by_email (email : string) (p : Pool) : result User :=
  if reachable p
  then
    match List.find (λ u, String.eqb (Email u) email) (users p) with
    | Some u => Ok u
    | None => Fail (driverError "postgres: no rows in result set")
    end
  else Fail unreachable.

(** [SELECT ... FROM users WHERE id=$1], scanned. *)
Definition QueryRow_by_id (id : string) (p : Pool) : result User :=
  if reachable p
  then
    match List.find (λ u, String.eqb (ID u) id) (users p) with
    | Some u => Ok u
    | None => Fail (driverError "postgres: no rows in result set")
    end
  else Fail unreachable.

Section Service.

(** [bcrypt.GenerateFromPassword] at the default cost, and whether
    [bcrypt.CompareHashAndPassword] returns nil. *)
Variable GenerateFromPassword : string → result string.
Variable CompareHashAndPassword : string → string → bool.

(** [jwt.Generate]; the first argument is [time.Now()], which goes into the
    claims. *)
Variable Generate : Trips.Time → string → string → string → result string.

(** [Service.Register]; [id] is [uuid.New().String()], [now] the time of the
    call. *)
Definition Register (id : string) (now : Trips.Time) (req : RegisterRequest) (p : Pool)
  : result AuthResponse * Pool :=
  if QueryRow_exists Email (req_Email req) p
  then (Fail (errorString "email already exists"), p)
  else if QueryRow_exists Phone (req_Phone req) p
  then (Fail (errorString "phone already exists"), p)
  else
    match GenerateFromPassword (req_Password req) with
    | Fail err => (Fail err, p)
    | Ok hash =>
        match Exec_insert now id (req_Name req) (req_Email req) (req_Phone req) hash p with
        | (Some err, p') => (Fail err, p')
        | (None, p') =>
            match Generate now id (req_Email req) "rider" with
            | Fail err => (Fail err, p')
            | Ok token =>
                (Ok (mkAuthResponse token
                       (mkUser id (req_Name req) (req_Email req) (req_Phone req) "" 5
                          None)), p')
            end
        end
    end.

(** [Service.Login]. *)
Definition Login (now : Trips.Time) (req : LoginRequest) (p : Pool)
  : result AuthResponse :=
  match QueryRow_by_email (login_Email req) p with
  | Fail _ => Fail (errorString "invalid credentials")
  | Ok row =>
      if negb (CompareHashAndPassword (PasswordHash row) (login_Password req))
      then Fail (errorString "invalid credentials")
      else
        match Generate now (ID row) (Email row) "rider" with
        | Fail err => Fail err
        | Ok token =>
            Ok (mkAuthResponse token
                  (mkUser (ID row) (Name row) (Email row) (Phone row) "" (Rating row)
                     (CreatedAt row)))
        end
  end.

(** [Service.GetByID]. *)
Definition GetByID (id : string) (p : Pool) : result User :=
  match QueryRow_by_id id p with
  | Fail _ => Fail (errorString "user not found")
  | Ok row =>
      Ok (mkUser (ID row) (Name row) (Email row) (Phone row) "" (Rating row)
            (CreatedAt row))
  end.

End Service.

(** No two rows share an id, an email or a phone. *)
Definition unique (p : Pool) : Prop :=
  NoDup (ID <$> users p) ∧ NoDup (Email <$> users p) ∧ NoDup (Phone <$> users p).

End Users.

(** ** Sample data *)

Module Samples.

(** A trip that has been started, alone in its ledger. *)
Definition trip_started : Trips.Trip :=
  Trips.mkTrip "t1" "rider-1" (Some "driver-1") 12.5 77.5 12.25 77.75 None
    Trips.StatusStarted (Some 100) (Some 200) None 100.

Definition ledger_started : Trips.Service :=
  Trips.mkService (Trips.mkPool true {[ "t1" := trip_started ]}) [] [].

(** A trip that has just been requested, alone in its ledger. *)
Definition trip_requested : Trips.Trip :=
  Trips.mkTrip "t1" "rider-1" None 12.5 77.5 12.25 77.75 None
    Trips.StatusRequested (Some 100) None None 100.

Definition ledger_requested : Trips.Service :=
  Trips.mkService (Trips.mkPool true {[ "t1" := trip_requested ]}) [] [].

(** A trip that has been completed, alone in its ledger. *)
Definition trip_completed : Trips.Trip :=
  Trips.mkTrip "t1" "rider-1" (Some "driver-1") 12.5 77.5 12.25 77.75 (Some 170%float)
    Trips.StatusCompleted (Some 100) (Some 200) (Some 300) 100.

Definition ledger_completed : Trips.Service :=
  Trips.mkService (Trips.mkPool true {[ "t1" := trip_completed ]}) [] [].

Definition ledger_empty : Trips.Service :=
  Trips.mkService (Trips.mkPool true ∅) [] [].

Definition request_1 : Trips.TripRequest :=
  Trips.mkTripRequest 12.5 77.5 12.25 77.75.

(** A reader that hands out a fixed list of messages one by one, and reports a
    cancelled context once the list is exhausted. *)
Record ListReader : Type := mkListReader {
  pending : list Kafka.Message;
  consumed : nat;
}.

Definition ListReader_ReadMessage (r : ListReader) : Kafka.read * ListReader :=
  match pending r with
  | msg :: rest => (Kafka.Delivered msg, mkListReader rest (S (consumed r)))
  | [] => (Kafka.ReadError (driverError "context canceled") true, r)
  end.

Definition ride_1 : Events.RideRequestedEvent :=
  Events.mkRideRequested "t1" "rider-1" (Events.mkLatLng 12.5 77.5)
    (Events.mkLatLng 12.25 77.75) "2026-01-01T00:00:00Z".

Definition msg_1 : Kafka.Message :=
  Kafka.mkMessage Kafka.TopicRideRequested "t1" [Byte.x7b; Byte.x7d].

Definition msg_2 : Kafka.Message :=
  Kafka.mkMessage Kafka.TopicRideRequested "t2" [Byte.x7b; Byte.x7d].

(** Stand-ins for encoding/json: a decoder that accepts everything as
    [ride_1], one that accepts nothing, and an encoder. *)
Definition decode_ride_1 (data : list Byte.byte)
  : result Events.RideRequestedEvent := Ok ride_1.

Definition decode_nothing (data : list Byte.byte)
  : result Events.RideRequestedEvent :=
  Fail (syntaxError "unexpected end of JSON input").

Definition encode_empty (ev : Events.event) : result (list Byte.byte) := Ok [].

(** A decoder that reads every payload as the assignment of driver-1 to t1. *)
Definition decode_assignment (data : list Byte.byte)
  : result Events.DriverAssignedEvent :=
  Ok (Events.mkDriverAssigned "t1" "driver-1").

(** A stand-in for the distance the store computes. *)
Definition taxicab (lng1 lat1 lng2 lat2 : float) : float :=
  (abs (lng1 - lng2) + abs (lat1 - lat2))%float.

(** A matcher whose store cannot be reached, and one whose store answers and
    holds no driver. *)
Definition matcher_store_down : Matching.Matcher :=
  Matching.mkMatcher (Kafka.mkClient true []) (Redis.mkClient false ∅) [].

Definition matcher_no_driver : Matching.Matcher :=
  Matching.mkMatcher (Kafka.mkClient true []) (Redis.mkClient true ∅) [].

(** The body of a location update, decoded. *)
Definition decode_location (loc : Drivers.LocationUpdate) (data : list Byte.byte)
  : result Drivers.LocationUpdate := Ok loc.

Definition registry_empty : Redis.Client := Redis.mkClient true ∅.

(** A store with three drivers on the meridian of the sample pickup: at the
    pickup, a quarter of a degree north of it, and ten degrees north of it. *)
Definition registry_three : Redis.Client :=
  Redis.mkClient true
    {[ "far" := (77.5, 22.5); "near" := (77.5, 12.75);
       "nearest" := (77.5, 12.5) ]}%float.

(** A matcher whose store holds one driver, at the pickup of [ride_1]. *)
Definition matcher_one_driver : Matching.Matcher :=
  Matching.mkMatcher (Kafka.mkClient true [])
    (Redis.mkClient true {[ "driver-1" := (77.5%float, 12.5%float) ]}) [].

(** A token check that accepts one token, of rider-1. *)
Definition validate_token_1 (raw : string) : result Jwt.Claims :=
  if String.eqb raw "token-1"
  then Ok (Jwt.mkClaims "rider-1" "rider-1@example.com" "rider")
  else Fail (errorString "invalid token").

(** Decoders of request bodies: the sample request, the driver driver-1, and
    an empty body for the end of a trip. *)
Definition decode_request_1 (body : list Byte.byte) : result Trips.TripRequest :=
  Ok request_1.

Definition decode_driver_1 (body : list Byte.byte) : result string := Ok "driver-1".

Definition decode_no_distance (body : list Byte.byte) : option float * option error :=
  (None, Some (syntaxError "EOF")).

(** The migrations directory: three SQL files and the Go file that embeds
    them; a reader that gives each file a one-line content; a database on
    which the first file has been applied; a sort for names that are in order
    already; and a database that rejects nothing. *)
Definition migration_entries : list Db.DirEntry :=
  [Db.mkDirEntry "V1_create_users.sql" false;
   Db.mkDirEntry "V2_create_drivers.sql" false;
   Db.mkDirEntry "V3_create_trips.sql" false;
   Db.mkDirEntry "embed.go" false].

Definition read_migration (file : string) : result string := Ok ("-- " +:+ file).

Definition db_after_V1 : Db.DB :=
  Db.mkDB true (Some ["V1_create_users.sql"]) ["-- V1_create_users.sql"].

Definition sort_in_order (l : list string) : list string := l.

Definition rejects_nothing (content : string) (d : Db.DB) : option error := None.

(** Stand-ins for bcrypt and for the signing of a token, and a rider. *)
Definition hash_stub (password : string) : result string := Ok ("hash:" +:+ password).

Definition compare_stub (hash password : string) : bool :=
  String.eqb hash ("hash:" +:+ password).

Definition sign_stub (now : Trips.Time) (userID email role : string) : result string :=
  Ok (userID +:+ "." +:+ role).

Definition rider_1 : Users.RegisterRequest :=
  Users.mkRegisterRequest "Asha" "asha@example.com" "+919876543210" "secret1".

(** A formatter that prints the request time of [ride_1]. *)
Definition format_2026 (t : Trips.Time) : string := "2026-01-01T00:00:00Z".

(** Stand-ins for package math and package time: an odd function that fixes
    zero, a constant within [-1, 1], a function that is zero at (0, 1); a
    formatter and a difference in whole seconds. *)
Definition sin_stub (x : float) : float := x.
Definition cos_stub (x : float) : float := 1%float.
Definition atan2_stub (y x : float) : float := y.

(** A stand-in for [math.Cos] with its special cases: NaN at the infinities
    and at NaN, within [-1, 1] elsewhere. *)
Definition cos_special (x : float) : float :=
  if is_finite x then 1%float else nan.

(** The [float64]s nearest to 1.234 and to 64.81, and an instant read back
    as it was written. *)
Definition km_1_234 : float := 0x1.3be76c8b43958p+0%float.
Definition fare_64_81 : float := 0x1.033d70a3d70a4p+6%float.
Definition timestamptz_stub (t : Trips.Time) : Trips.Time := t.

(** The [float64] nearest to 1e308: a finite latitude whose radians
    overflow. *)
Definition lat_1e308 : float := 0x1.1ccf385ebc8ap+1023%float.
Definition format_stub (t : Trips.Time) : string := "".
Definition seconds_stub (t2 t1 : Trips.Time) : Z := t2 - t1.

End Samples.

(** * Part II: the facts *)

(** ** binary64 arithmetic *)

Module F64.

Local Open Scope float_scope.

(** Comparing the other way round gives the opposite answer. *)
Lemma SFcompare_antisym a b :
  SFcompare b a = CompOpp <$> SFcompare a b.
Proof.
  destruct a as [sa|sa| |sa ma ea], b as [sb|sb| |sb mb eb]; simpl;
    try reflexivity; try (by destruct sa); try (by destruct sb);
    try (by destruct sa, sb).
  destruct sa, sb; simpl; try reflexivity; f_equal.
  all: rewrite (Z.compare_antisym ea eb).
  all: destruct (ea ?= eb)%Z; simpl; try reflexivity.
  all: by rewrite (Pos.compare_cont_antisym ma mb Eq).
Qed.

Lemma leb_total_of_comparable x y :
  SFcompare (Prim2SF x) (Prim2SF y) ≠ None → (x <=? y) = true ∨ (y <=? x) = true.
Proof.
  rewrite !leb_spec. unfold SFleb. rewrite (SFcompare_antisym (Prim2SF x) (Prim2SF y)).
  destruct (SFcompare (Prim2SF x) (Prim2SF y)) as [[]|]; simpl; intros H; auto.
Qed.

(** A float that is [<=] some bound is not a NaN. *)
Lemma leb_true_not_nan x r : (x <=? r) = true → Prim2SF x ≠ S754_nan.
Proof.
  rewrite leb_spec. unfold SFleb. intros H Hx. rewrite Hx in H. done.
Qed.

Lemma SFcompare_not_nan a b :
  a ≠ S754_nan → b ≠ S754_nan → SFcompare a b ≠ None.
Proof. by destruct a, b. Qed.

(** Floats below a common bound are comparable with each other. *)
Lemma leb_total_below x y r r' :
  (x <=? r) = true → (y <=? r') = true → (x <=? y) = true ∨ (y <=? x) = true.
Proof.
  intros Hx Hy. apply leb_total_of_comparable, SFcompare_not_nan;
    by eapply leb_true_not_nan.
Qed.

Lemma ltb_leb_false x y : (x <? y) = true → (y <=? x) = false.
Proof.
  rewrite ltb_spec, leb_spec. unfold SFltb, SFleb.
  rewrite (SFcompare_antisym (Prim2SF x) (Prim2SF y)).
  by destruct (SFcompare (Prim2SF x) (Prim2SF y)) as [[]|].
Qed.

Lemma SFmul_comm a b : SF64mul a b = SF64mul b a.
Proof.
  unfold SF64mul.
  destruct a as [sa|sa| |sa ma ea], b as [sb|sb| |sb mb eb]; simpl;
    try reflexivity; rewrite ?(xorb_comm sa sb); try reflexivity.
  by rewrite (Pos.mul_comm ma mb), (Z.add_comm ea eb).
Qed.

Lemma mul_comm x y : x * y = y * x.
Proof. apply Prim2SF_inj. rewrite !mul_spec. apply SFmul_comm. Qed.

(** *** Signs *)

Lemma binary_round_aux_negb s m e l :
  binary_round_aux prec emax (negb s) m e l = SFopp (binary_round_aux prec emax s m e l).
Proof.
  unfold binary_round_aux.
  destruct (shr_fexp prec emax m e l) as [mrs' e'].
  destruct (shr_fexp prec emax _ e' loc_Exact) as [mrs'' e''].
  destruct (shr_m mrs''); simpl; try reflexivity.
  by destruct (e'' <=? emax - prec)%Z.
Qed.

Lemma binary_round_negb s m e :
  binary_round prec emax (negb s) m e = SFopp (binary_round prec emax s m e).
Proof.
  unfold binary_round. destruct (shl_align m e _) as [mz ez].
  apply binary_round_aux_negb.
Qed.

Lemma SFopp_involutive a : SFopp (SFopp a) = a.
Proof. destruct a; simpl; by rewrite ?negb_involutive. Qed.

Lemma SFmul_opp_l a b : SF64mul (SFopp a) b = SFopp (SF64mul a b).
Proof.
  unfold SF64mul.
  destruct a as [sa|sa| |sa ma ea], b as [sb|sb| |sb mb eb]; simpl;
    try reflexivity; try (by destruct sa, sb).
  rewrite <- binary_round_aux_negb. by destruct sa, sb.
Qed.

Lemma SFdiv_opp_l a b : SF64div (SFopp a) b = SFopp (SF64div a b).
Proof.
  unfold SF64div.
  destruct a as [sa|sa| |sa ma ea], b as [sb|sb| |sb mb eb]; simpl;
    try reflexivity; try (by destruct sa, sb).
  destruct (SFdiv_core_binary prec emax (Z.pos ma) ea (Z.pos mb) eb) as [[mz ez] lz].
  rewrite <- binary_round_aux_negb. by destruct sa, sb.
Qed.

(** Swapping the operands of a subtraction negates the result, except that
    a zero difference is [+0] both ways. *)
Lemma SFsub_swap a b :
  SF64sub b a = SFopp (SF64sub a b) ∨ SF64sub b a = SF64sub a b.
Proof.
  unfold SF64sub.
  destruct a as [sa|sa| |sa ma ea], b as [sb|sb| |sb mb eb]; simpl;
    try (by left); try (by right);
    try (by destruct sa, sb; (by left) || (by right)).
  rewrite (Z.min_comm eb ea).
  set (za := cond_Zopp sa (Z.pos (fst (shl_align ma ea (Z.min ea eb))))).
  set (zb := cond_Zopp sb (Z.pos (fst (shl_align mb eb (Z.min ea eb))))).
  replace (zb - za)%Z with (- (za - zb))%Z by lia.
  destruct (za - zb)%Z as [|p|p]; simpl.
  - by right.
  - left. apply (binary_round_negb false).
  - left. apply (binary_round_negb true).
Qed.

Lemma opp_involutive x : - - x = x.
Proof. apply Prim2SF_inj. rewrite !opp_spec. apply SFopp_involutive. Qed.

Lemma mul_opp_l x y : (- x) * y = - (x * y).
Proof. apply Prim2SF_inj. rewrite opp_spec, !mul_spec, opp_spec. apply SFmul_opp_l. Qed.

Lemma div_opp_l x y : (- x) / y = - (x / y).
Proof. apply Prim2SF_inj. rewrite opp_spec, !div_spec, opp_spec. apply SFdiv_opp_l. Qed.

Lemma sub_swap x y : y - x = - (x - y) ∨ y - x = x - y.
Proof.
  destruct (SFsub_swap (Prim2SF x) (Prim2SF y)) as [H|H]; [left|right];
    apply Prim2SF_inj; rewrite ?opp_spec, !sub_spec; exact H.
Qed.

Lemma mul_opp_opp x : (- x) * (- x) = x * x.
Proof.
  rewrite mul_opp_l, (mul_comm x (- x)), mul_opp_l. apply opp_involutive.
Qed.

(** *** Finite numbers *)

Lemma is_finite_SF x :
  is_finite x = true →
  (∃ s, Prim2SF x = S754_zero s) ∨ (∃ s m e, Prim2SF x = S754_finite s m e).
Proof.
  unfold is_finite, is_nan, is_infinity.
  rewrite !FloatAxioms.eqb_spec, abs_spec.
  change (Prim2SF infinity) with (S754_infinity false).
  destruct (Prim2SF x) as [s|s| |s m e]; simpl; eauto; try done.
  by destruct s.
Qed.

Lemma SFsub_diag a :
  (∃ s, a = S754_zero s) ∨ (∃ s m e, a = S754_finite s m e) →
  SF64sub a a = S754_zero false.
Proof.
  intros [[s ->]|(s & m & e & ->)]; unfold SF64sub; simpl.
  - by destruct s.
  - by rewrite Z.sub_diag.
Qed.

Lemma sub_diag x : is_finite x = true → x - x = 0.
Proof.
  intros H. apply Prim2SF_inj. rewrite sub_spec.
  change (Prim2SF 0) with (S754_zero false). by apply SFsub_diag, is_finite_SF.
Qed.

(** *** Rounding without overflow *)

Local Open Scope Z_scope.

Lemma digits2_pos_size p : digits2_pos p = Pos.size p.
Proof. induction p; simpl; by rewrite ?IHp. Qed.

Lemma Zdigits2_log2 p : Zdigits2 (Z.pos p) = Z.log2 (Z.pos p) + 1.
Proof. simpl. rewrite digits2_pos_size. destruct p; simpl; lia. Qed.

Lemma Zdigits2_nonneg z : 0 ≤ Zdigits2 z.
Proof. destruct z; simpl; lia. Qed.

Lemma Zdigits2_mono a b : 0 ≤ a ≤ b → Zdigits2 a ≤ Zdigits2 b.
Proof.
  intros [Ha Hab]. destruct a as [|pa|pa]; [apply Zdigits2_nonneg| |lia].
  destruct b as [|pb|pb]; [lia| |lia].
  rewrite !Zdigits2_log2. apply Z.add_le_mono_r, Z.log2_le_mono. lia.
Qed.

Lemma shr_1_bounds mrs :
  0 ≤ shr_m mrs → 0 ≤ shr_m (shr_1 mrs) ≤ shr_m mrs.
Proof.
  destruct mrs as [m r s]. simpl. intros Hm.
  destruct m as [|[p|p|]|[p|p|]]; simpl; lia.
Qed.

Lemma iter_shr_1_bounds p mrs :
  0 ≤ shr_m mrs → 0 ≤ shr_m (SpecFloat.iter_pos shr_1 p mrs) ≤ shr_m mrs.
Proof.
  revert mrs. induction p as [p IH|p IH|]; intros mrs Hm; simpl.
  - pose proof (shr_1_bounds mrs Hm) as H1.
    pose proof (IH (shr_1 mrs) ltac:(lia)) as H2.
    pose proof (IH (SpecFloat.iter_pos shr_1 p (shr_1 mrs)) ltac:(lia)) as H3. lia.
  - pose proof (IH mrs Hm) as H2.
    pose proof (IH (SpecFloat.iter_pos shr_1 p mrs) ltac:(lia)) as H3. lia.
  - by apply shr_1_bounds.
Qed.

Lemma shr_m_of_loc m l : shr_m (shr_record_of_loc m l) = m.
Proof. by destruct l as [|[]]. Qed.

(** Shifting right to the target exponent: the mantissa shrinks, the exponent
    is the larger of the old one and the target. *)
Lemma shr_fexp_bounds m e l :
  0 ≤ m →
  0 ≤ shr_m (shr_fexp prec emax m e l).1 ≤ m ∧
  (shr_fexp prec emax m e l).2 = Z.max e (fexp prec emax (Zdigits2 m + e)).
Proof.
  intros Hm. unfold shr_fexp, shr.
  destruct (fexp prec emax (Zdigits2 m + e) - e) as [|p|p] eqn:Hn; simpl.
  - rewrite shr_m_of_loc. lia.
  - pose proof (iter_shr_1_bounds p (shr_record_of_loc m l)) as H.
    rewrite shr_m_of_loc in H. specialize (H Hm). lia.
  - rewrite shr_m_of_loc. lia.
Qed.

Lemma round_nearest_even_bounds m l :
  m ≤ round_nearest_even m l ≤ m + 1.
Proof.
  unfold round_nearest_even. destruct l as [|[]]; try lia.
  destruct (Z.even m); lia.
Qed.

(** Rounding a non-negative mantissa of moderate size at a non-positive
    exponent gives a zero or a finite number, never an infinity. *)
Lemma binary_round_aux_small s m e l :
  0 ≤ m → Zdigits2 m ≤ 108 → e ≤ 0 →
  binary_round_aux prec emax s m e l = S754_zero s ∨
  ∃ m' e', binary_round_aux prec emax s m e l = S754_finite s m' e'.
Proof.
  intros Hm Hd He. unfold binary_round_aux.
  pose proof (shr_fexp_bounds m e l Hm) as [Hm1 He1].
  destruct (shr_fexp prec emax m e l) as [mrs' e']. simpl in Hm1, He1.
  set (m1 := round_nearest_even (shr_m mrs') (loc_of_shr_record mrs')).
  pose proof (round_nearest_even_bounds (shr_m mrs') (loc_of_shr_record mrs')) as Hr.
  fold m1 in Hr.
  assert (Hm1' : 0 ≤ m1) by lia.
  pose proof (shr_fexp_bounds m1 e' loc_Exact Hm1') as [Hm2 He2].
  destruct (shr_fexp prec emax m1 e' loc_Exact) as [mrs'' e'']. simpl in Hm2, He2.
  assert (Hd1 : Zdigits2 m1 ≤ 109).
  { destruct (Z.eq_dec m 0) as [->|Hne].
    - assert (m1 = 0 ∨ m1 = 1) as [->| ->] by lia; simpl; lia.
    - pose proof (Zdigits2_mono m1 (2 * m) ltac:(lia)) as Hmono.
      destruct m as [|pm|pm]; [lia| |lia].
      change (2 * Z.pos pm) with (Z.pos pm~0) in Hmono.
      simpl in Hmono, Hd. simpl. lia. }
  assert (He'' : e'' ≤ 971).
  { subst e'' e'. unfold fexp, emin, prec, emax in *. lia. }
  destruct (shr_m mrs'') as [|p|p]; [by left| |lia].
  right. exists p, e''. unfold emax, prec.
  destruct (Z.leb_spec e'' (1024 - 53)); [done|lia].
Qed.

(** The square of a float of magnitude at most one is a zero or a finite
    number, and it is not negative. *)
Lemma SFmul_square_small s m e :
  valid_binary (S754_finite s m e) = true →
  SFleb (S754_finite false m e) (Prim2SF 1) = true →
  SF64mul (S754_finite s m e) (S754_finite s m e) = S754_zero false ∨
  ∃ m' e', SF64mul (S754_finite s m e) (S754_finite s m e) = S754_finite false m' e'.
Proof.
  intros Hvalid Hle. unfold SF64mul, SFmul. rewrite xorb_nilpotent.
  assert (Hdig : Z.pos (digits2_pos m) ≤ 53).
  { simpl in Hvalid. unfold bounded, canonical_mantissa in Hvalid.
    apply andb_prop in Hvalid as [Hc _]. apply Z.eqb_eq in Hc.
    unfold fexp, emin, prec, emax in Hc. lia. }
  assert (He : e ≤ -52).
  { change (Prim2SF 1) with (S754_finite false 4503599627370496 (-52)) in Hle.
    unfold SFleb, SFcompare in Hle.
    destruct (Z.compare_spec e (-52)); [lia|lia|done]. }
  apply binary_round_aux_small; [lia| |lia].
  rewrite Zdigits2_log2.
  pose proof (Z.log2_mul_above (Z.pos m) (Z.pos m) ltac:(lia) ltac:(lia)) as Hlog.
  change (Z.pos m * Z.pos m) with (Z.pos (m * m)) in Hlog.
  pose proof (Zdigits2_log2 m) as Hd.
  change (Zdigits2 (Z.pos m)) with (Z.pos (digits2_pos m)) in Hd. lia.
Qed.

Local Close Scope Z_scope.

Lemma square_times_zero c : (abs c <=? 1) = true → c * c * 0 = 0.
Proof.
  intros Hle. apply Prim2SF_inj. rewrite !mul_spec.
  change (Prim2SF 0) with (S754_zero false).
  rewrite leb_spec, abs_spec in Hle. pose proof (Prim2SF_valid c) as Hvalid.
  destruct (Prim2SF c) as [s|s| |s m e]; simpl in Hle.
  - by destruct s.
  - done.
  - done.
  - destruct (SFmul_square_small s m e Hvalid Hle) as [->|(m' & e' & ->)]; done.
Qed.

(** *** The order is transitive *)

Lemma SFleb_trans a b c : SFleb a b = true → SFleb b c = true → SFleb a c = true.
Proof.
  unfold SFleb.
  destruct a as [sa|sa| |sa ma ea], b as [sb|sb| |sb mb eb], c as [sc|sc| |sc mc ec];
    simpl; try done;
    repeat match goal with s : bool |- _ => destruct s end; simpl; try done.
  all: change (PosDef.Pos.compare_cont Eq) with Pos.compare.
  all: destruct (Z.compare_spec ea eb); try done;
       destruct (Z.compare_spec eb ec); try done;
       destruct (Z.compare_spec ea ec); try done; try lia; subst.
  all: destruct (Pos.compare_spec ma mb); try done;
       destruct (Pos.compare_spec mb mc); try done;
       destruct (Pos.compare_spec ma mc); try done; try lia.
Qed.

Lemma leb_trans x y z : (x <=? y) = true → (y <=? z) = true → (x <=? z) = true.
Proof. rewrite !leb_spec. apply SFleb_trans. Qed.

(** *** Finite numbers, the other way round *)

Lemma SFcompare_refl a : a ≠ S754_nan → SFcompare a a = Some Eq.
Proof.
  destruct a as [s|s| |s m e]; simpl; intros H; try done.
  - by destruct s.
  - rewrite Z.compare_refl, Pos.compare_cont_refl. by destruct s.
Qed.

Lemma is_finite_of_SF x :
  (∃ s, Prim2SF x = S754_zero s) ∨ (∃ s m e, Prim2SF x = S754_finite s m e) →
  is_finite x = true.
Proof.
  intros H. unfold is_finite, is_nan, is_infinity.
  rewrite !FloatAxioms.eqb_spec, abs_spec.
  change (Prim2SF infinity) with (S754_infinity false).
  unfold SFeqb. rewrite SFcompare_refl.
  - destruct H as [[s ->]|(s & m & e & ->)]; done.
  - destruct H as [[s ->]|(s & m & e & ->)]; done.
Qed.

Lemma not_finite_SF x :
  is_finite x = false →
  Prim2SF x = S754_nan ∨ ∃ s, Prim2SF x = S754_infinity s.
Proof.
  intros H. destruct (Prim2SF x) as [s|s| |s m e] eqn:Hx; eauto.
  - rewrite is_finite_of_SF in H; [done|]. left. by exists s.
  - rewrite is_finite_of_SF in H; [done|]. right. by exists s, m, e.
Qed.

Local Open Scope Z_scope.

(** Rounding a mantissa of moderate size at a moderate exponent gives a zero
    or a finite number whose exponent is not much larger. *)
Lemma binary_round_aux_moderate s m e l b :
  0 ≤ m → Zdigits2 m ≤ 108 → e ≤ b → -1074 ≤ b ≤ 800 →
  binary_round_aux prec emax s m e l = S754_zero s ∨
  ∃ m' e', binary_round_aux prec emax s m e l = S754_finite s m' e' ∧ e' ≤ b + 111.
Proof.
  intros Hm Hd He Hb. unfold binary_round_aux.
  pose proof (shr_fexp_bounds m e l Hm) as [Hm1 He1].
  destruct (shr_fexp prec emax m e l) as [mrs' e']. simpl in Hm1, He1.
  set (m1 := round_nearest_even (shr_m mrs') (loc_of_shr_record mrs')).
  pose proof (round_nearest_even_bounds (shr_m mrs') (loc_of_shr_record mrs')) as Hr.
  fold m1 in Hr.
  assert (Hm1' : 0 ≤ m1) by lia.
  pose proof (shr_fexp_bounds m1 e' loc_Exact Hm1') as [Hm2 He2].
  destruct (shr_fexp prec emax m1 e' loc_Exact) as [mrs'' e'']. simpl in Hm2, He2.
  assert (Hd1 : Zdigits2 m1 ≤ 109).
  { destruct (Z.eq_dec m 0) as [->|Hne].
    - assert (m1 = 0 ∨ m1 = 1) as [->| ->] by lia; simpl; lia.
    - pose proof (Zdigits2_mono m1 (2 * m) ltac:(lia)) as Hmono.
      destruct m as [|pm|pm]; [lia| |lia].
      change (2 * Z.pos pm) with (Z.pos pm~0) in Hmono.
      simpl in Hmono, Hd. simpl. lia. }
  pose proof (Zdigits2_nonneg m) as Hd0. pose proof (Zdigits2_nonneg m1) as Hd10.
  assert (He'' : e'' ≤ b + 111).
  { subst e'' e'. unfold fexp, emin, prec, emax in *. lia. }
  destruct (shr_m mrs'') as [|p|p]; [by left| |lia].
  right. exists p, e''. split; [|done]. unfold emax, prec.
  destruct (Z.leb_spec e'' (1024 - 53)); [done|lia].
Qed.

Lemma valid_binary_digits s m e :
  valid_binary (S754_finite s m e) = true → Zdigits2 (Z.pos m) ≤ 53.
Proof.
  simpl. unfold bounded, canonical_mantissa. intros Hvalid.
  apply andb_prop in Hvalid as [Hc _]. apply Z.eqb_eq in Hc.
  unfold fexp, emin, prec, emax in Hc. simpl. lia.
Qed.

Lemma Zdigits2_mul p q :
  Zdigits2 (Z.pos (p * q)) ≤ Zdigits2 (Z.pos p) + Zdigits2 (Z.pos q).
Proof.
  rewrite !Zdigits2_log2.
  pose proof (Z.log2_mul_above (Z.pos p) (Z.pos q) ltac:(lia) ltac:(lia)) as Hlog.
  change (Z.pos p * Z.pos q) with (Z.pos (p * q)) in Hlog. lia.
Qed.

(** The quotient of two finite numbers of moderate exponents is a zero or a
    finite number. *)
Lemma SFdiv_moderate s1 m1 e1 s2 m2 e2 :
  valid_binary (S754_finite s1 m1 e1) = true →
  valid_binary (S754_finite s2 m2 e2) = true →
  e1 - e2 ≤ 800 →
  (∃ s, SF64div (S754_finite s1 m1 e1) (S754_finite s2 m2 e2) = S754_zero s) ∨
  (∃ s m e, SF64div (S754_finite s1 m1 e1) (S754_finite s2 m2 e2) = S754_finite s m e).
Proof.
  intros Hv1 Hv2 He. unfold SF64div, SFdiv, SFdiv_core_binary.
  pose proof (valid_binary_digits _ _ _ Hv1) as Hd1.
  pose proof (valid_binary_digits _ _ _ Hv2) as Hd2.
  pose proof (Zdigits2_log2 m1) as Hl1. pose proof (Zdigits2_log2 m2) as Hl2.
  pose proof (Z.log2_nonneg (Z.pos m1)) as Hn1.
  pose proof (Z.log2_nonneg (Z.pos m2)) as Hn2.
  set (d1 := Zdigits2 (Z.pos m1)) in *. set (d2 := Zdigits2 (Z.pos m2)) in *.
  set (ez := Z.min (fexp prec emax (d1 + e1 - (d2 + e2))) (e1 - e2)).
  set (sh := e1 - e2 - ez).
  set (m' := match sh with 0 => Z.pos m1 | Z.pos _ => Z.shiftl (Z.pos m1) sh | Z.neg _ => 0 end).
  assert (Hsh : 0 ≤ sh ≤ 53 + d2 - d1 ∨ sh = 0).
  { subst sh ez. unfold fexp, emin, prec, emax. lia. }
  assert (Hm' : 0 ≤ m' ∧ Zdigits2 m' ≤ 108).
  { subst m'. destruct sh as [|p|p] eqn:Hp.
    - split; [lia|]. fold d1. lia.
    - rewrite Z.shiftl_mul_pow2 by lia. split; [lia|].
      assert (Hpos : 0 < Z.pos m1 * 2 ^ Z.pos p) by lia.
      destruct (Z.pos m1 * 2 ^ Z.pos p) as [|q|q] eqn:Hq; [lia| |lia].
      rewrite Zdigits2_log2, <- Hq, Z.log2_mul_pow2 by lia. lia.
    - split; simpl; lia. }
  destruct Hm' as [Hm0 Hmd].
  pose proof (Z.div_eucl_eq m' (Z.pos m2) ltac:(lia)) as Heq.
  pose proof (Z.mod_pos_bound m' (Z.pos m2) ltac:(lia)) as Hmod.
  unfold Z.modulo in Hmod.
  change IntDef.Z.div_eucl with Z.div_eucl.
  destruct (Z.div_eucl m' (Z.pos m2)) as [q r].
  assert (Hq : 0 ≤ q ≤ m') by nia.
  pose proof (Zdigits2_mono q m' Hq) as Hqd.
  destruct (binary_round_aux_moderate (xorb s1 s2) q ez (new_location (Z.pos m2) r) 800)
    as [->|(mz & ez' & -> & _)]; [lia|lia| |lia|eauto|eauto 6].
  subst ez. lia.
Qed.

Local Close Scope Z_scope.

(** A latitude within [-90, 90] degrees is a finite number of radians. *)
Lemma radians_finite x :
  (-90 <=? x) = true → (x <=? 90) = true → is_finite (x * Trips.Pi / 180) = true.
Proof.
  intros Hlo Hhi. apply is_finite_of_SF. rewrite div_spec.
  pose proof (Prim2SF_valid (x * Trips.Pi)) as Hvy.
  pose proof (mul_spec x Trips.Pi) as Hy.
  rewrite leb_spec in Hlo, Hhi. pose proof (Prim2SF_valid x) as Hvalid.
  change (Prim2SF Trips.Pi) with (S754_finite false 7074237752028440 (-51)) in Hy.
  change (Prim2SF 180) with (S754_finite false 6333186975989760 (-45)).
  change (Prim2SF 90) with (S754_finite false 6333186975989760 (-46)) in Hhi.
  change (Prim2SF (-90)) with (S754_finite true 6333186975989760 (-46)) in Hlo.
  destruct (Prim2SF x) as [s|s| |s m e]; simpl in Hlo, Hhi.
  - rewrite Hy. left. by eexists.
  - by destruct s.
  - done.
  - assert (He : (e ≤ -46)%Z).
    { unfold SFleb, SFcompare in Hlo, Hhi. destruct s.
      - destruct (Z.compare_spec (-46) e); [lia|done|lia].
      - destruct (Z.compare_spec e (-46)); [lia|lia|done]. }
    pose proof (valid_binary_digits _ _ _ Hvalid) as Hd.
    unfold SF64mul, SFmul in Hy.
    pose proof (Zdigits2_mul m 7074237752028440) as Hmul.
    change (Zdigits2 7074237752028440) with 53%Z in Hmul.
    destruct (binary_round_aux_moderate (xorb s false) (Z.pos (m * 7074237752028440))
                (e + -51) loc_Exact (-97)) as [Hz|(mz & ez & Hf & Hez)];
      [lia|lia|lia|lia| |].
    + rewrite Hy, Hz. left. by eexists.
    + rewrite Hf in Hy. rewrite Hy in Hvy |- *.
      apply SFdiv_moderate; [done|done|lia].
Qed.
(** A number that is not finite is not a finite number of radians either. *)
Lemma radians_not_finite x :
  is_finite x = false → is_finite (x * Trips.Pi / 180) = false.
Proof.
  intros H. apply not_true_iff_false. intros Hf. apply is_finite_SF in Hf.
  rewrite div_spec, mul_spec in Hf.
  change (Prim2SF Trips.Pi) with (S754_finite false 7074237752028440 (-51)) in Hf.
  change (Prim2SF 180) with (S754_finite false 6333186975989760 (-45)) in Hf.
  apply not_finite_SF in H as [E|[s E]]; rewrite E in Hf; simpl in Hf.
  - by destruct Hf as [[? ?]|(? & ? & ? & ?)].
  - by destruct Hf as [[? ?]|(? & ? & ? & ?)].
Qed.

(** *** NaN *)

Lemma mul_nan_l y : nan * y = nan.
Proof. apply Prim2SF_inj. rewrite mul_spec. reflexivity. Qed.

Lemma add_nan_r x : x + nan = nan.
Proof.
  apply Prim2SF_inj. rewrite add_spec.
  change (Prim2SF nan) with S754_nan. by destruct (Prim2SF x).
Qed.

Lemma nan_not_zero : nan ≠ 0.
Proof. intros H. apply (f_equal is_nan) in H. by vm_compute in H. Qed.

End F64.

(** ** Tracking hub *)

Module TrackingFacts.
Import Tracking.

Lemma first_index_lt conn l i :
  first_index conn l = Some i → (i < length l)%nat.
Proof.
  revert i. induction l as [|c l IH]; intros i; simpl; [done|].
  destruct (Nat.eqb c conn).
  - intros [= <-]. lia.
  - destruct (first_index conn l) as [j|]; simpl; [|done].
    intros [= <-]. specialize (IH j eq_refl). lia.
Qed.

Lemma first_index_hit conn l i :
  first_index conn l = Some i → l !! i = Some conn.
Proof.
  revert i. induction l as [|c l IH]; intros i; simpl; [done|].
  destruct (Nat.eqb c conn) eqn:E.
  - intros [= <-]. apply Nat.eqb_eq in E. by subst.
  - destruct (first_index conn l) as [j|]; simpl; [|done].
    intros [= <-]. by apply IH.
Qed.

Lemma first_index_none conn l :
  first_index conn l = None → conn ∉ l.
Proof.
  induction l as [|c l IH]; simpl; [intros _; apply not_elem_of_nil|].
  destruct (Nat.eqb c conn) eqn:E; [done|].
  destruct (first_index conn l); simpl; [done|]. intros _.
  apply Nat.eqb_neq in E. rewrite not_elem_of_cons. split; [congruence|by apply IH].
Qed.

Lemma at_trip_insert m t cs : at_trip (<[t := cs]> m) t = cs.
Proof. unfold at_trip. by rewrite lookup_insert_eq. Qed.

Lemma at_trip_delete m t : at_trip (delete t m) t = [].
Proof. unfold at_trip. by rewrite lookup_delete_eq. Qed.

Lemma NewHub_no_empty_group : no_empty_group NewHub.
Proof. intros t cs. unfold NewHub. simpl. by rewrite lookup_empty. Qed.

Lemma register_no_empty_group t c h :
  no_empty_group h → no_empty_group (HandleWS_register t c h).
Proof.
  intros Hinv t' cs. unfold HandleWS_register. simpl.
  destruct (decide (t = t')) as [->|Hne].
  - rewrite lookup_insert_eq. intros [= <-]. by destruct (at_trip (conns h) t').
  - rewrite lookup_insert_ne by done. apply Hinv.
Qed.

(** After [removeConn] the key of the trip is either gone or bound to a
    non-empty slice, whatever the hub looked like before. *)
Lemma removeConn_own_key t c h cs :
  conns (removeConn t c h) !! t = Some cs → cs ≠ [].
Proof.
  unfold removeConn. simpl.
  set (m1 := match first_index c (at_trip (conns h) t) with
             | Some i => _ | None => _ end).
  destruct (Nat.eqb (length (at_trip m1 t)) 0) eqn:E.
  - by rewrite lookup_delete_eq.
  - apply Nat.eqb_neq in E. intros Hl. unfold at_trip in E. rewrite Hl in E.
    simpl in E. by destruct cs.
Qed.

Lemma removeConn_other_key t t' c h :
  t ≠ t' → conns (removeConn t c h) !! t' = conns h !! t'.
Proof.
  intros Hne. unfold removeConn. simpl.
  set (m1 := match first_index c (at_trip (conns h) t) with
             | Some i => _ | None => _ end).
  assert (Hm1 : m1 !! t' = conns h !! t').
  { unfold m1. destruct (first_index c (at_trip (conns h) t)); [|done].
    by rewrite lookup_insert_ne. }
  destruct (Nat.eqb (length (at_trip m1 t)) 0); [|done].
  by rewrite lookup_delete_ne.
Qed.

Lemma removeConn_no_empty_group t c h :
  no_empty_group h → no_empty_group (removeConn t c h).
Proof.
  intros Hinv t' cs. destruct (decide (t = t')) as [<-|Hne].
  - apply removeConn_own_key.
  - rewrite removeConn_other_key by done. apply Hinv.
Qed.

Lemma run_no_empty_group ops h :
  no_empty_group h → no_empty_group (run ops h).
Proof.
  revert h. induction ops as [|o ops IH]; intros h Hinv; [done|].
  simpl. apply IH. destruct o; simpl.
  - by apply register_no_empty_group.
  - by apply removeConn_no_empty_group.
Qed.

(** The connection that [removeConn] takes out is the first occurrence, and
    the rest of the slice keeps its order. *)
Lemma removeConn_removes t c h cs :
  conns h !! t = Some cs → c ∈ cs →
  ∃ i, cs !! i = Some c ∧
       at_trip (conns (removeConn t c h)) t = take i cs ++ drop (S i) cs.
Proof.
  intros Hcs Hin. unfold removeConn. simpl.
  assert (Hat : at_trip (conns h) t = cs) by (unfold at_trip; by rewrite Hcs).
  rewrite Hat.
  destruct (first_index c cs) as [i|] eqn:Hi.
  - exists i. split; [by apply first_index_hit|].
    rewrite at_trip_insert.
    destruct (Nat.eqb (length (take i cs ++ drop (S i) cs)) 0) eqn:E.
    + rewrite at_trip_delete.
      apply Nat.eqb_eq in E. by destruct (take i cs ++ drop (S i) cs).
    + by rewrite at_trip_insert.
  - by apply first_index_none in Hi.
Qed.

(** C9.  Whenever [removeConn] leaves the subscriber slice of a trip empty,
    the map entry of that trip is gone; and after any sequence of subscribe
    and unsubscribe operations on a new hub, no trip key is bound to an empty
    slice. *)
Theorem hub_has_no_empty_group :
  (∀ h t c, at_trip (conns (removeConn t c h)) t = [] →
            conns (removeConn t c h) !! t = None) ∧
  (∀ ops, no_empty_group (run ops NewHub)).
Proof.
  split.
  - intros h t c Hempty.
    destruct (conns (removeConn t c h) !! t) as [cs|] eqn:Hl; [|done].
    exfalso. apply (removeConn_own_key _ _ _ _ Hl).
    unfold at_trip in Hempty. by rewrite Hl in Hempty.
  - intros ops. apply run_no_empty_group, NewHub_no_empty_group.
Qed.

(** The last subscriber of a trip leaves: the key is discarded. *)
Example last_subscriber_leaves :
  conns (run [Subscribe "trip-1" 7%nat; Unsubscribe "trip-1" 7%nat] NewHub) = ∅.
Proof. by vm_compute. Qed.

End TrackingFacts.

(** ** Trip ledger *)

Module TripsFacts.
Import Trips.

(** *** The three UPDATE statements, case by case *)

Lemma Exec_update_cases set tripID cond p :
  (reachable p = false ∧ Exec_update set tripID cond p = (Fail unreachable, p)) ∨
  (reachable p = true ∧
   (∀ row, trips p !! tripID = Some row → cond row = false) ∧
   Exec_update set tripID cond p = (Ok 0%nat, p)) ∨
  (∃ row, reachable p = true ∧ trips p !! tripID = Some row ∧ cond row = true ∧
          Exec_update set tripID cond p =
            (Ok 1%nat, mkPool (reachable p) (<[tripID := set row]> (trips p)))).
Proof.
  unfold Exec_update. destruct (reachable p) eqn:Hup; [|by left].
  right. destruct (trips p !! tripID) as [row|] eqn:Hrow.
  - destruct (cond row) eqn:Hc.
    + right. by exists row.
    + left. split; [done|]. split; [|done]. by intros ? [= <-].
  - left. split; [done|]. split; [|done]. by intros ? [=].
Qed.

Lemma status_in_true a b t :
  status_in a b t = true ↔ Status t = a ∨ Status t = b.
Proof.
  unfold status_in. rewrite orb_true_iff, !bool_decide_eq_true. done.
Qed.

Lemma status_is_true a t : status_is a t = true ↔ Status t = a.
Proof. unfold status_is. by rewrite bool_decide_eq_true. Qed.

(** *** [AssignDriver] *)

Lemma AssignDriver_assigns s tripID driverID row :
  reachable (db s) = true →
  trips (db s) !! tripID = Some row →
  Status row = StatusRequested ∨ Status row = StatusMatching →
  AssignDriver tripID driverID s =
    (Ok (set_driver_status driverID StatusDriverAssigned row),
     with_row tripID (set_driver_status driverID StatusDriverAssigned row) s).
Proof.
  intros Hup Hrow Hst. apply status_in_true in Hst.
  unfold_methods. break_service s. subst up.
  rewrite Hrow, Hst. simpl. by rewrite lookup_insert_eq.
Qed.

Lemma AssignDriver_conflict s tripID driverID :
  reachable (db s) = true →
  (∀ row, trips (db s) !! tripID = Some row →
          Status row ≠ StatusRequested ∧ Status row ≠ StatusMatching) →
  AssignDriver tripID driverID s = (Fail conflict_assign, s).
Proof.
  intros Hup Hno. unfold_methods. break_service s. subst up.
  destruct (rows !! tripID) as [row|] eqn:Hrow; [|done].
  destruct (Hno row eq_refl) as [H1 H2].
  destruct (status_in StatusRequested StatusMatching row) eqn:Hst; [|done].
  apply status_in_true in Hst. tauto.
Qed.

Lemma AssignDriver_unreachable s tripID driverID :
  reachable (db s) = false →
  AssignDriver tripID driverID s = (Fail unreachable, s).
Proof. intros Hup. unfold_methods. break_service s. by subst up. Qed.

Lemma AssignDriver_Ok_inv s tripID driverID t s' :
  AssignDriver tripID driverID s = (Ok t, s') →
  ∃ row, reachable (db s) = true ∧ trips (db s) !! tripID = Some row ∧
         (Status row = StatusRequested ∨ Status row = StatusMatching) ∧
         t = set_driver_status driverID StatusDriverAssigned row ∧
         s' = with_row tripID t s.
Proof.
  intros Hrun. destruct (reachable (db s)) eqn:Hup.
  - destruct (trips (db s) !! tripID) as [row|] eqn:Hrow.
    + destruct (decide (Status row = StatusRequested ∨ Status row = StatusMatching))
        as [Hst|Hst].
      * rewrite (AssignDriver_assigns _ _ _ _ Hup Hrow Hst) in Hrun.
        injection Hrun as <- <-. by exists row.
      * rewrite AssignDriver_conflict in Hrun; [done|done|].
        intros row' Hrow'. rewrite Hrow in Hrow'. injection Hrow' as <-. tauto.
    + rewrite AssignDriver_conflict in Hrun; [done|done|].
      intros row' Hrow'. by rewrite Hrow in Hrow'.
  - by rewrite AssignDriver_unreachable in Hrun.
Qed.

(** C5.  On a pool that executes the statement, [AssignDriver] on a trip in
    [StatusRequested] or [StatusMatching] succeeds: it returns the row with
    [StatusDriverAssigned] and the driver set and nothing else changed, that
    row is what the table then holds for the trip, and no other row, goroutine
    or log line is touched.  It succeeds in no other case; after a success a
    further call on the trip, whatever the driver, fails with the conflict
    error and changes nothing.  When the UPDATE affects no row the call fails
    with that same conflict error and the service is as before. *)
Theorem AssignDriver_conditional_update (s : Service) (tripID driverID : string) :
  (∀ row,
     reachable (db s) = true →
     trips (db s) !! tripID = Some row →
     Status row = StatusRequested ∨ Status row = StatusMatching →
     ∃ t s',
       AssignDriver tripID driverID s = (Ok t, s') ∧
       Status t = StatusDriverAssigned ∧ DriverID t = Some driverID ∧
       t = set_driver_status driverID StatusDriverAssigned row ∧
       identity t = identity row ∧ Fare t = Fare row ∧
       StartedAt t = StartedAt row ∧ CompletedAt t = CompletedAt row ∧
       trips (db s') !! tripID = Some t ∧
       (∀ id, id ≠ tripID → trips (db s') !! id = trips (db s) !! id) ∧
       spawned s' = spawned s ∧ stderr s' = stderr s) ∧
  (∀ t s', AssignDriver tripID driverID s = (Ok t, s') →
     ∃ row, trips (db s) !! tripID = Some row ∧
            (Status row = StatusRequested ∨ Status row = StatusMatching) ∧
            t = set_driver_status driverID StatusDriverAssigned row ∧
            Status t = StatusDriverAssigned ∧ DriverID t = Some driverID ∧
            trips (db s') !! tripID = Some t ∧
            ∀ driverID', AssignDriver tripID driverID' s' = (Fail conflict_assign, s')) ∧
  (reachable (db s) = true →
   (∀ row, trips (db s) !! tripID = Some row →
           Status row ≠ StatusRequested ∧ Status row ≠ StatusMatching) →
   AssignDriver tripID driverID s = (Fail conflict_assign, s)).
Proof.
  split; [|split].
  - intros row Hup Hrow Hst.
    exists (set_driver_status driverID StatusDriverAssigned row),
      (with_row tripID (set_driver_status driverID StatusDriverAssigned row) s).
    split; [by apply AssignDriver_assigns|].
    repeat split; try done.
    + unfold with_row. simpl. by rewrite lookup_insert_eq.
    + intros id Hne. unfold with_row. simpl. by rewrite lookup_insert_ne.
  - intros t s' Hrun.
    apply AssignDriver_Ok_inv in Hrun as (row & Hup & Hrow & Hst & -> & ->).
    exists row. repeat split; try done.
    + unfold with_row. simpl. by rewrite lookup_insert_eq.
    + intros driverID'. apply AssignDriver_conflict; [done|].
      unfold with_row. simpl. rewrite lookup_insert_eq. by intros ? [= <-].
  - apply AssignDriver_conflict.
Qed.

(** On the requested sample trip the first assignment goes through and the
    second one is refused, the row keeping the first driver. *)
Example AssignDriver_twice :
  let first := AssignDriver "t1" "driver-1" Samples.ledger_requested in
  let second := AssignDriver "t1" "driver-2" first.2 in
  is_ok first.1 = true ∧
  (Status <$> trips (db first.2) !! "t1") = Some StatusDriverAssigned ∧
  second.1 = Fail conflict_assign ∧
  (DriverID <$> trips (db second.2) !! "t1") = Some (Some "driver-1").
Proof. by vm_compute. Qed.

(** *** [Start] *)

Lemma Start_starts s tripID now row :
  reachable (db s) = true →
  trips (db s) !! tripID = Some row →
  Status row = StatusDriverAssigned →
  Start tripID now s =
    (Ok (set_status_started_at StatusStarted now row),
     with_row tripID (set_status_started_at StatusStarted now row) s).
Proof.
  intros Hup Hrow Hst. apply status_is_true in Hst.
  unfold_methods. break_service s. subst up.
  rewrite Hrow, Hst. simpl. by rewrite lookup_insert_eq.
Qed.

Lemma Start_conflict s tripID now :
  reachable (db s) = true →
  (∀ row, trips (db s) !! tripID = Some row → Status row ≠ StatusDriverAssigned) →
  Start tripID now s = (Fail conflict_start, s).
Proof.
  intros Hup Hno. unfold_methods. break_service s. subst up.
  destruct (rows !! tripID) as [row|] eqn:Hrow; [|done].
  specialize (Hno row eq_refl).
  destruct (status_is StatusDriverAssigned row) eqn:Hst; [|done].
  by apply status_is_true in Hst.
Qed.

Lemma Start_unreachable s tripID now :
  reachable (db s) = false → Start tripID now s = (Fail unreachable, s).
Proof. intros Hup. unfold_methods. break_service s. by subst up. Qed.

(** *** [End] *)

Section EndFacts.

Variables Sin Cos : float → float.
Variable Atan2 : float → float → float.
Variable FormatRFC3339 : Time → string.
Variable SubSeconds : Time → Time → Z.

Local Abbreviation distance := (Trips.distance Sin Cos Atan2).
Local Abbreviation haversineKm := (Trips.haversineKm Sin Cos Atan2).
Local Abbreviation End_check := (Trips.End_check Sin Cos Atan2).
Local Abbreviation End_commit := (Trips.End_commit FormatRFC3339 SubSeconds).
Local Abbreviation End := (Trips.End Sin Cos Atan2 FormatRFC3339 SubSeconds).
Local Abbreviation completed_event := (Trips.completed_event FormatRFC3339 SubSeconds).

Lemma End_check_passes s tripID distKm row :
  reachable (db s) = true →
  trips (db s) !! tripID = Some row →
  Status row = StatusStarted →
  End_check tripID distKm s = (Ok (row, fare_of (distance row distKm)), s).
Proof.
  intros Hup Hrow Hst. unfold_methods. break_service s. subst up.
  rewrite Hrow. simpl. rewrite bool_decide_eq_false_2; [done|]. by intros [].
Qed.

Lemma End_check_conflict s tripID distKm row :
  reachable (db s) = true →
  trips (db s) !! tripID = Some row →
  Status row ≠ StatusStarted →
  End_check tripID distKm s = (Fail conflict_end, s).
Proof.
  intros Hup Hrow Hst. unfold_methods. break_service s. subst up.
  rewrite Hrow. simpl. by rewrite bool_decide_eq_true_2.
Qed.

Lemma End_check_not_found s tripID distKm :
  reachable (db s) = false ∨ trips (db s) !! tripID = None →
  End_check tripID distKm s = (Fail (errorString "trip not found"), s).
Proof.
  intros H. unfold_methods. break_service s.
  destruct up; [|done]. destruct H as [|H]; [done|]. by rewrite H.
Qed.

Lemma End_check_Ok_inv s tripID distKm trip fare s' :
  End_check tripID distKm s = (Ok (trip, fare), s') →
  s' = s ∧ reachable (db s) = true ∧ trips (db s) !! tripID = Some trip ∧
  Status trip = StatusStarted ∧ fare = fare_of (distance trip distKm).
Proof.
  intros Hrun. destruct (reachable (db s)) eqn:Hup.
  - destruct (trips (db s) !! tripID) as [row|] eqn:Hrow.
    + destruct (decide (Status row = StatusStarted)) as [Hst|Hst].
      * rewrite (End_check_passes _ _ _ _ Hup Hrow Hst) in Hrun.
        by injection Hrun as <- <- <-.
      * by rewrite (End_check_conflict _ _ _ _ Hup Hrow Hst) in Hrun.
    + rewrite End_check_not_found in Hrun; [done|by right].
  - rewrite End_check_not_found in Hrun; [done|by left].
Qed.

(** The UPDATE of [End] goes through whatever the status of the row is. *)
Lemma End_commit_overwrites s tripID trip fare now row :
  reachable (db s) = true →
  trips (db s) !! tripID = Some row →
  End_commit tripID trip fare now s =
    (Ok (set_status_fare_completed_at StatusCompleted fare now row),
     with_spawned (completed_event tripID trip fare now)
       (with_row tripID (set_status_fare_completed_at StatusCompleted fare now row) s)).
Proof.
  intros Hup Hrow. unfold_methods. break_service s. subst up.
  rewrite Hrow. simpl. by rewrite lookup_insert_eq.
Qed.

Lemma End_completes s tripID distKm now row :
  reachable (db s) = true →
  trips (db s) !! tripID = Some row →
  Status row = StatusStarted →
  let fare := fare_of (distance row distKm) in
  let row' := set_status_fare_completed_at StatusCompleted fare now row in
  End tripID distKm now s =
    (Ok row', with_spawned (completed_event tripID row fare now) (with_row tripID row' s)).
Proof.
  intros Hup Hrow Hst fare row'.
  unfold Trips.End, mbind, M_bind, bind.
  rewrite (End_check_passes _ _ _ _ Hup Hrow Hst).
  by apply End_commit_overwrites.
Qed.

Lemma End_fails_like_check s tripID distKm now e s' :
  End_check tripID distKm s = (Fail e, s') →
  End tripID distKm now s = (Fail e, s').
Proof. intros H. unfold Trips.End, mbind, M_bind, bind. by rewrite H. Qed.

End EndFacts.

(** *** [End] on the table with its column types *)

Section TableFacts.

Variables Sin Cos : float → float.
Variable Atan2 : float → float → float.
Variable FormatRFC3339 : Time → string.
Variable SubSeconds : Time → Time → Z.
Variable TIMESTAMPTZ : Time → Time.

Local Abbreviation distance := (Trips.distance Sin Cos Atan2).
Local Abbreviation haversineKm := (Trips.haversineKm Sin Cos Atan2).
Local Abbreviation End_check := (Trips.End_check Sin Cos Atan2).
Local Abbreviation completed_event := (Trips.completed_event FormatRFC3339 SubSeconds).
Local Abbreviation End :=
  (TripsTable.End Sin Cos Atan2 FormatRFC3339 SubSeconds TIMESTAMPTZ).

Lemma End_stored s tripID distKm now row stored :
  reachable (db s) = true →
  trips (db s) !! tripID = Some row →
  Status row = StatusStarted →
  TripsTable.DECIMAL_12_2 (fare_of (distance row distKm)) = Some stored →
  let fare := fare_of (distance row distKm) in
  let row' := set_status_fare_completed_at StatusCompleted stored (TIMESTAMPTZ now) row in
  End tripID distKm now s =
    (Ok row', with_spawned (completed_event tripID row fare now) (with_row tripID row' s)).
Proof.
  intros Hup Hrow Hst Hcol fare row'. subst fare row'.
  unfold TripsTable.End, mbind, M_bind, bind.
  rewrite (End_check_passes Sin Cos Atan2 _ _ _ _ Hup Hrow Hst).
  unfold TripsTable.End_commit, TripsTable.update_end, mbind, M_bind, bind.
  unfold_methods. break_service s. subst up.
  rewrite Hrow, Hcol. simpl. by rewrite lookup_insert_eq.
Qed.

Lemma End_refused s tripID distKm now row :
  reachable (db s) = true →
  trips (db s) !! tripID = Some row →
  Status row = StatusStarted →
  TripsTable.DECIMAL_12_2 (fare_of (distance row distKm)) = None →
  End tripID distKm now s = (Fail TripsTable.numeric_overflow, s).
Proof.
  intros Hup Hrow Hst Hcol.
  unfold TripsTable.End, mbind, M_bind, bind.
  rewrite (End_check_passes Sin Cos Atan2 _ _ _ _ Hup Hrow Hst).
  unfold TripsTable.End_commit, TripsTable.update_end, mbind, M_bind, bind.
  unfold_methods. break_service s. subst up.
  by rewrite Hrow, Hcol.
Qed.

(** Where the columns keep what they are given, [End] on the table is [End]
    on the rows stored as given. *)
Lemma End_as_given s tripID distKm now :
  (∀ trip fare, End_check tripID distKm s = (Ok (trip, fare), s) →
                TripsTable.DECIMAL_12_2 fare = Some fare) →
  TIMESTAMPTZ now = now →
  End tripID distKm now s =
    Trips.End Sin Cos Atan2 FormatRFC3339 SubSeconds tripID distKm now s.
Proof.
  intros Hcol Hnow. unfold TripsTable.End, Trips.End, mbind, M_bind, bind.
  destruct (End_check tripID distKm s) as [[[trip fare]|e] s1] eqn:Hcheck; [|done].
  apply End_check_Ok_inv in Hcheck as Hinv. destruct Hinv as (-> & Hup & Hrow & _ & _).
  specialize (Hcol trip fare eq_refl).
  unfold TripsTable.End_commit, Trips.End_commit, TripsTable.update_end,
    Trips.update_end, Exec_update, Exec, mbind, M_bind, bind.
  by rewrite Hup, Hrow, Hcol, Hnow.
Qed.

(** C4, amended.  On a started trip [End] charges for the explicit distance
    when one is given and positive and for the haversine distance from pickup
    to drop otherwise, and prices it at 50 + 12 x km in [float64]: 356 for
    25.5 km, 50 for 0 km, which the [fare] column keeps as they are.  Where
    the column takes the fare, [End] returns the trip as the table then holds
    it: completed, with the fare at two decimals as the column keeps it and
    the completion time as its column keeps it, nothing else changed; the
    goroutine it starts publishes the fare as computed.  Where the column
    refuses the fare, [End] returns that error, and the service, the trip in
    it still started, is as before. *)
Theorem End_prices_and_completes
  (s : Service) (tripID : string) (distKm : option float) (now : Time) (row : Trip) :
  reachable (db s) = true →
  trips (db s) !! tripID = Some row →
  Status row = StatusStarted →
  let hav := haversineKm (PickupLat row) (PickupLng row) (DropLat row) (DropLng row) in
  let km := match distKm with
            | Some d => if (0 <? d)%float then d else hav
            | None => hav
            end in
  let fare := (50 + 12 * km)%float in
  match TripsTable.DECIMAL_12_2 fare with
  | Some stored =>
      ∃ trip s',
        End tripID distKm now s = (Ok trip, s') ∧
        trips (db s') !! tripID = Some trip ∧
        Status trip = StatusCompleted ∧
        Fare trip = Some stored ∧
        CompletedAt trip = Some (TIMESTAMPTZ now) ∧
        trip = set_status_fare_completed_at StatusCompleted stored (TIMESTAMPTZ now) row ∧
        (∀ id, id ≠ tripID → trips (db s') !! id = trips (db s) !! id) ∧
        spawned s' = spawned s ++ [completed_event tripID row fare now]
  | None =>
      End tripID distKm now s = (Fail TripsTable.numeric_overflow, s) ∧
      (Status <$> trips (db s) !! tripID) = Some StatusStarted
  end ∧
  (50 + 12 * 25.5 = 356)%float ∧ TripsTable.DECIMAL_12_2 356 = Some 356%float ∧
  (50 + 12 * 0 = 50)%float ∧ TripsTable.DECIMAL_12_2 50 = Some 50%float.
Proof.
  intros Hup Hrow Hst hav km fare. split; [|by vm_compute].
  assert (Hfare : fare_of (distance row distKm) = fare).
  { unfold fare_of, fare. rewrite F64.mul_comm. f_equal. }
  destruct (TripsTable.DECIMAL_12_2 fare) as [stored|] eqn:Hcol.
  - rewrite <- Hfare in Hcol.
    pose proof (End_stored s tripID distKm now row stored Hup Hrow Hst Hcol) as Hend.
    simpl in Hend. rewrite Hfare in Hend.
    eexists _, _. split; [exact Hend|].
    repeat split.
    + unfold with_spawned, with_row. simpl. by rewrite lookup_insert_eq.
    + intros id Hne. unfold with_spawned, with_row. simpl. by rewrite lookup_insert_ne.
  - rewrite <- Hfare in Hcol. split.
    + by apply (End_refused s tripID distKm now row).
    + by rewrite Hrow, <- Hst.
Qed.

End TableFacts.

(** The witness of C4: 25.5 km on the started sample trip. *)
Lemma End_prices_and_completes_witness :
  ∃ trip s',
    TripsTable.End Samples.sin_stub Samples.cos_stub Samples.atan2_stub
      Samples.format_stub Samples.seconds_stub Samples.timestamptz_stub
      "t1" (Some 25.5%float) 300 Samples.ledger_started = (Ok trip, s') ∧
    trips (db s') !! "t1" = Some trip ∧
    Status trip = StatusCompleted ∧
    Fare trip = Some 356%float ∧
    CompletedAt trip = Some 300.
Proof.
  destruct (End_prices_and_completes
              Samples.sin_stub Samples.cos_stub Samples.atan2_stub
              Samples.format_stub Samples.seconds_stub Samples.timestamptz_stub
              Samples.ledger_started "t1" (Some 25.5%float) 300
              Samples.trip_started eq_refl eq_refl eq_refl)
    as [(trip & s' & H1 & H2 & H3 & H4 & H5 & _) _].
  exists trip, s'. exact (conj H1 (conj H2 (conj H3 (conj H4 H5)))).
Defined.

(** C4 as stated fails.  For 1.234 km the fare computed is 64.808 (as a
    [float64], 64.807999999999993) and the column keeps 64.81: the trip that
    [End] returns carries 64.81, whatever the functions of package math and
    of package time are.  For a thousand million km the fare does not fit the
    column: [End] on the started trip fails and leaves it started. *)
Lemma End_fare_rounded_or_refused :
  (50 + 12 * Samples.km_1_234)%float ≠ Samples.fare_64_81 ∧
  TripsTable.DECIMAL_12_2 (50 + 12 * Samples.km_1_234) = Some Samples.fare_64_81 ∧
  TripsTable.DECIMAL_12_2 (50 + 12 * 1000000000) = None ∧
  (∀ Sin Cos Atan2 FormatRFC3339 SubSeconds TIMESTAMPTZ now,
     (∃ trip s',
        TripsTable.End Sin Cos Atan2 FormatRFC3339 SubSeconds TIMESTAMPTZ
          "t1" (Some Samples.km_1_234) now Samples.ledger_started = (Ok trip, s') ∧
        Fare trip = Some Samples.fare_64_81 ∧
        Fare trip ≠ Some (50 + 12 * Samples.km_1_234)%float) ∧
     TripsTable.End Sin Cos Atan2 FormatRFC3339 SubSeconds TIMESTAMPTZ
       "t1" (Some 1000000000%float) now Samples.ledger_started =
       (Fail TripsTable.numeric_overflow, Samples.ledger_started) ∧
     (Status <$> trips (db Samples.ledger_started) !! "t1") = Some StatusStarted).
Proof.
  assert (Hne : (50 + 12 * Samples.km_1_234)%float ≠ Samples.fare_64_81).
  { intros H. apply (f_equal (λ x, x =? Samples.fare_64_81)%float) in H.
    by vm_compute in H. }
  split; [done|]. split; [by vm_compute|]. split; [by vm_compute|].
  intros Sin Cos Atan2 FormatRFC3339 SubSeconds TIMESTAMPTZ now.
  split; [|split; [|by vm_compute]].
  - eexists _, _. split.
    + apply (End_stored Sin Cos Atan2 FormatRFC3339 SubSeconds TIMESTAMPTZ
               Samples.ledger_started "t1" (Some Samples.km_1_234) now
               Samples.trip_started Samples.fare_64_81);
        [done|done|done|by vm_compute].
    + split; [done|]. intros H. apply Hne. symmetry.
      exact (f_equal (default 0%float) H).
  - apply (End_refused Sin Cos Atan2 FormatRFC3339 SubSeconds TIMESTAMPTZ
             Samples.ledger_started "t1" (Some 1000000000%float) now
             Samples.trip_started); [done|done|done|by vm_compute].
Qed.

(** *** [haversineKm] *)

Section Haversine.

Local Open Scope float_scope.

Variables Sin Cos : float → float.
Variable Atan2 : float → float → float.

Local Abbreviation haversineKm := (Trips.haversineKm Sin Cos Atan2).
Local Abbreviation half_angle_square := (Trips.half_angle_square Sin).

Lemma haversineKm_unfold lat1 lng1 lat2 lng2 :
  haversineKm lat1 lng1 lat2 lng2 =
    let a := half_angle_square lat1 lat2 +
             Cos (lat1 * Pi / 180) * Cos (lat2 * Pi / 180) *
               Sin ((lng2 - lng1) * Pi / 180 / 2) * Sin ((lng2 - lng1) * Pi / 180 / 2) in
    6371 * 2 * Atan2 (sqrt a) (sqrt (1 - a)).
Proof. reflexivity. Qed.

(** Where the radians of the first latitude are not a finite number, and
    [Cos] and [Atan2] answer NaN there as package math does, the distance is
    NaN, whatever the other coordinates are. *)
Lemma haversineKm_nan lat1 lng1 lat2 lng2 :
  (∀ x, is_finite x = false → Cos x = nan) →
  Atan2 nan nan = nan →
  is_finite (lat1 * Pi / 180) = false →
  haversineKm lat1 lng1 lat2 lng2 = nan.
Proof.
  intros Hcos Hatan Hlat. rewrite haversineKm_unfold. cbv zeta.
  rewrite (Hcos _ Hlat), !F64.mul_nan_l, F64.add_nan_r.
  change (sqrt (1 - nan)) with nan. change (sqrt nan) with nan.
  rewrite Hatan. reflexivity.
Qed.

(** What is used of package math: [Sin(0) = 0], [Sin(-x) = -Sin(x)],
    [|Cos(x)| <= 1] for a finite [x], [Atan2(0, 1) = 0], and the special
    cases [Cos(±Inf) = Cos(NaN) = NaN] and [Atan2(NaN, NaN) = NaN]. *)
Hypothesis Sin_zero : Sin 0 = 0.
Hypothesis Sin_odd : ∀ x, Sin (- x) = - Sin x.
Hypothesis Cos_range : ∀ x, is_finite x = true → (abs (Cos x) <=? 1) = true.
Hypothesis Cos_special : ∀ x, is_finite x = false → Cos x = nan.
Hypothesis Atan2_zero_one : Atan2 0 1 = 0.
Hypothesis Atan2_nan : Atan2 nan nan = nan.

Lemma half_angle_square_sym x y :
  half_angle_square x y = half_angle_square y x.
Proof using Sin_odd.
  unfold Trips.half_angle_square. destruct (F64.sub_swap x y) as [-> | ->]; [|done].
  by rewrite F64.mul_opp_l, !F64.div_opp_l, Sin_odd, F64.mul_opp_opp.
Qed.

Lemma half_angle_square_diag x :
  is_finite x = true → half_angle_square x x = 0.
Proof using Sin_zero.
  intros Hx. unfold Trips.half_angle_square. rewrite (F64.sub_diag x Hx).
  change (0 * Pi / 180 / 2) with 0. rewrite Sin_zero. reflexivity.
Qed.

Lemma longitude_term_sym c x y :
  c * Sin ((y - x) * Pi / 180 / 2) * Sin ((y - x) * Pi / 180 / 2) =
  c * Sin ((x - y) * Pi / 180 / 2) * Sin ((x - y) * Pi / 180 / 2).
Proof using Sin_odd.
  destruct (F64.sub_swap x y) as [-> | ->]; [|done].
  rewrite F64.mul_opp_l, !F64.div_opp_l, Sin_odd.
  set (s := Sin ((x - y) * Pi / 180 / 2)).
  rewrite (F64.mul_comm c (- s)), F64.mul_opp_l, F64.mul_opp_l.
  rewrite (F64.mul_comm (s * c) (- s)), F64.mul_opp_l, F64.opp_involutive.
  by rewrite (F64.mul_comm s (s * c)), (F64.mul_comm s c).
Qed.

Lemma haversineKm_diag lat lng :
  is_finite (lat * Pi / 180) = true → is_finite lng = true →
  haversineKm lat lng lat lng = 0.
Proof using Sin_zero Cos_range Atan2_zero_one.
  intros Hrad Hlng.
  assert (Hlat : is_finite lat = true).
  { destruct (is_finite lat) eqn:Hf; [done|].
    by rewrite (F64.radians_not_finite lat Hf) in Hrad. }
  rewrite haversineKm_unfold.
  rewrite (half_angle_square_diag lat Hlat), (F64.sub_diag lng Hlng).
  change (0 * Pi / 180 / 2) with 0. rewrite Sin_zero.
  rewrite (F64.square_times_zero _ (Cos_range (lat * Pi / 180) Hrad)).
  cbv zeta. change (0 + 0 * 0) with 0. change (sqrt 0) with 0.
  change (sqrt (1 - 0)) with 1. rewrite Atan2_zero_one. reflexivity.
Qed.

(** C8, amended.  The distance is 6371 x 2 x Atan2(sqrt a, sqrt (1 - a)),
    [a] being the haversine of the central angle, with the Earth radius
    6371 km; it is the same from a to b as from b to a, for all [float64]
    coordinates.  From a point to itself it is 0 when the longitude is finite
    and the latitude is a finite number of radians, which every latitude in
    [-90, 90] is; it is NaN, and so not 0, when the latitude is not a finite
    number of radians, as for the finite latitude 1e308. *)
Theorem haversineKm_zero_and_symmetric :
  (∀ lat lng, is_finite (lat * Pi / 180) = true → is_finite lng = true →
              haversineKm lat lng lat lng = 0) ∧
  (∀ lat lng, (-90 <=? lat) = true → (lat <=? 90) = true → is_finite lng = true →
              haversineKm lat lng lat lng = 0) ∧
  (∀ lat1 lng1 lat2 lng2,
     haversineKm lat1 lng1 lat2 lng2 = haversineKm lat2 lng2 lat1 lng1) ∧
  (∀ lat1 lng1 lat2 lng2,
     let dLat := (lat2 - lat1) * Pi / 180 in
     let dLng := (lng2 - lng1) * Pi / 180 in
     let a := Sin (dLat / 2) * Sin (dLat / 2) +
              Cos (lat1 * Pi / 180) * Cos (lat2 * Pi / 180) *
                Sin (dLng / 2) * Sin (dLng / 2) in
     haversineKm lat1 lng1 lat2 lng2 = 6371 * 2 * Atan2 (sqrt a) (sqrt (1 - a))) ∧
  (∀ lat lng, is_finite (lat * Pi / 180) = false →
              haversineKm lat lng lat lng = nan ∧ haversineKm lat lng lat lng ≠ 0) ∧
  is_finite Samples.lat_1e308 = true ∧
  is_finite (Samples.lat_1e308 * Pi / 180) = false.
Proof using Sin_zero Sin_odd Cos_range Cos_special Atan2_zero_one Atan2_nan.
  split; [|split; [|split; [|split; [|split; [|by vm_compute]]]]].
  - apply haversineKm_diag.
  - intros lat lng Hlo Hhi. apply haversineKm_diag. by apply F64.radians_finite.
  - intros lat1 lng1 lat2 lng2. rewrite !haversineKm_unfold.
    rewrite (half_angle_square_sym lat1 lat2).
    rewrite (F64.mul_comm (Cos (lat1 * Pi / 180)) (Cos (lat2 * Pi / 180))).
    by rewrite (longitude_term_sym _ lng1 lng2).
  - reflexivity.
  - intros lat lng Hrad.
    rewrite (haversineKm_nan lat lng lat lng Cos_special Atan2_nan Hrad).
    split; [done|]. apply F64.nan_not_zero.
Qed.

End Haversine.

(** The witness of C8, on stand-ins for the functions of package math that
    have its special cases: a point in Bengaluru, two points a quarter of a
    degree apart, and the latitude 1e308. *)
Lemma haversineKm_zero_and_symmetric_witness :
  haversineKm Samples.sin_stub Samples.cos_special Samples.atan2_stub
    12.5 77.5 12.5 77.5 = 0%float ∧
  haversineKm Samples.sin_stub Samples.cos_special Samples.atan2_stub
    12.5 77.5 12.25 77.75 =
  haversineKm Samples.sin_stub Samples.cos_special Samples.atan2_stub
    12.25 77.75 12.5 77.5 ∧
  haversineKm Samples.sin_stub Samples.cos_special Samples.atan2_stub
    Samples.lat_1e308 77.5 Samples.lat_1e308 77.5 = nan.
Proof.
  destruct (haversineKm_zero_and_symmetric
              Samples.sin_stub Samples.cos_special Samples.atan2_stub
              eq_refl (λ x, eq_refl)
              (λ x H, eq_trans (f_equal (λ b : bool, (abs (if b then 1 else nan) <=? 1)%float) H) eq_refl)
              (λ x H, f_equal (λ b : bool, if b then 1%float else nan) H)
              eq_refl eq_refl)
    as (H0 & _ & Hsym & _ & Hnan & _).
  split; [|split].
  - apply H0; reflexivity.
  - apply Hsym.
  - apply Hnan. reflexivity.
Defined.

(** C8 as stated fails: 1e308 is a finite [float64] latitude, and from the
    point at that latitude to itself the distance is NaN, not 0, whatever
    [Sin] is, as soon as [Cos] and [Atan2] answer NaN where package math
    does; so it is on the stand-ins. *)
Lemma haversineKm_identical_points_not_zero :
  is_finite Samples.lat_1e308 = true ∧
  (∀ (Sin Cos : float → float) (Atan2 : float → float → float) (lng : float),
     (∀ x, is_finite x = false → Cos x = nan) →
     Atan2 nan nan = nan →
     haversineKm Sin Cos Atan2 Samples.lat_1e308 lng Samples.lat_1e308 lng ≠ 0%float) ∧
  haversineKm Samples.sin_stub Samples.cos_special Samples.atan2_stub
    Samples.lat_1e308 77.5 Samples.lat_1e308 77.5 ≠ 0%float.
Proof.
  split; [by vm_compute|]. split.
  - intros Sin Cos Atan2 lng Hcos Hatan.
    rewrite (haversineKm_nan Sin Cos Atan2 _ _ _ _ Hcos Hatan); [|by vm_compute].
    apply F64.nan_not_zero.
  - intros H. apply (f_equal is_nan) in H. by vm_compute in H.
Qed.

(** *** Runs of the ledger *)

Lemma Exec_update_trips set tripID cond p :
  trips (Exec_update set tripID cond p).2 = trips p ∨
  ∃ row, trips p !! tripID = Some row ∧ cond row = true ∧
         trips (Exec_update set tripID cond p).2 = <[tripID := set row]> (trips p).
Proof.
  destruct (Exec_update_cases set tripID cond p)
    as [[_ ->]|[(_ & _ & ->)|(row & _ & Hrow & Hc & ->)]]; [by left..|].
  right. by exists row.
Qed.

Lemma AssignDriver_db s tripID driverID :
  db (AssignDriver tripID driverID s).2 = (update_assign driverID tripID (db s)).2.
Proof.
  unfold AssignDriver, mbind, M_bind, bind, Exec.
  destruct (update_assign driverID tripID (db s)) as [[n|e] p]; simpl; [|done].
  destruct (Nat.eqb n 0); simpl; [done|].
  unfold GetByID. simpl. by destruct (QueryRow tripID p).
Qed.

Lemma Start_db s tripID now :
  db (Start tripID now s).2 = (update_start now tripID (db s)).2.
Proof.
  unfold Start, mbind, M_bind, bind, Exec.
  destruct (update_start now tripID (db s)) as [[n|e] p]; simpl; [|done].
  destruct (Nat.eqb n 0); simpl; [done|].
  unfold GetByID. simpl. by destruct (QueryRow tripID p).
Qed.

Lemma lifecycle_no_matching : StatusMatching ∉ lifecycle.
Proof. unfold lifecycle. rewrite !not_elem_of_cons. repeat split; try done. apply not_elem_of_nil. Qed.

Lemma next_status_lifecycle a b : next_status a = Some b → b ∈ lifecycle.
Proof. unfold lifecycle. destruct a; intros [= <-]; set_solver. Qed.

Lemma trips_step_moves m m' id :
  trips_step m m' → moves (Status <$> m !! id) (Status <$> m' !! id).
Proof.
  intros [->|[(id' & row & Hnone & Hst & ->)|(id' & old & new & Hold & -> & Hst)]].
  - destruct (m !! id); simpl; by left.
  - destruct (decide (id' = id)) as [->|Hne].
    + rewrite Hnone, lookup_insert_eq. simpl. right. by rewrite Hst.
    + rewrite lookup_insert_ne by done. destruct (m !! id); simpl; by left.
  - destruct (decide (id' = id)) as [->|Hne].
    + rewrite Hold, lookup_insert_eq. simpl. destruct Hst as [->|Hst]; [by left|].
      right. by exists (Status new).
    + rewrite lookup_insert_ne by done. destruct (m !! id); simpl; by left.
Qed.

Lemma trips_step_lifecycle m m' :
  trips_step m m' →
  (∀ id row, m !! id = Some row → Status row ∈ lifecycle) →
  (∀ id row, m' !! id = Some row → Status row ∈ lifecycle).
Proof.
  intros Hstep Hall id row Hrow.
  pose proof (trips_step_moves m m' id Hstep) as Hm. rewrite Hrow in Hm. simpl in Hm.
  destruct (m !! id) as [old|] eqn:Hold; simpl in Hm.
  - destruct Hm as [[= ->]|(b & Hb & [= ->])]; [by eapply Hall|].
    by eapply next_status_lifecycle.
  - destruct Hm as [|[= ->]]; [done|]. unfold lifecycle. set_solver.
Qed.

Lemma trips_step_started m m' id row :
  trips_step m m' → m !! id = Some row →
  Status row = StatusStarted ∨ Status row = StatusCompleted →
  ∃ row', m' !! id = Some row' ∧
          (Status row' = StatusStarted ∨ Status row' = StatusCompleted).
Proof.
  intros Hstep Hrow Hst.
  pose proof (trips_step_moves m m' id Hstep) as Hm. rewrite Hrow in Hm. simpl in Hm.
  destruct (m' !! id) as [row'|] eqn:Hrow'; simpl in Hm.
  - exists row'. split; [done|].
    destruct Hm as [[= ->]|(b & Hb & [= ->])]; [done|].
    destruct Hst as [Hst|Hst]; rewrite Hst in Hb; simpl in Hb; [|done].
    injection Hb as <-. by right.
  - by destruct Hm as [|(b & _ & ?)].
Qed.

Section Runs.

Variables Sin Cos : float → float.
Variable Atan2 : float → float → float.
Variable FormatRFC3339 : Time → string.
Variable SubSeconds : Time → Time → Z.
Variable Unmarshal : list Byte.byte → result Events.DriverAssignedEvent.

Local Abbreviation Request := (Trips.Request FormatRFC3339).
Local Abbreviation End_check := (Trips.End_check Sin Cos Atan2).
Local Abbreviation End_commit := (Trips.End_commit FormatRFC3339 SubSeconds).
Local Abbreviation End := (Trips.End Sin Cos Atan2 FormatRFC3339 SubSeconds).
Local Abbreviation DriverAssigned_handler := (Trips.DriverAssigned_handler Unmarshal).
Local Abbreviation exec :=
  (Trips.exec Sin Cos Atan2 FormatRFC3339 SubSeconds Unmarshal).
Local Abbreviation states :=
  (Trips.states Sin Cos Atan2 FormatRFC3339 SubSeconds Unmarshal).

Lemma End_check_state s tripID distKm : (End_check tripID distKm s).2 = s.
Proof.
  unfold Trips.End_check, GetByID, mbind, M_bind, bind.
  destruct (QueryRow tripID (db s)) as [row|e]; simpl; [|done].
  by destruct (bool_decide (Status row ≠ StatusStarted)).
Qed.

Lemma End_commit_db s tripID trip fare now :
  db (End_commit tripID trip fare now s).2 = (update_end fare now tripID (db s)).2.
Proof.
  unfold Trips.End_commit, mbind, M_bind, bind, Exec, go_Publish.
  destruct (update_end fare now tripID (db s)) as [[n|e] p]; simpl; [|done].
  unfold GetByID. simpl. by destruct (QueryRow tripID p).
Qed.

Lemma DriverAssigned_handler_db s data :
  db (DriverAssigned_handler data s).2 = db s ∨
  ∃ ev, db (DriverAssigned_handler data s).2 =
          (update_assign (Events.da_DriverID ev) (Events.da_TripID ev) (db s)).2.
Proof.
  unfold Trips.DriverAssigned_handler.
  destruct (Unmarshal data) as [ev|e]; [|by left].
  right. exists ev. unfold Exec, log_Printf. simpl.
  by destruct (update_assign _ _ (db s)) as [[n|e] p].
Qed.

Lemma Request_db s id now riderID req :
  trips (db (Request id now riderID req s).2) = trips (db s) ∨
  ∃ row, trips (db s) !! id = None ∧ Status row = StatusRequested ∧
         trips (db (Request id now riderID req s).2) = <[id := row]> (trips (db s)).
Proof.
  unfold Trips.Request, mbind, M_bind, bind, Exec, Exec_insert, go_Publish. simpl.
  destruct (reachable (db s)); simpl; [|by left].
  destruct (trips (db s) !! id) eqn:Hid; simpl; [by left|].
  right. eexists. split; [done|]. split; [|done]. done.
Qed.

(** A conditional UPDATE to [StatusDriverAssigned] moves a row of the lifecycle
    one status on. *)
Lemma update_assign_step p driverID tripID :
  (∀ id row, trips p !! id = Some row → Status row ∈ lifecycle) →
  trips_step (trips p) (trips (update_assign driverID tripID p).2).
Proof.
  intros Hall. unfold update_assign.
  destruct (Exec_update_trips (set_driver_status driverID StatusDriverAssigned)
              tripID (status_in StatusRequested StatusMatching) p)
    as [->|(row & Hrow & Hc & ->)]; [by left|].
  right; right. exists tripID, row, (set_driver_status driverID StatusDriverAssigned row).
  split; [done|]. split; [done|]. right. simpl.
  apply status_in_true in Hc as [->| Hm]; [done|].
  specialize (Hall _ _ Hrow). rewrite Hm in Hall. by apply lifecycle_no_matching in Hall.
Qed.

Lemma update_start_step p now tripID :
  trips_step (trips p) (trips (update_start now tripID p).2).
Proof.
  unfold update_start.
  destruct (Exec_update_trips (set_status_started_at StatusStarted now)
              tripID (status_is StatusDriverAssigned) p)
    as [->|(row & Hrow & Hc & ->)]; [by left|].
  right; right. exists tripID, row, (set_status_started_at StatusStarted now row).
  split; [done|]. split; [done|]. right. simpl.
  apply status_is_true in Hc. by rewrite Hc.
Qed.

(** The unconditional UPDATE of [End] stays on the lifecycle as long as the
    row it hits is started or completed. *)
Lemma update_end_step p fare now tripID :
  (∀ row, trips p !! tripID = Some row →
          Status row = StatusStarted ∨ Status row = StatusCompleted) →
  trips_step (trips p) (trips (update_end fare now tripID p).2).
Proof.
  intros Hst. unfold update_end.
  destruct (Exec_update_trips (set_status_fare_completed_at StatusCompleted fare now)
              tripID any_status p)
    as [->|(row & Hrow & Hc & ->)]; [by left|].
  right; right.
  exists tripID, row, (set_status_fare_completed_at StatusCompleted fare now row).
  split; [done|]. split; [done|]. simpl.
  destruct (Hst _ Hrow) as [->| ->]; [by right|by left].
Qed.

Lemma exec_trips_step sys st :
  ledger_inv sys →
  trips_step (trips (db (svc sys))) (trips (db (svc (exec sys st)))).
Proof.
  intros [Hall Hfl]. destruct st; simpl.
  - destruct (Request_db (svc sys) id now riderID req) as [->|(row & Hnone & Hst & ->)];
      [by left|].
    right; left. by exists id, row.
  - rewrite AssignDriver_db. by apply update_assign_step.
  - rewrite Start_db. apply update_start_step.
  - unfold Trips.End, mbind, M_bind, bind.
    destruct (End_check tripID distKm (svc sys)) as [[[trip fare]|e] s'] eqn:Hck.
    + apply End_check_Ok_inv in Hck as (-> & _ & Hrow & Hst & _).
      rewrite End_commit_db. apply update_end_step.
      intros row Hrow'. rewrite Hrow in Hrow'. injection Hrow' as <-. by left.
    + pose proof (End_check_state (svc sys) tripID distKm) as Hs.
      rewrite Hck in Hs. simpl in Hs. subst s'. by left.
  - pose proof (End_check_state (svc sys) tripID distKm) as Hs.
    destruct (End_check tripID distKm (svc sys)) as [[[trip fare]|e] s'];
      simpl in *; subst s'; by left.
  - destruct (in_flight sys !! k) as [[[tripID trip] fare]|] eqn:Hk; simpl; [|by left].
    rewrite End_commit_db. apply update_end_step.
    intros row Hrow.
    destruct (Hfl tripID trip fare) as (row' & Hrow' & Hst).
    { by eapply list_elem_of_lookup_2. }
    rewrite Hrow in Hrow'. by injection Hrow' as <-.
  - destruct (DriverAssigned_handler_db (svc sys) data) as [->|[ev ->]]; [by left|].
    by apply update_assign_step.
  - by left.
Qed.

Lemma exec_in_flight sys st x :
  x ∈ in_flight (exec sys st) →
  x ∈ in_flight sys ∨
  (trips (db (svc sys)) !! x.1.1 = Some x.1.2 ∧ Status x.1.2 = StatusStarted).
Proof.
  destruct st; simpl; try by left.
  - destruct (End_check tripID distKm (svc sys)) as [[[trip fare]|e] s'] eqn:Hck;
      simpl; [|by left].
    apply End_check_Ok_inv in Hck as (-> & _ & Hrow & Hst & _).
    rewrite elem_of_app, list_elem_of_singleton. intros [?| ->]; [by left|by right].
  - destruct (in_flight sys !! k) as [[[tripID trip] fare]|]; simpl; [|by left].
    intros Hin. left. by eapply list_elem_of_delete_inv.
Qed.

Lemma exec_ledger_inv sys st : ledger_inv sys → ledger_inv (exec sys st).
Proof.
  intros Hinv. pose proof (exec_trips_step sys st Hinv) as Hstep.
  destruct Hinv as [Hall Hfl]. split.
  - by eapply trips_step_lifecycle.
  - intros id trip fare Hin.
    apply exec_in_flight in Hin as [Hin|[Hrow Hst]]; simpl in *.
    + destruct (Hfl _ _ _ Hin) as (row & Hrow & Hst).
      by eapply trips_step_started.
    + eapply trips_step_started; [done..|by left].
Qed.

(** C1, on the code.  [AssignDriver] and [Start] send an UPDATE that is
    conditional on the status of the row; [End] tests the status on a copy it
    read before and then sends an UPDATE that is conditional on the id alone.
    Two [End] calls on one started trip, the second passing its test before
    the first has sent its UPDATE, both go through: the second UPDATE hits a
    row that is already [StatusCompleted] and rewrites its fare and its
    completion time. *)
Theorem End_update_ignores_status :
  let sys0 := mkSystem Samples.ledger_started [] in
  let sys3 := foldl exec sys0
                [DoEndCheck "t1" (Some 10%float); DoEndCheck "t1" (Some 20%float);
                 DoEndCommit 0 300] in
  let sys4 := exec sys3 (DoEndCommit 0 400) in
  let row n := (λ t, (Status t, Fare t, CompletedAt t)) <$> trips (db (svc n)) !! "t1" in
  row sys0 = Some (StatusStarted, None, None) ∧
  row sys3 = Some (StatusCompleted, Some 170%float, Some 300) ∧
  row sys4 = Some (StatusCompleted, Some 290%float, Some 400) ∧
  length (spawned (svc sys4)) = 2%nat ∧
  (∀ p tripID fare now row,
     reachable p = true → trips p !! tripID = Some row →
     update_end fare now tripID p =
       (Ok 1%nat,
        mkPool true
          (<[tripID := set_status_fare_completed_at StatusCompleted fare now row]>
             (trips p)))).
Proof.
  repeat split; try by vm_compute.
  intros p tripID fare now row Hup Hrow.
  unfold update_end, Exec_update. by rewrite Hup, Hrow.
Qed.

(** The sibling statements are compare-and-swap: on a row in another status
    they affect nothing. *)
Lemma update_assign_cas p driverID tripID row :
  reachable p = true → trips p !! tripID = Some row →
  Status row ≠ StatusRequested → Status row ≠ StatusMatching →
  update_assign driverID tripID p = (Ok 0%nat, p).
Proof.
  intros Hup Hrow H1 H2. unfold update_assign, Exec_update. rewrite Hup, Hrow.
  destruct (status_in StatusRequested StatusMatching row) eqn:Hc; [|done].
  apply status_in_true in Hc. tauto.
Qed.

Lemma update_start_cas p now tripID row :
  reachable p = true → trips p !! tripID = Some row →
  Status row ≠ StatusDriverAssigned →
  update_start now tripID p = (Ok 0%nat, p).
Proof.
  intros Hup Hrow H1. unfold update_start, Exec_update. rewrite Hup, Hrow.
  destruct (status_is StatusDriverAssigned row) eqn:Hc; [|done].
  by apply status_is_true in Hc.
Qed.

Lemma empty_system_inv : ledger_inv empty_system.
Proof.
  split.
  - intros id row. simpl. by rewrite lookup_empty.
  - intros id trip fare. simpl. by intros ?%elem_of_nil.
Qed.

Lemma lifecycle_from_next a b :
  next_status a = Some b → lifecycle_from a = a :: lifecycle_from b.
Proof. by destruct a; intros [= <-]. Qed.

Lemma lifecycle_from_head a : a ∈ lifecycle → ∃ l, lifecycle_from a = a :: l.
Proof.
  unfold lifecycle. rewrite !elem_of_cons, elem_of_nil.
  intros [->|[->|[->|[->|[]]]]]; simpl; eauto.
Qed.

Lemma next_status_ne a b : next_status a = Some b → a ≠ b.
Proof. by destruct a; intros [= <-]. Qed.

Lemma changes_path a l :
  a ∈ lifecycle → path a l → changes (a :: l) `prefix_of` lifecycle_from a.
Proof.
  revert a. induction l as [|b l IH]; intros a Ha Hp.
  - destruct (lifecycle_from_head a Ha) as [l' ->]. simpl.
    apply prefix_cons, prefix_nil.
  - destruct Hp as [[->|Hnext] Hp].
    + change (changes (a :: a :: l)) with
        (if bool_decide (a = a) then changes (a :: l) else a :: changes (a :: l)).
      rewrite bool_decide_eq_true_2 by done. by apply IH.
    + change (changes (a :: b :: l)) with
        (if bool_decide (a = b) then changes (b :: l) else a :: changes (b :: l)).
      rewrite bool_decide_eq_false_2 by by apply next_status_ne.
      rewrite (lifecycle_from_next a b Hnext). apply prefix_cons, IH; [|done].
      by eapply next_status_lifecycle.
Qed.

Lemma omap_cons_eq {A B} (f : A → option B) x l :
  omap f (x :: l) = match f x with Some y => y :: omap f l | None => omap f l end.
Proof. done. Qed.

Lemma run_statuses id sts sys :
  ledger_inv sys →
  match status_at id sys with
  | Some a => ∃ l, omap (status_at id) (states sys sts) = a :: l ∧ path a l
  | None => omap (status_at id) (states sys sts) = [] ∨
            ∃ l, omap (status_at id) (states sys sts) = StatusRequested :: l ∧
                 path StatusRequested l
  end.
Proof.
  revert sys. induction sts as [|st sts IH]; intros sys Hinv.
  - simpl. destruct (status_at id sys) as [a|]; [|by left]. by exists [].
  - pose proof (exec_trips_step sys st Hinv) as Hstep.
    apply (trips_step_moves _ _ id) in Hstep.
    specialize (IH (exec sys st) (exec_ledger_inv sys st Hinv)).
    change (Status <$> trips (db (svc sys)) !! id) with (status_at id sys) in Hstep.
    change (Status <$> trips (db (svc (exec sys st))) !! id)
      with (status_at id (exec sys st)) in Hstep.
    change (states sys (st :: sts)) with (sys :: states (exec sys st) sts).
    rewrite omap_cons_eq.
    destruct (status_at id sys) as [a|]; simpl in Hstep.
    + destruct Hstep as [Hsame|(b & Hb & Hmove)].
      * rewrite Hsame in IH. destruct IH as (l & -> & Hp).
        exists (a :: l). split; [done|]. split; [by left|done].
      * rewrite Hmove in IH. destruct IH as (l & -> & Hp).
        exists (b :: l). split; [done|]. split; [by right|done].
    + destruct Hstep as [Hsame|Hnew].
      * by rewrite Hsame in IH.
      * rewrite Hnew in IH. by right.
Qed.

(** C6.  Along any sequence of ledger operations on a ledger that starts
    empty (requests, assignments, starts, ends, whole or interleaved with
    other calls, driver.assigned deliveries, pool outages), the statuses
    observed for a trip, repetitions dropped, are a prefix of
    REQUESTED, DRIVER_ASSIGNED, STARTED, COMPLETED. *)
Theorem observed_statuses_follow_lifecycle (sts : list step) (tripID : string) :
  observed tripID (states empty_system sts) `prefix_of` lifecycle.
Proof.
  unfold observed.
  pose proof (run_statuses tripID sts empty_system empty_system_inv) as H.
  change (status_at tripID empty_system) with (@None TripStatus) in H.
  destruct H as [->|(l & -> & Hp)]; [apply prefix_nil|].
  apply (changes_path StatusRequested l); [|done].
  unfold lifecycle. apply elem_of_cons. by left.
Qed.

End Runs.

(** A whole ride: the four statuses are observed, in order. *)
Example observed_whole_ride :
  observed "t1"
    (states Samples.sin_stub Samples.cos_stub Samples.atan2_stub
       Samples.format_stub Samples.seconds_stub Samples.decode_assignment
       empty_system
       [DoRequest "t1" 100 "rider-1" (mkTripRequest 12.5 77.5 12.25 77.75);
        DoDriverAssigned []; DoAssignDriver "t1" "driver-2";
        DoStart "t1" 200; DoEnd "t1" (Some 25.5%float) 300;
        DoEnd "t1" None 400])
  = lifecycle.
Proof. by vm_compute. Qed.

End TripsFacts.

(** ** Geo registry *)

Module RedisFacts.
Import Redis.

Local Open Scope float_scope.

Lemma insert_by_distance_perm x l : insert_by_distance x l ≡ₚ x :: l.
Proof.
  induction l as [|y l IH]; simpl; [done|].
  destruct (x.2 <=? y.2); [done|]. rewrite IH. apply Permutation_swap.
Qed.

Lemma sort_by_distance_perm l : sort_by_distance l ≡ₚ l.
Proof.
  induction l as [|x l IH]; simpl; [done|].
  rewrite insert_by_distance_perm. by rewrite IH.
Qed.

Lemma ascending_cons d ds :
  ascending (d :: ds) ↔
  match ds with [] => True | d' :: _ => (d <=? d') = true end ∧ ascending ds.
Proof. done. Qed.

Lemma insert_by_distance_ascending r x l :
  (x.2 <=? r) = true →
  Forall (λ m : measured, (m.2 <=? r) = true) l →
  ascending (l.*2) →
  ascending ((insert_by_distance x l).*2).
Proof.
  intros Hx. induction l as [|y l IH]; intros Hall Hasc; [done|].
  apply Forall_cons in Hall as [Hy Hall]. simpl.
  destruct (x.2 <=? y.2) eqn:Hxy.
  - rewrite !fmap_cons. apply ascending_cons. split; [done|]. exact Hasc.
  - rewrite fmap_cons in Hasc |- *. apply ascending_cons in Hasc as [Hhd Hasc].
    apply ascending_cons. split; [|by apply IH].
    assert (Hyx : (y.2 <=? x.2) = true).
    { destruct (F64.leb_total_below _ _ _ _ Hx Hy) as [H|H]; [congruence|done]. }
    destruct l as [|z l]; simpl; [done|].
    destruct (x.2 <=? z.2); simpl; [done|]. exact Hhd.
Qed.

Lemma sort_by_distance_ascending r l :
  Forall (λ m : measured, (m.2 <=? r) = true) l →
  ascending ((sort_by_distance l).*2).
Proof.
  induction l as [|x l IH]; intros Hall; [done|].
  apply Forall_cons in Hall as [Hx Hall]. simpl.
  apply (insert_by_distance_ascending r); [done| |by apply IH].
  by rewrite sort_by_distance_perm.
Qed.

Lemma ascending_take n ds : ascending ds → ascending (take n ds).
Proof.
  revert ds. induction n as [|n IH]; intros [|d ds]; try done.
  intros [Hhd Hasc]%ascending_cons. simpl. apply ascending_cons.
  split; [|by apply IH]. destruct ds as [|d' ds]; [by destruct n|].
  by destruct n.
Qed.

(** In a non-decreasing list every element is at most every later one. *)
Lemma ascending_head d ds :
  ascending (d :: ds) → Forall (λ d', (d <=? d') = true) ds.
Proof.
  revert d. induction ds as [|d1 ds IH]; intros d; [done|].
  intros [Hhd Hasc]%ascending_cons. apply Forall_cons. split; [done|].
  eapply Forall_impl; [by apply IH|]. intros d' Hd'. simpl in Hd'.
  by apply (F64.leb_trans d d1 d').
Qed.

Lemma ascending_app ds1 ds2 d1 d2 :
  ascending (ds1 ++ ds2) → d1 ∈ ds1 → d2 ∈ ds2 → (d1 <=? d2) = true.
Proof.
  induction ds1 as [|d ds1 IH]; intros Hasc Hin1 Hin2; [by apply elem_of_nil in Hin1|].
  apply elem_of_cons in Hin1 as [->|Hin1].
  - apply ascending_head in Hasc. rewrite Forall_forall in Hasc.
    apply Hasc, elem_of_app. by right.
  - apply IH; [|done|done]. simpl in Hasc. by apply ascending_cons in Hasc as [_ ?].
Qed.

(** The names of the members of a set, measured, are the keys of the set. *)
Lemma measured_names geodist lng lat (l : list (string * (float * float))) :
  (Redis.measure geodist lng lat <$> l).*1 = l.*1.
Proof. induction l as [|x l IH]; [done|]. rewrite !fmap_cons. simpl. by f_equal. Qed.

Lemma filter_names_NoDup (P : measured → bool) (l : list measured) :
  NoDup (l.*1) → NoDup ((List.filter P l).*1).
Proof.
  induction l as [|x l IH]; simpl; [done|].
  intros [Hx Hl]%NoDup_cons. specialize (IH Hl).
  destruct (P x); simpl; [|done]. apply NoDup_cons. split; [|done].
  intros Hin. apply Hx. apply list_elem_of_fmap in Hin as (y & Hy & Hin).
  apply list_elem_of_fmap. exists y. split; [done|].
  apply list_elem_of_In in Hin. apply List.filter_In in Hin as [Hin _].
  by apply list_elem_of_In.
Qed.

Section Search.

Variable geodist : float → float → float → float → float.

Local Abbreviation GEOSEARCH := (Redis.GEOSEARCH geodist).
Local Abbreviation GetNearbyDrivers := (Redis.GetNearbyDrivers geodist).
Local Abbreviation distance_of := (Redis.distance_of geodist).
Local Abbreviation measure := (Redis.measure geodist).

Local Abbreviation near := (Redis.near geodist).

(** The members within the radius of a search, before they are put in order:
    each is registered, at the distance measured, and within the radius; and
    every registered member within the radius is one of them. *)
Lemma near_members set lng lat radiusKm (m : measured) :
  m ∈ near set lng lat radiusKm ↔
  (m.2 <=? radiusKm) = true ∧
  ∃ pos, set !! m.1 = Some pos ∧ m.2 = geodist pos.1 pos.2 lng lat.
Proof.
  unfold Redis.near. rewrite list_elem_of_In, List.filter_In, <- list_elem_of_In. split.
  - intros [Hin Hle]. split; [done|].
    apply list_elem_of_fmap in Hin as ([id pos] & -> & Hin).
    apply elem_of_map_to_list in Hin. by exists pos.
  - intros (Hle & pos & Hpos & Hd). split; [|done].
    apply list_elem_of_fmap. exists (m.1, pos). split.
    + unfold Redis.measure. simpl. rewrite <- Hd. by destruct m.
    + by apply elem_of_map_to_list.
Qed.

Lemma near_NoDup set lng lat radiusKm : NoDup ((near set lng lat radiusKm).*1).
Proof.
  unfold Redis.near. apply filter_names_NoDup.
  apply (eq_ind_r NoDup (NoDup_fst_map_to_list set)).
  apply measured_names.
Qed.

(** What [GEOSEARCH] answers to the query of [GetNearbyDrivers] with a
    positive count. *)
Lemma GEOSEARCH_nearest set lng lat radiusKm count :
  (0 < count)%Z →
  GEOSEARCH set (Redis.mkGeoSearchQuery lng lat radiusKm UnitKM count SortASC) =
    take (Z.to_nat count) (sort_by_distance (near set lng lat radiusKm)).
Proof.
  intros Hcount. unfold Redis.GEOSEARCH. simpl.
  destruct (Z.ltb_spec 0 count); [done|lia].
Qed.

Lemma GetNearbyDrivers_reachable c lat lng radiusKm count :
  reachable c = true →
  GetNearbyDrivers lat lng radiusKm count c =
    Ok ((GEOSEARCH (driver_locations c)
           (Redis.mkGeoSearchQuery lng lat radiusKm UnitKM count SortASC)).*1).
Proof. intros Hup. unfold Redis.GetNearbyDrivers, Redis.GeoSearch. by rewrite Hup. Qed.


End Search.


(** Three drivers, two of them within 5 km: the nearer one comes first, and
    with a limit of 1 it comes alone. *)
Example GetNearbyDrivers_two_in_range :
  let c := Redis.mkClient true
             {[ "far" := (77.5, 22.5); "near" := (77.5, 12.75);
                "nearest" := (77.5, 12.5) ]}%float in
  Redis.GetNearbyDrivers Samples.taxicab 12.5 77.5 5 10 c = Ok ["nearest"; "near"] ∧
  Redis.GetNearbyDrivers Samples.taxicab 12.5 77.5 5 1 c = Ok ["nearest"] ∧
  Redis.GetNearbyDrivers Samples.taxicab 62.5 77.5 5 1 c = Ok [].
Proof. by vm_compute. Qed.

End RedisFacts.

(** ** Event bus client *)

Module KafkaFacts.
Import Kafka.

Section Loop.

Context {Reader W : Type}.
Variable ReadMessage : Reader → read * Reader.
Variable logf : log_line → W → W.

Local Abbreviation Subscribe := (Kafka.Subscribe ReadMessage logf).

(** One turn on a delivered message: the handler runs once on its payload,
    an error it returns is logged, and the loop goes on from the reader as
    [ReadMessage] left it. *)
Lemma Subscribe_turn n topic handler r r' msg w :
  ReadMessage r = (Delivered msg, r') →
  Subscribe (S n) topic handler r w =
    Subscribe n topic handler r'
      match handler (Value msg) w with
      | (Some err, w') =>
          logf (Printf "[kafka] handler error on %s: %v" [LStr topic; LErr err]) w'
      | (None, w') => w'
      end.
Proof.
  intros Hread. simpl. rewrite Hread.
  by destruct (handler (Value msg) w) as [[err|] w'].
Qed.

(** Where the reader stands after [n] turns does not depend on the handler,
    nor on what the handler works on. *)
Lemma Subscribe_reader_independent n topic h1 h2 r w1 w2 :
  (Subscribe n topic h1 r w1).1 = (Subscribe n topic h2 r w2).1.
Proof.
  revert r w1 w2. induction n as [|n IH]; intros r w1 w2; [done|].
  simpl. destruct (ReadMessage r) as [[msg|err [|]] r']; [|done|apply IH].
  destruct (h1 (Value msg) w1) as [[e1|] w1'], (h2 (Value msg) w2) as [[e2|] w2'];
    apply IH.
Qed.

End Loop.

End KafkaFacts.

(** ** Matching consumer *)

Module MatchingFacts.
Import Matching.

Section Handler.

Variable geodist : float → float → float → float → float.
Variable Marshal : Events.event → result (list Byte.byte).
Variable Unmarshal : list Byte.byte → result Events.RideRequestedEvent.

Local Abbreviation handler := (Matching.handler geodist Marshal Unmarshal).
Local Abbreviation handler_merged := (Matching.handler_merged geodist Marshal Unmarshal).
Local Abbreviation Start := (Matching.Start geodist Marshal Unmarshal).

Lemma handler_malformed data err m :
  Unmarshal data = Fail err → handler data m = (Some err, m).
Proof. intros H. unfold Matching.handler. by rewrite H. Qed.

Lemma handler_merged_malformed data err m :
  Unmarshal data = Fail err → handler_merged data m = (Some err, m).
Proof. intros H. unfold Matching.handler_merged. by rewrite H. Qed.

Lemma handler_store_error data ev err m :
  Unmarshal data = Ok ev →
  Redis.GetNearbyDrivers geodist (Events.Lat (Events.rr_Pickup ev))
    (Events.Lng (Events.rr_Pickup ev)) 5 1 (redis m) = Fail err →
  (handler data m).1 = Some err ∧
  kafka (handler data m).2 = kafka m ∧ redis (handler data m).2 = redis m.
Proof.
  intros Hev Hq. unfold Matching.handler. rewrite Hev. simpl. by rewrite Hq.
Qed.

Lemma handler_no_driver data ev m :
  Unmarshal data = Ok ev →
  Redis.GetNearbyDrivers geodist (Events.Lat (Events.rr_Pickup ev))
    (Events.Lng (Events.rr_Pickup ev)) 5 1 (redis m) = Ok [] →
  (handler data m).1 = None ∧
  kafka (handler data m).2 = kafka m ∧ redis (handler data m).2 = redis m.
Proof.
  intros Hev Hq. unfold Matching.handler. rewrite Hev. simpl. by rewrite Hq.
Qed.

Lemma handler_merged_store_error data ev err m :
  Unmarshal data = Ok ev →
  Redis.GetNearbyDrivers geodist (Events.Lat (Events.rr_Pickup ev))
    (Events.Lng (Events.rr_Pickup ev)) 5 1 (redis m) = Fail err →
  (handler_merged data m).1 = None.
Proof.
  intros Hev Hq. unfold Matching.handler_merged. rewrite Hev. simpl. by rewrite Hq.
Qed.

(** A store that cannot be reached answers every query with its error. *)
Lemma GetNearbyDrivers_unreachable lat lng radiusKm count c :
  Redis.reachable c = false →
  Redis.GetNearbyDrivers geodist lat lng radiusKm count c = Fail Redis.unreachable.
Proof. intros H. unfold Redis.GetNearbyDrivers, Redis.GeoSearch. by rewrite H. Qed.

(** C2, on the code.  When the geo query fails the handler returns the store's
    error, and when the query comes back empty it returns nil; but the
    consumer loop does the same with both, apart from a log line: it goes on
    from the reader as [ReadMessage] left it, so the reader is in the same
    state after a failed message as after an unmatched one, whatever number of
    turns follows.  (In the revision of matcher.go the handler returns nil in
    both cases.) *)
Theorem store_error_consumed_like_no_driver
  {Reader : Type} (ReadMessage : Reader → Kafka.read * Reader)
  (r r' : Reader) (msg : Kafka.Message) (ev : Events.RideRequestedEvent)
  (err : error) (m_down m_idle : Matcher) :
  ReadMessage r = (Kafka.Delivered msg, r') →
  Unmarshal (Kafka.Value msg) = Ok ev →
  Redis.GetNearbyDrivers geodist (Events.Lat (Events.rr_Pickup ev))
    (Events.Lng (Events.rr_Pickup ev)) 5 1 (redis m_down) = Fail err →
  Redis.GetNearbyDrivers geodist (Events.Lat (Events.rr_Pickup ev))
    (Events.Lng (Events.rr_Pickup ev)) 5 1 (redis m_idle) = Ok [] →
  (handler (Kafka.Value msg) m_down).1 = Some err ∧
  (handler (Kafka.Value msg) m_idle).1 = None ∧
  (handler_merged (Kafka.Value msg) m_down).1 = None ∧
  (∀ n, Start ReadMessage (S n) r m_down =
        Start ReadMessage n r'
          (log_Printf
             (Printf "[kafka] handler error on %s: %v"
                [LStr Kafka.TopicRideRequested; LErr err])
             (handler (Kafka.Value msg) m_down).2)) ∧
  (∀ n, Start ReadMessage (S n) r m_idle =
        Start ReadMessage n r' (handler (Kafka.Value msg) m_idle).2) ∧
  (∀ n, (Start ReadMessage n r m_down).1 = (Start ReadMessage n r m_idle).1).
Proof.
  intros Hread Hev Hdown Hidle.
  destruct (handler_store_error _ _ _ _ Hev Hdown) as (Herr & _ & _).
  destruct (handler_no_driver _ _ _ Hev Hidle) as (Hnil & _ & _).
  split; [done|]. split; [done|].
  split; [by eapply handler_merged_store_error|].
  split; [|split].
  - intros n. unfold Matching.Start.
    rewrite (KafkaFacts.Subscribe_turn _ _ _ _ _ _ _ msg _ Hread).
    destruct (handler (Kafka.Value msg) m_down) as [[e|] m'] eqn:Hh;
      simpl in Herr; [|done]. by injection Herr as ->.
  - intros n. unfold Matching.Start.
    rewrite (KafkaFacts.Subscribe_turn _ _ _ _ _ _ _ msg _ Hread).
    by destruct (handler (Kafka.Value msg) m_idle) as [[e|] m'] eqn:Hh.
  - intros n. apply KafkaFacts.Subscribe_reader_independent.
Qed.

(** C3, as amended.  On a payload that does not deserialize the handler
    returns the decoder's error and does nothing else: no query, nothing
    published, nothing logged.  The consumer loop logs that error and goes on
    from the reader as [ReadMessage] left it; it does not hand the message to
    the handler again. *)
Theorem malformed_payload_reported_and_passed_over
  (data : list Byte.byte) (err : error) (m : Matcher) :
  Unmarshal data = Fail err →
  handler data m = (Some err, m) ∧
  handler_merged data m = (Some err, m) ∧
  ∀ (Reader : Type) (ReadMessage : Reader → Kafka.read * Reader) r r' msg n,
    ReadMessage r = (Kafka.Delivered msg, r') → Kafka.Value msg = data →
    Start ReadMessage (S n) r m =
      Start ReadMessage n r'
        (log_Printf
           (Printf "[kafka] handler error on %s: %v"
              [LStr Kafka.TopicRideRequested; LErr err]) m).
Proof.
  intros Hbad. split; [by apply handler_malformed|].
  split; [by apply handler_merged_malformed|].
  intros Reader ReadMessage r r' msg n Hread <-. unfold Matching.Start.
  rewrite (KafkaFacts.Subscribe_turn _ _ _ _ _ _ _ msg _ Hread).
  by rewrite (handler_malformed _ _ _ Hbad).
Qed.

End Handler.

(** The witness of C2: two messages, a store that cannot be reached. *)
Lemma store_error_consumed_like_no_driver_witness :
  (Matching.handler Samples.taxicab Samples.encode_empty Samples.decode_ride_1
     (Kafka.Value Samples.msg_1) Samples.matcher_store_down).1
    = Some Redis.unreachable ∧
  (Matching.handler Samples.taxicab Samples.encode_empty Samples.decode_ride_1
     (Kafka.Value Samples.msg_1) Samples.matcher_no_driver).1 = None ∧
  ∀ n,
    (Matching.Start Samples.taxicab Samples.encode_empty Samples.decode_ride_1
       Samples.ListReader_ReadMessage n
       (Samples.mkListReader [Samples.msg_1; Samples.msg_2] 0)
       Samples.matcher_store_down).1 =
    (Matching.Start Samples.taxicab Samples.encode_empty Samples.decode_ride_1
       Samples.ListReader_ReadMessage n
       (Samples.mkListReader [Samples.msg_1; Samples.msg_2] 0)
       Samples.matcher_no_driver).1.
Proof.
  destruct (store_error_consumed_like_no_driver
              Samples.taxicab Samples.encode_empty Samples.decode_ride_1
              Samples.ListReader_ReadMessage
              (Samples.mkListReader [Samples.msg_1; Samples.msg_2] 0)
              (Samples.mkListReader [Samples.msg_2] 1)
              Samples.msg_1 Samples.ride_1 Redis.unreachable
              Samples.matcher_store_down Samples.matcher_no_driver
              eq_refl eq_refl eq_refl eq_refl)
    as (H1 & H2 & _ & _ & _ & H6).
  exact (conj H1 (conj H2 H6)).
Defined.

(** Both messages are consumed although the handler failed on each: the
    reader has moved past them and the log holds the two errors. *)
Example store_down_two_messages :
  let out := Matching.Start Samples.taxicab Samples.encode_empty Samples.decode_ride_1
               Samples.ListReader_ReadMessage 2
               (Samples.mkListReader [Samples.msg_1; Samples.msg_2] 0)
               Samples.matcher_store_down in
  out.1 = Samples.mkListReader [] 2 ∧
  Kafka.written (kafka out.2) = [] ∧
  List.filter
    (λ l, String.eqb (format l) "[kafka] handler error on %s: %v") (stderr out.2)
  = [Printf "[kafka] handler error on %s: %v"
       [LStr "ride.requested"; LErr (driverError "redis")];
     Printf "[kafka] handler error on %s: %v"
       [LStr "ride.requested"; LErr (driverError "redis")]].
Proof. by vm_compute. Qed.

(** The witness of C3. *)
Lemma malformed_payload_witness :
  Matching.handler Samples.taxicab Samples.encode_empty Samples.decode_nothing
    [] Samples.matcher_no_driver
  = (Some (syntaxError "unexpected end of JSON input"), Samples.matcher_no_driver).
Proof.
  exact (proj1 (malformed_payload_reported_and_passed_over
                  Samples.taxicab Samples.encode_empty Samples.decode_nothing
                  [] (syntaxError "unexpected end of JSON input")
                  Samples.matcher_no_driver eq_refl)).
Defined.

(** C3 as stated fails: on a payload that does not deserialize the handler
    does not return nil. *)
Lemma malformed_payload_not_acknowledged :
  (Matching.handler Samples.taxicab Samples.encode_empty Samples.decode_nothing
     [] Samples.matcher_no_driver).1 ≠ None.
Proof. by vm_compute. Qed.

End MatchingFacts.

(** ** Driver location endpoint *)

Module DriversFacts.
Import Drivers.

Local Open Scope float_scope.

Lemma ValidateCoordinates_out_of_range lat lng :
  (lat <? -90) = true ∨ (90 <? lat) = true ∨
  (lng <? -180) = true ∨ (180 <? lng) = true →
  Validation.ValidateCoordinates lat lng = false.
Proof.
  unfold Validation.ValidateCoordinates.
  intros [H|[H|[H|H]]]; apply F64.ltb_leb_false in H; rewrite H;
    by rewrite ?andb_false_r.
Qed.

Lemma ValidateCoordinates_in_range lat lng :
  (-90 <=? lat) = true ∧ (lat <=? 90) = true ∧
  (-180 <=? lng) = true ∧ (lng <=? 180) = true →
  Validation.ValidateCoordinates lat lng = true.
Proof.
  unfold Validation.ValidateCoordinates. by intros (-> & -> & -> & ->).
Qed.

(** A coordinate that is not a number is out of range too. *)
Lemma ValidateCoordinates_nan lng :
  Validation.ValidateCoordinates nan lng = false.
Proof. unfold Validation.ValidateCoordinates. by vm_compute. Qed.

(** C10.  A location update whose latitude is outside [-90, 90] or whose
    longitude is outside [-180, 180] is answered with 400 "invalid
    coordinates" and the registry is left as it was; a pair within both ranges
    passes [ValidateCoordinates] and goes on to the registry. *)
Theorem UpdateLocation_validates_coordinates
  (Decode : list Byte.byte → result LocationUpdate)
  (id : string) (body : list Byte.byte) (c : Redis.Client) (loc : LocationUpdate) :
  Decode body = Ok loc →
  ((Lat loc <? -90) = true ∨ (90 <? Lat loc) = true ∨
   (Lng loc <? -180) = true ∨ (180 <? Lng loc) = true →
   UpdateLocation Decode id body c =
     (writeJSON 400 [("error", "invalid coordinates")], c)) ∧
  ((-90 <=? Lat loc) = true ∧ (Lat loc <=? 90) = true ∧
   (-180 <=? Lng loc) = true ∧ (Lng loc <=? 180) = true →
   Validation.ValidateCoordinates (Lat loc) (Lng loc) = true ∧
   UpdateLocation Decode id body c =
     if Redis.reachable c
     then (writeJSON 200 [("status", "location_updated")],
           Redis.with_locations (Redis.GeoAdd id (Lng loc) (Lat loc)) c)
     else (writeJSON 500 [("error", Error Redis.unreachable)], c)).
Proof.
  intros Hdec. split.
  - intros Hout. unfold UpdateLocation. rewrite Hdec.
    by rewrite (ValidateCoordinates_out_of_range _ _ Hout).
  - intros Hin. pose proof (ValidateCoordinates_in_range _ _ Hin) as Hv.
    split; [done|]. unfold UpdateLocation. rewrite Hdec, Hv. simpl.
    unfold Service_UpdateLocation, Redis.SetDriverLocation.
    by destruct (Redis.reachable c).
Qed.

(** The witness of C10: latitude 91 is refused, latitude 12.5 is stored. *)
Lemma UpdateLocation_validates_coordinates_witness :
  UpdateLocation (Samples.decode_location (mkLocationUpdate 91 77.5)) "d1" []
    Samples.registry_empty
  = (writeJSON 400 [("error", "invalid coordinates")], Samples.registry_empty) ∧
  UpdateLocation (Samples.decode_location (mkLocationUpdate 12.5 77.5)) "d1" []
    Samples.registry_empty
  = (writeJSON 200 [("status", "location_updated")],
     Redis.mkClient true {[ "d1" := (77.5, 12.5) ]}).
Proof.
  split.
  - apply (UpdateLocation_validates_coordinates
             (Samples.decode_location (mkLocationUpdate 91 77.5)) "d1" []
             Samples.registry_empty (mkLocationUpdate 91 77.5) eq_refl).
    right; left. reflexivity.
  - apply (UpdateLocation_validates_coordinates
             (Samples.decode_location (mkLocationUpdate 12.5 77.5)) "d1" []
             Samples.registry_empty (mkLocationUpdate 12.5 77.5) eq_refl).
    repeat split; reflexivity.
Defined.

End DriversFacts.

(** ** Trip ledger: the other methods, and how the methods compose *)

Module LedgerFacts.
Import Trips.

Lemma Start_Ok_inv s tripID now t s' :
  Start tripID now s = (Ok t, s') →
  ∃ row, reachable (db s) = true ∧ trips (db s) !! tripID = Some row ∧
         Status row = StatusDriverAssigned ∧
         t = set_status_started_at StatusStarted now row ∧
         s' = with_row tripID t s.
Proof.
  intros Hrun. destruct (reachable (db s)) eqn:Hup.
  - destruct (trips (db s) !! tripID) as [row|] eqn:Hrow.
    + destruct (decide (Status row = StatusDriverAssigned)) as [Hst|Hst].
      * rewrite (TripsFacts.Start_starts _ _ _ _ Hup Hrow Hst) in Hrun.
        injection Hrun as <- <-. by exists row.
      * rewrite TripsFacts.Start_conflict in Hrun; [done|done|].
        intros row' Hrow'. rewrite Hrow in Hrow'. by injection Hrow' as <-.
    + rewrite TripsFacts.Start_conflict in Hrun; [done|done|].
      intros row' Hrow'. by rewrite Hrow in Hrow'.
  - by rewrite TripsFacts.Start_unreachable in Hrun.
Qed.

(** X1.  [Start] succeeds only on a trip in [StatusDriverAssigned]; it then
    sets [StatusStarted] and the start time and nothing else, starts no
    goroutine, and a further [Start] on that trip, the pool still answering,
    is refused with the conflict error.  When the UPDATE affects no row,
    [Start] fails with that conflict error and the service is as before. *)
Theorem Start_conditional_update (s : Service) (tripID : string) (now : Time) :
  (∀ t s', Start tripID now s = (Ok t, s') →
     ∃ row, trips (db s) !! tripID = Some row ∧
            Status row = StatusDriverAssigned ∧
            t = set_status_started_at StatusStarted now row ∧
            trips (db s') !! tripID = Some t ∧
            spawned s' = spawned s ∧
            ∀ now', Start tripID now' s' = (Fail conflict_start, s')) ∧
  (reachable (db s) = true →
   (∀ row, trips (db s) !! tripID = Some row → Status row ≠ StatusDriverAssigned) →
   Start tripID now s = (Fail conflict_start, s)).
Proof.
  split.
  - intros t s' Hrun.
    apply Start_Ok_inv in Hrun as (row & Hup & Hrow & Hst & -> & ->).
    exists row. repeat split; try done.
    + unfold with_row. simpl. by rewrite lookup_insert_eq.
    + intros now'. apply TripsFacts.Start_conflict; [done|].
      unfold with_row. simpl. rewrite lookup_insert_eq. by intros ? [= <-].
  - apply TripsFacts.Start_conflict.
Qed.

Section Methods.

Variables Sin Cos : float → float.
Variable Atan2 : float → float → float.
Variable FormatRFC3339 : Time → string.
Variable SubSeconds : Time → Time → Z.
Variable Unmarshal : list Byte.byte → result Events.DriverAssignedEvent.

Local Abbreviation Request := (Trips.Request FormatRFC3339).
Local Abbreviation End_check := (Trips.End_check Sin Cos Atan2).
Local Abbreviation End_commit := (Trips.End_commit FormatRFC3339 SubSeconds).
Local Abbreviation End := (Trips.End Sin Cos Atan2 FormatRFC3339 SubSeconds).
Local Abbreviation distance := (Trips.distance Sin Cos Atan2).
Local Abbreviation completed_event := (Trips.completed_event FormatRFC3339 SubSeconds).
Local Abbreviation requested_event := (Trips.requested_event FormatRFC3339).
Local Abbreviation DriverAssigned_handler := (Trips.DriverAssigned_handler Unmarshal).
Local Abbreviation exec :=
  (Trips.exec Sin Cos Atan2 FormatRFC3339 SubSeconds Unmarshal).
Local Abbreviation states :=
  (Trips.states Sin Cos Atan2 FormatRFC3339 SubSeconds Unmarshal).

(** *** [Request] and [GetByID] *)

Lemma Request_inserts s id now riderID req :
  reachable (db s) = true → trips (db s) !! id = None →
  Request id now riderID req s =
    (Ok (requested_trip id now riderID req),
     with_spawned (requested_event (requested_trip id now riderID req))
       (with_row id (requested_trip id now riderID req) s)).
Proof.
  intros Hup Hfresh. unfold_methods. unfold requested_event, requested_trip.
  break_service s. subst up. by rewrite Hfresh.
Qed.

Lemma Request_refused s id now riderID req :
  reachable (db s) = false ∨ is_Some (trips (db s) !! id) →
  ∃ e, Request id now riderID req s = (Fail e, s).
Proof.
  intros H. unfold_methods. break_service s. destruct up.
  - destruct H as [|[row Hrow]]; [done|]. rewrite Hrow. eauto.
  - eauto.
Qed.

(** X2.  [Request] either returns an error, and then has changed nothing and
    started no goroutine; or the id was free, it returns a trip in
    [StatusRequested] with the id, the rider and the coordinates it was given
    and no driver and no fare, has started one goroutine that publishes
    ride.requested under the trip id, has left every other row alone, and
    [GetByID] then finds a trip with that id, rider, coordinates and status,
    without driver and fare. *)
Theorem Request_inserts_or_changes_nothing
  (s : Service) (id : string) (now : Time) (riderID : string) (req : TripRequest) :
  match Request id now riderID req s with
  | (Ok trip, s') =>
      trips (db s) !! id = None ∧
      trip = requested_trip id now riderID req ∧
      (∃ row, GetByID id s' = (Ok row, s') ∧
              (ID row, RiderID row, DriverID row, Fare row, Status row) =
                (id, riderID, None, None, StatusRequested) ∧
              (PickupLat row, PickupLng row, DropLat row, DropLng row) =
                (req_PickupLat req, req_PickupLng req, req_DropLat req, req_DropLng req)) ∧
      spawned s' = spawned s ++ [requested_event trip] ∧
      (∀ id', id' ≠ id → trips (db s') !! id' = trips (db s) !! id')
  | (Fail e, s') => s' = s
  end.
Proof.
  destruct (reachable (db s)) eqn:Hup.
  - destruct (trips (db s) !! id) as [row|] eqn:Hrow.
    + destruct (Request_refused s id now riderID req) as [e ->]; [|done].
      right. by rewrite Hrow.
    + rewrite (Request_inserts _ _ _ _ _ Hup Hrow).
      repeat split; try done.
      * exists (requested_trip id now riderID req). split; [|done].
        unfold GetByID, QueryRow, with_spawned, with_row. simpl.
        by rewrite Hup, lookup_insert_eq.
      * intros id' Hne. unfold with_spawned, with_row. simpl.
        by rewrite lookup_insert_ne.
  - by destruct (Request_refused s id now riderID req) as [e ->]; [by left|].
Qed.

(** *** [End] *)

(** X3.  [End] on a trip that is not in [StatusStarted] fails with "trip not
    in STARTED state" when it could read the trip, and with "trip not found"
    when it could not, be it that there is no such trip or that the pool did
    not answer; in each case no UPDATE is sent and no goroutine is started. *)
Theorem End_refused_unless_started
  (s : Service) (tripID : string) (distKm : option float) (now : Time) :
  (∀ row, trips (db s) !! tripID = Some row → Status row ≠ StatusStarted) →
  End tripID distKm now s =
    (Fail match trips (db s) !! tripID with
          | Some _ => if reachable (db s) then conflict_end
                      else errorString "trip not found"
          | None => errorString "trip not found"
          end, s).
Proof.
  intros Hst. apply TripsFacts.End_fails_like_check.
  destruct (trips (db s) !! tripID) as [row|] eqn:Hrow.
  - destruct (reachable (db s)) eqn:Hup.
    + apply TripsFacts.End_check_conflict with (row := row); [done|done|].
      by apply Hst.
    + apply TripsFacts.End_check_not_found. by left.
  - apply TripsFacts.End_check_not_found. by right.
Qed.

(** X4.  When [End] goes through, the trip it read at its start was in
    [StatusStarted], and it has started exactly one publishing goroutine, for
    trip.completed under the trip id; the event carries the fare that [End]
    computed and handed to the UPDATE, 50 + 12 x the distance charged, the
    rider of the trip as read, its driver (the empty string when there is
    none) and the seconds since its start (0 when it has no start time). *)
Theorem End_publishes_what_it_charges
  (s : Service) (tripID : string) (distKm : option float) (now : Time)
  (trip : Trip) (s' : Service) :
  End tripID distKm now s = (Ok trip, s') →
  ∃ row ev,
    trips (db s) !! tripID = Some row ∧
    Status row = StatusStarted ∧
    spawned s' = spawned s ++ [(Kafka.TopicTripCompleted, tripID, Events.TripCompleted ev)] ∧
    Events.tc_TripID ev = tripID ∧
    Events.tc_Fare ev = fare_of (distance row distKm) ∧
    Events.tc_RiderID ev = RiderID row ∧
    Events.tc_DriverID ev = default "" (DriverID row) ∧
    Events.tc_DurationSeconds ev = from_option (SubSeconds now) 0 (StartedAt row) ∧
    Status trip = StatusCompleted.
Proof.
  intros Hrun. unfold Trips.End, mbind, M_bind, bind in Hrun.
  destruct (End_check tripID distKm s) as [[[row fare]|e] s1] eqn:Hck; [|done].
  apply TripsFacts.End_check_Ok_inv in Hck as (-> & Hup & Hrow & Hst & ->).
  rewrite (TripsFacts.End_commit_overwrites _ _ _ _ _ _ _ row Hup Hrow) in Hrun.
  injection Hrun as <- <-.
  eexists row, _. by repeat split.
Qed.

(** *** The driver.assigned consumer *)

Lemma update_assign_twice p driverID tripID :
  (update_assign driverID tripID (update_assign driverID tripID p).2).2 =
  (update_assign driverID tripID p).2.
Proof.
  unfold update_assign.
  destruct (TripsFacts.Exec_update_cases
              (set_driver_status driverID StatusDriverAssigned) tripID
              (status_in StatusRequested StatusMatching) p)
    as [[_ H]|[(_ & _ & H)|(row & Hup & Hrow & Hc & H)]]; rewrite H; simpl.
  - by rewrite H.
  - by rewrite H.
  - unfold Exec_update. simpl. by rewrite Hup, lookup_insert_eq.
Qed.

Lemma DriverAssigned_handler_decoded s data ev :
  Unmarshal data = Ok ev →
  db (DriverAssigned_handler data s).2 =
    (update_assign (Events.da_DriverID ev) (Events.da_TripID ev) (db s)).2 ∧
  spawned (DriverAssigned_handler data s).2 = spawned s ∧
  (DriverAssigned_handler data s).1 =
    match (update_assign (Events.da_DriverID ev) (Events.da_TripID ev) (db s)).1 with
    | Ok _ => None
    | Fail err => Some err
    end.
Proof.
  intros Hev. unfold Trips.DriverAssigned_handler, Exec, log_Printf.
  rewrite Hev. simpl.
  by destruct (update_assign _ _ (db s)) as [[n|e] p].
Qed.

(** X5.  For a payload that decodes, the driver.assigned consumer leaves the
    table as [AssignDriver] on the trip and the driver of the event leaves it,
    and starts no goroutine; it returns the error of the UPDATE and otherwise
    nil, also when the UPDATE affected no row, where [AssignDriver] reports a
    conflict; and a second delivery of the same payload changes nothing in the
    table. *)
Theorem DriverAssigned_handler_idempotent
  (s : Service) (data : list Byte.byte) (ev : Events.DriverAssignedEvent) :
  Unmarshal data = Ok ev →
  let r := DriverAssigned_handler data s in
  (∀ n, (update_assign (Events.da_DriverID ev) (Events.da_TripID ev) (db s)).1 = Ok n →
        r.1 = None) ∧
  db r.2 = db (AssignDriver (Events.da_TripID ev) (Events.da_DriverID ev) s).2 ∧
  spawned r.2 = spawned s ∧
  db (DriverAssigned_handler data r.2).2 = db r.2.
Proof.
  intros Hev r.
  destruct (DriverAssigned_handler_decoded s data ev Hev) as (Hdb & Hsp & Hret).
  destruct (DriverAssigned_handler_decoded r.2 data ev Hev) as (Hdb2 & _ & _).
  repeat split.
  - intros n Hn. subst r. by rewrite Hret, Hn.
  - by rewrite TripsFacts.AssignDriver_db.
  - done.
  - rewrite Hdb2. subst r. rewrite Hdb. apply update_assign_twice.
Qed.

(** *** What a run can do to a row *)

Lemma Exec_update_row set tripID cond p id old :
  trips p !! id = Some old →
  trips (Exec_update set tripID cond p).2 !! id = Some old ∨
  (id = tripID ∧ cond old = true ∧
   trips (Exec_update set tripID cond p).2 !! id = Some (set old)).
Proof.
  intros Hold.
  destruct (TripsFacts.Exec_update_trips set tripID cond p)
    as [->|(row & Hrow & Hc & ->)]; [by left|].
  destruct (decide (id = tripID)) as [->|Hne].
  - right. rewrite Hold in Hrow. injection Hrow as <-.
    by rewrite lookup_insert_eq.
  - left. by rewrite lookup_insert_ne.
Qed.

Lemma update_assign_row p driverID tripID id old :
  trips p !! id = Some old →
  ∃ new, trips (update_assign driverID tripID p).2 !! id = Some new ∧
         row_step old new ∧ (assigned (Status old) = true → new = old).
Proof.
  intros Hold. unfold update_assign.
  destruct (Exec_update_row (set_driver_status driverID StatusDriverAssigned) tripID
              (status_in StatusRequested StatusMatching) p id old Hold)
    as [H|(_ & Hc & H)]; rewrite H.
  - exists old. split; [done|]. split; [by left|done].
  - eexists. split; [done|]. apply TripsFacts.status_in_true in Hc. split.
    + right; left. by exists driverID.
    + by destruct Hc as [-> | ->].
Qed.

Lemma update_start_row p now tripID id old :
  trips p !! id = Some old →
  ∃ new, trips (update_start now tripID p).2 !! id = Some new ∧
         row_step old new ∧ (Status old ≠ StatusDriverAssigned → new = old).
Proof.
  intros Hold. unfold update_start.
  destruct (Exec_update_row (set_status_started_at StatusStarted now) tripID
              (status_is StatusDriverAssigned) p id old Hold)
    as [H|(_ & Hc & H)]; rewrite H.
  - exists old. split; [done|]. split; [by left|done].
  - eexists. split; [done|]. apply TripsFacts.status_is_true in Hc. split.
    + right; right; left. by exists now.
    + done.
Qed.

Lemma update_end_row p fare now tripID id old :
  trips p !! id = Some old →
  ∃ new, trips (update_end fare now tripID p).2 !! id = Some new ∧
         row_step old new ∧ (id ≠ tripID → new = old).
Proof.
  intros Hold. unfold update_end.
  destruct (Exec_update_row (set_status_fare_completed_at StatusCompleted fare now)
              tripID any_status p id old Hold)
    as [H|(Hid & Hc & H)]; rewrite H.
  - exists old. split; [done|]. split; [by left|done].
  - eexists. split; [done|]. split; [|done].
    right; right; right. by exists fare, now.
Qed.

Lemma Request_row s id' now riderID req id old :
  trips (db s) !! id = Some old →
  trips (db (Request id' now riderID req s).2) !! id = Some old.
Proof.
  intros Hold.
  destruct (TripsFacts.Request_db FormatRFC3339 s id' now riderID req)
    as [->|(row & Hnone & _ & ->)]; [done|].
  rewrite lookup_insert_ne; [done|]. intros ->. by rewrite Hold in Hnone.
Qed.

Lemma End_row s tripID distKm now id old :
  trips (db s) !! id = Some old →
  ∃ new, trips (db (End tripID distKm now s).2) !! id = Some new ∧
         row_step old new ∧ (Status old ≠ StatusStarted → new = old).
Proof.
  intros Hold. unfold Trips.End, mbind, M_bind, bind.
  destruct (End_check tripID distKm s) as [[[trip fare]|e] s'] eqn:Hck.
  - apply TripsFacts.End_check_Ok_inv in Hck as (-> & _ & Hrow & Hst & _).
    rewrite TripsFacts.End_commit_db.
    destruct (update_end_row (db s) fare now tripID id old Hold) as (new & H1 & H2 & H3).
    exists new. split; [done|]. split; [done|]. intros Hne. apply H3.
    intros ->. rewrite Hold in Hrow. by injection Hrow as <-.
  - pose proof (TripsFacts.End_check_state Sin Cos Atan2 s tripID distKm) as Hs.
    rewrite Hck in Hs. simpl in Hs. subst s'. simpl.
    exists old. split; [done|]. split; [by left|done].
Qed.

Lemma exec_row_step sys st id old :
  trips (db (svc sys)) !! id = Some old →
  ∃ new, trips (db (svc (exec sys st))) !! id = Some new ∧ row_step old new.
Proof.
  intros Hold. destruct st; simpl.
  - exists old. split; [by apply Request_row|by left].
  - rewrite TripsFacts.AssignDriver_db.
    destruct (update_assign_row (db (svc sys)) driverID tripID id old Hold)
      as (new & ? & ? & _). by exists new.
  - rewrite TripsFacts.Start_db.
    destruct (update_start_row (db (svc sys)) now tripID id old Hold)
      as (new & ? & ? & _). by exists new.
  - destruct (End_row (svc sys) tripID distKm now id old Hold) as (new & ? & ? & _).
    by exists new.
  - pose proof (TripsFacts.End_check_state Sin Cos Atan2 (svc sys) tripID distKm) as Hs.
    destruct (End_check tripID distKm (svc sys)) as [[[trip fare]|e] s'];
      simpl in *; subst s'; exists old; (split; [done|by left]).
  - destruct (in_flight sys !! k) as [[[tripID trip] fare]|]; simpl.
    + rewrite TripsFacts.End_commit_db.
      destruct (update_end_row (db (svc sys)) fare now tripID id old Hold)
        as (new & ? & ? & _). by exists new.
    + exists old. split; [done|by left].
  - destruct (TripsFacts.DriverAssigned_handler_db Unmarshal (svc sys) data)
      as [->|[ev ->]].
    + exists old. split; [done|by left].
    + destruct (update_assign_row (db (svc sys)) (Events.da_DriverID ev)
                  (Events.da_TripID ev) id old Hold) as (new & ? & ? & _).
      by exists new.
  - exists old. split; [done|by left].
Qed.

(** A relation between the row before and the row after that every single
    statement respects holds along every run. *)
Lemma run_rows (P : Trip → Trip → Prop) :
  (∀ a, P a a) →
  (∀ a b c, P a b → row_step b c → P a c) →
  ∀ sts sys id old,
    trips (db (svc sys)) !! id = Some old →
    ∃ new, trips (db (svc (foldl exec sys sts))) !! id = Some new ∧ P old new.
Proof.
  intros Hrefl Hstep sts sys id old Hold.
  induction sts as [|st sts IH] using rev_ind.
  - exists old. by split.
  - destruct IH as (mid & Hmid & HP). rewrite foldl_app. simpl.
    destruct (exec_row_step (foldl exec sys sts) st id mid Hmid) as (new & Hnew & Hrs).
    exists new. split; [done|]. by eapply Hstep.
Qed.

(** X6.  Whatever calls follow, in whatever interleaving, a trip that is in
    the table stays in the table, with the id, the rider, the pickup and drop
    coordinates, the request time and the creation time it was inserted
    with. *)
Theorem trip_stays_with_its_identity
  (sys : System) (sts : list step) (id : string) (old : Trip) :
  trips (db (svc sys)) !! id = Some old →
  ∃ new, trips (db (svc (foldl exec sys sts))) !! id = Some new ∧
         identity new = identity old.
Proof.
  apply (run_rows (λ a b, identity b = identity a)); [done|].
  intros a b c Hab [->|[(d & _ & ->)|[(now & _ & ->)|(fare & now & ->)]]]; done.
Qed.

(** X7.  Whatever calls follow, in whatever interleaving, the driver of a
    trip that has left [StatusRequested] and [StatusMatching] is never
    replaced, and the start time of a trip that is started, completed or
    cancelled is never rewritten. *)
Theorem driver_and_start_time_are_kept
  (sys : System) (sts : list step) (id : string) (old : Trip) :
  trips (db (svc sys)) !! id = Some old →
  ∃ new, trips (db (svc (foldl exec sys sts))) !! id = Some new ∧
         (assigned (Status old) = true →
          assigned (Status new) = true ∧ DriverID new = DriverID old) ∧
         (under_way (Status old) = true →
          under_way (Status new) = true ∧ StartedAt new = StartedAt old).
Proof.
  apply (run_rows (λ a b,
           (assigned (Status a) = true →
            assigned (Status b) = true ∧ DriverID b = DriverID a) ∧
           (under_way (Status a) = true →
            under_way (Status b) = true ∧ StartedAt b = StartedAt a))); [done|].
  intros a b c [Hd Hs] Hbc. split.
  - intros Ha. destruct (Hd Ha) as [Hb <-].
    destruct Hbc as [->|[(d & Hst & ->)|[(now & _ & ->)|(fare & now & ->)]]];
      try done.
    by destruct Hst as [Hst|Hst]; rewrite Hst in Hb.
  - intros Ha. destruct (Hs Ha) as [Hb <-].
    destruct Hbc as [->|[(d & Hst & ->)|[(now & Hst & ->)|(fare & now & ->)]]];
      try done.
    + by destruct Hst as [Hst|Hst]; rewrite Hst in Hb.
    + by rewrite Hst in Hb.
Qed.

Lemma exec_final_row sys st id row :
  atomic st = true →
  trips (db (svc sys)) !! id = Some row →
  final (Status row) = true →
  trips (db (svc (exec sys st))) !! id = Some row.
Proof.
  intros Hat Hrow Hfin. destruct st; simpl; try done.
  - by apply Request_row.
  - rewrite TripsFacts.AssignDriver_db.
    destruct (update_assign_row (db (svc sys)) driverID tripID id row Hrow)
      as (new & Hnew & _ & Hsame).
    rewrite Hnew, Hsame; [done|]. by destruct (Status row).
  - rewrite TripsFacts.Start_db.
    destruct (update_start_row (db (svc sys)) now tripID id row Hrow)
      as (new & Hnew & _ & Hsame).
    rewrite Hnew, Hsame; [done|]. intros Hst. by rewrite Hst in Hfin.
  - destruct (End_row (svc sys) tripID distKm now id row Hrow)
      as (new & Hnew & _ & Hsame).
    rewrite Hnew, Hsame; [done|]. intros Hst. by rewrite Hst in Hfin.
  - destruct (TripsFacts.DriverAssigned_handler_db Unmarshal (svc sys) data)
      as [->|[ev ->]]; [done|].
    destruct (update_assign_row (db (svc sys)) (Events.da_DriverID ev)
                (Events.da_TripID ev) id row Hrow) as (new & Hnew & _ & Hsame).
    rewrite Hnew, Hsame; [done|]. by destruct (Status row).
Qed.

(** X8.  As long as no [End] call overlaps another call between its status
    test and its UPDATE, a trip that is completed or cancelled is final: no
    later [Request], [AssignDriver], [Start], [End] or driver.assigned
    delivery changes any field of its row. *)
Theorem finished_trip_is_final_without_overlap
  (sys : System) (sts : list step) (id : string) (row : Trip) :
  forallb atomic sts = true →
  trips (db (svc sys)) !! id = Some row →
  final (Status row) = true →
  trips (db (svc (foldl exec sys sts))) !! id = Some row.
Proof.
  intros Hat Hrow Hfin. revert sys Hrow.
  induction sts as [|st sts IH]; intros sys Hrow; [done|].
  simpl in Hat. apply andb_true_iff in Hat as [Hst Hat]. simpl.
  apply IH; [done|]. by apply exec_final_row.
Qed.

(** *** A whole ride *)


End Methods.

Local Abbreviation End' :=
  (Trips.End Samples.sin_stub Samples.cos_stub Samples.atan2_stub
     Samples.format_stub Samples.seconds_stub).
Local Abbreviation exec' :=
  (Trips.exec Samples.sin_stub Samples.cos_stub Samples.atan2_stub
     Samples.format_stub Samples.seconds_stub Samples.decode_assignment).

(** [End] on the sample trip that is only requested. *)
Lemma End_refused_unless_started_witness :
  End' "t1" None 300 Samples.ledger_requested =
    (Fail conflict_end, Samples.ledger_requested).
Proof.
  apply (End_refused_unless_started
           Samples.sin_stub Samples.cos_stub Samples.atan2_stub
           Samples.format_stub Samples.seconds_stub
           Samples.ledger_requested "t1" None 300).
  intros row Hrow. vm_compute in Hrow. by injection Hrow as <-.
Defined.

(** [End] with 25.5 km on the started sample trip. *)
Lemma End_publishes_what_it_charges_witness :
  ∃ ev,
    spawned (End' "t1" (Some 25.5%float) 300 Samples.ledger_started).2 =
      [(Kafka.TopicTripCompleted, "t1", Events.TripCompleted ev)] ∧
    Events.tc_Fare ev = 356%float ∧
    Events.tc_DriverID ev = "driver-1" ∧
    Events.tc_DurationSeconds ev = 100.
Proof.
  destruct (End_publishes_what_it_charges
              Samples.sin_stub Samples.cos_stub Samples.atan2_stub
              Samples.format_stub Samples.seconds_stub
              Samples.ledger_started "t1" (Some 25.5%float) 300
              (set_status_fare_completed_at StatusCompleted 356%float 300
                 Samples.trip_started)
              (End' "t1" (Some 25.5%float) 300 Samples.ledger_started).2 eq_refl)
    as (row & ev & Hrow & _ & Hsp & _ & Hf & _ & Hd & Hdur & _).
  injection Hrow as <-. exists ev. repeat split; assumption.
Defined.

(** A second delivery of the assignment of driver-1 to the requested sample
    trip. *)
Lemma DriverAssigned_handler_idempotent_witness :
  let r := DriverAssigned_handler Samples.decode_assignment [] Samples.ledger_requested in
  (∀ n, (update_assign "driver-1" "t1" (db Samples.ledger_requested)).1 = Ok n →
        r.1 = None) ∧
  db r.2 = db (AssignDriver "t1" "driver-1" Samples.ledger_requested).2 ∧
  spawned r.2 = [] ∧
  db (DriverAssigned_handler Samples.decode_assignment [] r.2).2 = db r.2.
Proof.
  exact (DriverAssigned_handler_idempotent Samples.decode_assignment
           Samples.ledger_requested [] _ eq_refl).
Defined.

(** Two overlapping [End] calls on the started sample trip. *)
Lemma trip_stays_with_its_identity_witness :
  ∃ new,
    trips (db (svc (foldl exec' (mkSystem Samples.ledger_started [])
                      [DoEndCheck "t1" (Some 10%float); DoEndCheck "t1" (Some 20%float);
                       DoEndCommit 0 300; DoEndCommit 0 400]))) !! "t1" = Some new ∧
    identity new = identity Samples.trip_started.
Proof.
  exact (trip_stays_with_its_identity
           Samples.sin_stub Samples.cos_stub Samples.atan2_stub
           Samples.format_stub Samples.seconds_stub Samples.decode_assignment
           (mkSystem Samples.ledger_started []) _ "t1" Samples.trip_started eq_refl).
Defined.

Lemma driver_and_start_time_are_kept_witness :
  ∃ new,
    trips (db (svc (foldl exec' (mkSystem Samples.ledger_started [])
                      [DoAssignDriver "t1" "driver-2"; DoDriverAssigned [];
                       DoStart "t1" 250; DoEnd "t1" None 300]))) !! "t1" = Some new ∧
    (assigned StatusStarted = true →
     assigned (Status new) = true ∧ DriverID new = Some "driver-1") ∧
    (under_way StatusStarted = true →
     under_way (Status new) = true ∧ StartedAt new = Some 200).
Proof.
  exact (driver_and_start_time_are_kept
           Samples.sin_stub Samples.cos_stub Samples.atan2_stub
           Samples.format_stub Samples.seconds_stub Samples.decode_assignment
           (mkSystem Samples.ledger_started []) _ "t1" Samples.trip_started eq_refl).
Defined.

(** Every method once more on the completed sample trip. *)
Lemma finished_trip_is_final_without_overlap_witness :
  trips (db (svc (foldl exec' (mkSystem Samples.ledger_completed [])
                    [DoEnd "t1" (Some 20%float) 400; DoStart "t1" 500;
                     DoAssignDriver "t1" "driver-2"; DoDriverAssigned [];
                     DoRequest "t1" 600 "rider-2" Samples.request_1]))) !! "t1" =
    Some Samples.trip_completed.
Proof.
  exact (finished_trip_is_final_without_overlap
           Samples.sin_stub Samples.cos_stub Samples.atan2_stub
           Samples.format_stub Samples.seconds_stub Samples.decode_assignment
           (mkSystem Samples.ledger_completed [])
           [DoEnd "t1" (Some 20%float) 400; DoStart "t1" 500;
            DoAssignDriver "t1" "driver-2"; DoDriverAssigned [];
            DoRequest "t1" 600 "rider-2" Samples.request_1]
           "t1" Samples.trip_completed eq_refl eq_refl eq_refl).
Defined.


End LedgerFacts.

(** ** From the request to the assignment *)

Module DispatchFacts.
Import Matching.

Section Dispatch.

Variable geodist : float → float → float → float → float.
Variable Marshal : Events.event → result (list Byte.byte).
Variable Unmarshal : list Byte.byte → result Events.RideRequestedEvent.
Variable UnmarshalAssigned : list Byte.byte → result Events.DriverAssignedEvent.
Variable FormatRFC3339 : Trips.Time → string.

Local Abbreviation handler := (Matching.handler geodist Marshal Unmarshal).
Local Abbreviation assign := (Matching.assign Marshal).
Local Abbreviation nearby ev m :=
  (Redis.GetNearbyDrivers geodist (Events.Lat (Events.rr_Pickup ev))
     (Events.Lng (Events.rr_Pickup ev)) 5 1 (redis m)).

Lemma assign_published ev driver payload m :
  Marshal (Events.DriverAssigned (Events.mkDriverAssigned (Events.rr_TripID ev) driver))
    = Ok payload →
  Kafka.reachable (kafka m) = true →
  (assign ev driver m).1 = None ∧
  kafka (assign ev driver m).2 =
    Kafka.mkClient true
      (Kafka.written (kafka m) ++
         [Kafka.mkMessage Kafka.TopicDriverAssigned (Events.rr_TripID ev) payload]) ∧
  redis (assign ev driver m).2 = (Redis.RemoveDriverLocation driver (redis m)).2.
Proof.
  intros Hpay Hup. unfold Matching.assign, Kafka.Publish. rewrite Hpay, Hup.
  by destruct (Redis.RemoveDriverLocation driver (redis m)) as [e r'].
Qed.

Lemma assign_not_published ev driver m :
  (∀ payload,
     Marshal (Events.DriverAssigned (Events.mkDriverAssigned (Events.rr_TripID ev) driver))
       = Ok payload → Kafka.reachable (kafka m) = false) →
  is_Some (assign ev driver m).1 ∧
  kafka (assign ev driver m).2 = kafka m ∧
  redis (assign ev driver m).2 = redis m.
Proof.
  intros Hno. unfold Matching.assign, Kafka.Publish.
  destruct (Marshal _) as [payload|err]; [|by eauto].
  rewrite (Hno payload eq_refl). by eauto.
Qed.


(** X11.  The automatic path, end to end.  A trip is requested on a pool that
    executes the statements; the goroutine of [Request] publishes
    ride.requested; the matching handler, given that payload, finds a driver
    around the pickup and publishes driver.assigned; the consumer of the trip
    service, given that payload, updates the row.  With payloads that decode
    to what was encoded, each step succeeds, the brokers hold the two messages
    in this order, both keyed by the trip id, and the trip of the rider ends
    up in [StatusDriverAssigned] with the first driver of the search, no other
    row being touched. *)
Theorem requested_trip_gets_the_driver_found
  (s : Trips.Service) (m : Matcher) (id : string) (now : Trips.Time)
  (riderID : string) (req : Trips.TripRequest)
  (ride : Events.RideRequestedEvent) (data payload : list Byte.byte)
  (driver : string) (rest : list string) :
  let trip0 := Trips.requested_trip id now riderID req in
  Trips.reachable (Trips.db s) = true →
  Trips.trips (Trips.db s) !! id = None →
  Kafka.reachable (kafka m) = true →
  Trips.requested_event FormatRFC3339 trip0
    = (Kafka.TopicRideRequested, id, Events.RideRequested ride) →
  Marshal (Events.RideRequested ride) = Ok data →
  Unmarshal data = Ok ride →
  Redis.GetNearbyDrivers geodist (Trips.req_PickupLat req) (Trips.req_PickupLng req)
    5 1 (redis m) = Ok (driver :: rest) →
  Marshal (Events.DriverAssigned (Events.mkDriverAssigned id driver)) = Ok payload →
  UnmarshalAssigned payload = Ok (Events.mkDriverAssigned id driver) →
  ∃ s1 k1 m2 s2,
    Trips.Request FormatRFC3339 id now riderID req s = (Ok trip0, s1) ∧
    Trips.spawned s1 = Trips.spawned s ++ [Trips.requested_event FormatRFC3339 trip0] ∧
    Kafka.Publish Marshal Kafka.TopicRideRequested id (Events.RideRequested ride) (kafka m)
      = (None, k1) ∧
    handler data (mkMatcher k1 (redis m) (stderr m)) = (None, m2) ∧
    Kafka.written (kafka m2) =
      Kafka.written (kafka m) ++
        [Kafka.mkMessage Kafka.TopicRideRequested id data;
         Kafka.mkMessage Kafka.TopicDriverAssigned id payload] ∧
    redis m2 = (Redis.RemoveDriverLocation driver (redis m)).2 ∧
    Trips.DriverAssigned_handler UnmarshalAssigned payload s1 = (None, s2) ∧
    (∃ row, Trips.trips (Trips.db s2) !! id = Some row ∧
            (Trips.ID row, Trips.RiderID row, Trips.DriverID row, Trips.Status row) =
              (id, riderID, Some driver, Trips.StatusDriverAssigned)) ∧
    (∀ id', id' ≠ id →
            Trips.trips (Trips.db s2) !! id' = Trips.trips (Trips.db s) !! id').
Proof.
  intros trip0 Hup Hfresh Hkup Hev Hdata Hride Hnear Hpay Hassigned.
  assert (Hid : Events.rr_TripID ride = id) by (by injection Hev as <-).
  assert (Hpick : Events.rr_Pickup ride
                  = Events.mkLatLng (Trips.req_PickupLat req) (Trips.req_PickupLng req))
    by (by injection Hev as <-).
  pose proof (LedgerFacts.Request_inserts FormatRFC3339 s id now riderID req Hup Hfresh)
    as Hreq. fold trip0 in Hreq.
  set (k1 := Kafka.mkClient true
               (Kafka.written (kafka m) ++
                  [Kafka.mkMessage Kafka.TopicRideRequested id data])).
  set (m1 := mkMatcher k1 (redis m) (stderr m)).
  set (m1' := log_Printf (Printf "[matching] ride.requested → trip=%s rider=%s"
                            [LStr (Events.rr_TripID ride); LStr (Events.rr_RiderID ride)])
                m1).
  assert (Hh : handler data m1 = assign ride driver m1').
  { unfold Matching.handler. rewrite Hride. fold m1'.
    change (redis m1') with (redis m). rewrite Hpick.
    change (Events.Lat (Events.mkLatLng ?a ?b)) with a.
    change (Events.Lng (Events.mkLatLng ?a ?b)) with b.
    by rewrite Hnear. }
  destruct (assign_published ride driver payload m1') as (Hnil & Hk & Hr).
  { by rewrite Hid. }
  { done. }
  rewrite <-Hh in Hnil, Hk, Hr.
  exists (Trips.with_spawned (Trips.requested_event FormatRFC3339 trip0)
            (Trips.with_row id trip0 s)),
    k1, (handler data m1).2,
    (Trips.DriverAssigned_handler UnmarshalAssigned payload
       (Trips.with_spawned (Trips.requested_event FormatRFC3339 trip0)
          (Trips.with_row id trip0 s))).2.
  split; [exact Hreq|].
  split; [done|].
  split; [unfold Kafka.Publish; by rewrite Hdata, Hkup|].
  split.
  { apply injective_projections; [exact Hnil|done]. }
  split.
  { rewrite Hk, Hid. simpl. by rewrite <-app_assoc. }
  split; [exact Hr|].
  unfold Trips.DriverAssigned_handler. rewrite Hassigned. simpl.
  unfold Trips.Exec, Trips.update_assign, Trips.Exec_update. simpl.
  rewrite Hup, lookup_insert_eq. simpl. split; [done|]. split.
  - eexists. split; [apply lookup_insert_eq|done].
  - intros id' Hne. by rewrite !lookup_insert_ne.
Qed.

End Dispatch.

(** The sample ride, requested on the empty ledger with one driver at the
    pickup. *)
Lemma requested_trip_gets_the_driver_found_witness :
  ∃ s1 s2,
    Trips.Request Samples.format_2026 "t1" 100 "rider-1" Samples.request_1
      Samples.ledger_empty = (Ok Samples.trip_requested, s1) ∧
    Trips.DriverAssigned_handler Samples.decode_assignment [] s1 = (None, s2) ∧
    (Trips.DriverID <$> Trips.trips (Trips.db s2) !! "t1") = Some (Some "driver-1").
Proof.
  destruct (requested_trip_gets_the_driver_found
              Samples.taxicab Samples.encode_empty Samples.decode_ride_1
              Samples.decode_assignment Samples.format_2026
              Samples.ledger_empty Samples.matcher_one_driver "t1" 100 "rider-1"
              Samples.request_1 Samples.ride_1 [] [] "driver-1" []
              eq_refl eq_refl eq_refl eq_refl eq_refl eq_refl eq_refl eq_refl eq_refl)
    as (s1 & k1 & m2 & s2 & H1 & _ & _ & _ & _ & _ & H2 & (row & H3 & H4) & _).
  exists s1, s2. split; [exact H1|]. split; [exact H2|].
  rewrite H3. simpl. by injection H4 as _ _ -> _.
Defined.

End DispatchFacts.

(** ** Tracking hub: who is subscribed, and who is written to *)

Module HubFacts.
Import Tracking.

Lemma remove_first_index c cs :
  match first_index c cs with
  | Some i => take i cs ++ drop (S i) cs
  | None => cs
  end = remove_first c cs.
Proof.
  induction cs as [|x cs IH]; simpl; [done|].
  destruct (Nat.eqb x c); simpl; [done|].
  destruct (first_index c cs) as [i|]; simpl in *; by rewrite <-IH.
Qed.

Lemma at_trip_ne m t t' cs : t ≠ t' → at_trip (<[t := cs]> m) t' = at_trip m t'.
Proof. intros Hne. unfold at_trip. by rewrite lookup_insert_ne. Qed.

Lemma register_at_trip t c h t' :
  at_trip (conns (HandleWS_register t c h)) t' =
  subscribers_step t' (at_trip (conns h) t') (Subscribe t c).
Proof.
  unfold HandleWS_register. simpl. destruct (decide (t = t')) as [->|Hne].
  - apply TrackingFacts.at_trip_insert.
  - by apply at_trip_ne.
Qed.

Lemma removeConn_at_trip t c h t' :
  at_trip (conns (removeConn t c h)) t' =
  subscribers_step t' (at_trip (conns h) t') (Unsubscribe t c).
Proof.
  unfold subscribers_step. destruct (decide (t = t')) as [->|Hne].
  - unfold removeConn. simpl.
    set (cs := at_trip (conns h) t').
    set (m1 := match first_index c cs with Some i => _ | None => _ end).
    assert (Hm1 : at_trip m1 t' = remove_first c cs).
    { unfold m1. rewrite <-remove_first_index.
      destruct (first_index c cs); [apply TrackingFacts.at_trip_insert|done]. }
    rewrite Hm1. destruct (Nat.eqb (length (remove_first c cs)) 0) eqn:E.
    + rewrite TrackingFacts.at_trip_delete. apply Nat.eqb_eq in E.
      by destruct (remove_first c cs).
    + done.
  - unfold at_trip. by rewrite TrackingFacts.removeConn_other_key.
Qed.

Lemma run_at_trip ops h t :
  at_trip (conns (run ops h)) t =
  fold_left (subscribers_step t) ops (at_trip (conns h) t).
Proof.
  revert h. induction ops as [|o ops IH]; intros h; [done|].
  simpl. rewrite IH. f_equal. destruct o.
  - apply register_at_trip.
  - apply removeConn_at_trip.
Qed.

Lemma run_subscribers ops t :
  at_trip (conns (run ops NewHub)) t = subscribers t ops.
Proof.
  rewrite run_at_trip. unfold at_trip, NewHub. simpl. by rewrite lookup_empty.
Qed.

(** Two hubs without empty groups that agree on the subscribers of every trip
    are the same hub. *)
Lemma hub_eq h1 h2 :
  no_empty_group h1 → no_empty_group h2 →
  (∀ t, at_trip (conns h1) t = at_trip (conns h2) t) → h1 = h2.
Proof.
  intros H1 H2 Heq. destruct h1 as [m1], h2 as [m2]. f_equal.
  apply map_eq. intros t. specialize (Heq t). specialize (H1 t). specialize (H2 t).
  unfold at_trip in Heq. simpl in *.
  destruct (m1 !! t) as [cs1|], (m2 !! t) as [cs2|]; simpl in Heq.
  - by subst.
  - by destruct (H1 cs1 eq_refl).
  - by destruct (H2 cs2 eq_refl).
  - done.
Qed.

(** X12.  After any sequence of subscriptions and unsubscriptions on a new
    hub, the entry of a trip holds exactly the connections subscribed to that
    trip and not unsubscribed since, oldest first, and a trip with no such
    connection has no entry; operations on other trips do not show. *)
Theorem hub_holds_the_live_subscribers (ops : list op) (t : string) :
  conns (run ops NewHub) !! t =
    match subscribers t ops with
    | [] => None
    | c :: cs => Some (c :: cs)
    end.
Proof.
  pose proof (run_at_trip ops NewHub t) as Hat.
  pose proof (TrackingFacts.run_no_empty_group ops NewHub
                TrackingFacts.NewHub_no_empty_group t) as Hne.
  unfold at_trip in Hat. simpl in Hat. rewrite lookup_empty in Hat. simpl in Hat.
  fold (subscribers t ops) in Hat.
  destruct (conns (run ops NewHub) !! t) as [cs|]; simpl in Hat.
  - rewrite <-Hat. specialize (Hne cs eq_refl). by destruct cs.
  - by rewrite <-Hat.
Qed.

Lemma remove_first_elem x c l : x ∈ remove_first c l → x ∈ l.
Proof.
  induction l as [|y l IH]; simpl; [done|].
  destruct (Nat.eqb y c).
  - intros ?. by apply elem_of_cons; right.
  - rewrite !elem_of_cons. intros [->|?]; [by left|right; by apply IH].
Qed.

Lemma remove_first_keeps x c l : x ≠ c → x ∈ l → x ∈ remove_first c l.
Proof.
  intros Hne. induction l as [|y l IH]; simpl; [done|].
  rewrite elem_of_cons. destruct (Nat.eqb y c) eqn:E.
  - apply Nat.eqb_eq in E. intros [->|?]; [congruence|done].
  - intros [->|?]; [by left|]. right. by apply IH.
Qed.

Lemma remove_first_absent c l : c ∉ l → remove_first c l = l.
Proof.
  induction l as [|y l IH]; simpl; [done|].
  rewrite not_elem_of_cons. intros [Hne Hl].
  destruct (Nat.eqb y c) eqn:E; [apply Nat.eqb_eq in E; congruence|].
  by rewrite IH.
Qed.

Lemma remove_first_snoc c l : c ∉ l → remove_first c (l ++ [c]) = l.
Proof.
  induction l as [|y l IH]; simpl; [by rewrite Nat.eqb_refl|].
  rewrite not_elem_of_cons. intros [Hne Hl].
  destruct (Nat.eqb y c) eqn:E; [apply Nat.eqb_eq in E; congruence|].
  by rewrite IH.
Qed.

Lemma remove_first_app_present c l x :
  c ∈ l → remove_first c (l ++ [x]) = remove_first c l ++ [x].
Proof.
  induction l as [|y l IH]; simpl; [by intros ?%elem_of_nil|].
  rewrite elem_of_cons. destruct (Nat.eqb y c) eqn:E; [done|].
  intros [->|Hin]; [by rewrite Nat.eqb_refl in E|]. by rewrite IH.
Qed.

Lemma remove_first_comm c x l :
  remove_first c (remove_first x l) = remove_first x (remove_first c l).
Proof.
  induction l as [|y l IH]; simpl; [done|].
  destruct (Nat.eqb y x) eqn:Ex, (Nat.eqb y c) eqn:Ec; simpl;
    rewrite ?Ex, ?Ec; try done.
  - apply Nat.eqb_eq in Ex, Ec. by subst.
  - by rewrite IH.
Qed.

Lemma subscribers_from_elem t ops l x :
  x ∈ fold_left (subscribers_step t) ops l → x ∈ l ∨ x ∈ conn_of <$> ops.
Proof.
  revert l. induction ops as [|o ops IH]; intros l; simpl; [by left|].
  intros [Hin|Hin]%IH.
  - destruct o as [t' c|t' c]; simpl in Hin; destruct (decide (t' = t)).
    + apply elem_of_app in Hin as [?|Hin]; [by left|].
      apply list_elem_of_singleton in Hin as ->. right. by left.
    + by left.
    + left. by eapply remove_first_elem.
    + by left.
  - right. by right.
Qed.

(** A connection [c] that the later operations do not mention stays where it
    is, and taking it out at the end is as if it had never been put in. *)
Lemma subscribers_without t c ops l :
  c ∈ l → c ∉ conn_of <$> ops →
  remove_first c (fold_left (subscribers_step t) ops l) =
  fold_left (subscribers_step t) ops (remove_first c l).
Proof.
  revert l. induction ops as [|o ops IH]; intros l Hin Hfresh; [done|].
  simpl in *. apply not_elem_of_cons in Hfresh as [Hne Hfresh].
  destruct o as [t' x|t' x]; simpl in *; destruct (decide (t' = t)); try by apply IH.
  - rewrite IH; [|by apply elem_of_app; left|done].
    by rewrite remove_first_app_present.
  - rewrite IH; [|by apply remove_first_keeps|done].
    by rewrite remove_first_comm.
Qed.

(** X13.  A client that connects to a trip and later disconnects leaves the
    hub exactly as it would be had the client never come, whatever the other
    clients did before and in between: no entry and no slot is left behind. *)
Theorem connection_leaves_no_trace
  (before during : list op) (t : string) (c : safeConn) :
  c ∉ conn_of <$> (before ++ during) →
  run (before ++ Subscribe t c :: during ++ [Unsubscribe t c]) NewHub =
  run (before ++ during) NewHub.
Proof.
  intros Hfresh.
  assert (Heq : ∀ t', subscribers t' (before ++ Subscribe t c :: during ++ [Unsubscribe t c])
                      = subscribers t' (before ++ during)).
  { intros t'. unfold subscribers.
    rewrite !fold_left_app. simpl. rewrite fold_left_app. simpl.
    set (l0 := fold_left (subscribers_step t') before []).
    destruct (decide (t = t')) as [_|_]; [|done].
    assert (Hl0 : c ∉ l0).
    { intros [Hin|Hin]%subscribers_from_elem; [by apply elem_of_nil in Hin|].
      apply Hfresh. rewrite fmap_app. apply elem_of_app. by left. }
    rewrite subscribers_without.
    - by rewrite remove_first_snoc.
    - apply elem_of_app. right. by left.
    - intros Hin. apply Hfresh. rewrite fmap_app. apply elem_of_app. by right. }
  apply hub_eq.
  - apply TrackingFacts.run_no_empty_group, TrackingFacts.NewHub_no_empty_group.
  - apply TrackingFacts.run_no_empty_group, TrackingFacts.NewHub_no_empty_group.
  - intros t'. by rewrite !run_subscribers.
Qed.

(** Two clients on trip t1 while a third comes and goes. *)
Lemma connection_leaves_no_trace_witness :
  run ([Subscribe "t1" 1%nat] ++ Subscribe "t1" 2%nat ::
         [Subscribe "t1" 3%nat; Unsubscribe "t1" 1%nat] ++ [Unsubscribe "t1" 2%nat]) NewHub =
  run ([Subscribe "t1" 1%nat] ++ [Subscribe "t1" 3%nat; Unsubscribe "t1" 1%nat]) NewHub.
Proof.
  apply (connection_leaves_no_trace
           [Subscribe "t1" 1%nat] [Subscribe "t1" 3%nat; Unsubscribe "t1" 1%nat] "t1" 2%nat).
  simpl. rewrite !not_elem_of_cons. repeat split; try lia. apply not_elem_of_nil.
Defined.

Section Broadcast.

Variable WriteJSON : list (safeConn * location) → safeConn → location → option error.

Local Abbreviation BroadcastLocation := (Tracking.BroadcastLocation WriteJSON).

Lemma BroadcastLocation_attempts t lat lng now h w :
  attempts (BroadcastLocation t lat lng now h w) =
  attempts w ++ ((λ c, (c, mkLocation t lat lng now)) <$> at_trip (conns h) t).
Proof.
  unfold Tracking.BroadcastLocation.
  generalize (at_trip (conns h) t) as cs. intros cs. revert w.
  induction cs as [|c cs IH]; intros w; [simpl; by rewrite app_nil_r|].
  cbn [fold_left]. rewrite IH, fmap_cons. unfold writeJSON.
  destruct (WriteJSON (attempts w) c (mkLocation t lat lng now)); simpl;
    by rewrite <-app_assoc.
Qed.

Lemma BroadcastLocation_quiet t lat lng now h w :
  (∀ hist c v, WriteJSON hist c v = None) →
  stderr (BroadcastLocation t lat lng now h w) = stderr w.
Proof.
  intros Hok. unfold Tracking.BroadcastLocation.
  generalize (at_trip (conns h) t) as cs. intros cs. revert w.
  induction cs as [|c cs IH]; intros w; [done|].
  cbn [fold_left]. rewrite IH. unfold writeJSON. by rewrite Hok.
Qed.


End Broadcast.

End HubFacts.

(** ** Validation and the endpoints *)

Module ApiFacts.

Local Open Scope float_scope.

Lemma SFeqb_refl_finite x :
  (∃ s, x = S754_zero s) ∨ (∃ s m e, x = S754_finite s m e) → SFeqb x x = true.
Proof.
  intros [[s ->]|(s & m & e & ->)]; [done|].
  unfold SFeqb, SFcompare.
  rewrite Z.compare_refl, Pos.compare_cont_refl. by destruct s.
Qed.

(** A float between two finite floats is finite. *)
Lemma between_finite lo hi x :
  is_finite lo = true → is_finite hi = true →
  (lo <=? x) = true → (x <=? hi) = true → is_finite x = true.
Proof.
  intros Hlo Hhi. rewrite !leb_spec. intros H1 H2.
  apply F64.is_finite_SF in Hlo, Hhi.
  assert (Hx : (∃ s, Prim2SF x = S754_zero s) ∨
               (∃ s m e, Prim2SF x = S754_finite s m e)).
  { destruct (Prim2SF x) as [s|s| |s m e]; eauto.
    - destruct s.
      + destruct Hlo as [[s' Hl]|(s' & m' & e' & Hl)]; rewrite Hl in H1; done.
      + destruct Hhi as [[s' Hh]|(s' & m' & e' & Hh)]; rewrite Hh in H2; done.
    - destruct Hlo as [[s' Hl]|(s' & m' & e' & Hl)]; rewrite Hl in H1; done. }
  unfold is_finite, is_nan, is_infinity.
  rewrite !FloatAxioms.eqb_spec, abs_spec, (SFeqb_refl_finite _ Hx).
  change (Prim2SF infinity) with (S754_infinity false).
  by destruct Hx as [[s ->]|(s & m & e & ->)].
Qed.

(** X15.  [ValidateCoordinates] accepts finite numbers only: a latitude or a
    longitude that is not a number, or that is infinite, is refused. *)
Theorem ValidateCoordinates_accepts_finite_numbers_only (lat lng : float) :
  Validation.ValidateCoordinates lat lng = true →
  is_finite lat = true ∧ is_finite lng = true.
Proof.
  unfold Validation.ValidateCoordinates. rewrite !andb_true_iff.
  intros [[[H1 H2] H3] H4]. split.
  - by apply (between_finite (-90) 90).
  - by apply (between_finite (-180) 180).
Qed.

Lemma ValidateCoordinates_bounds lat lng :
  Validation.ValidateCoordinates lat lng = true →
  (-90 <=? lat) = true ∧ (lat <=? 90) = true ∧
  (-180 <=? lng) = true ∧ (lng <=? 180) = true.
Proof.
  unfold Validation.ValidateCoordinates. rewrite !andb_true_iff. tauto.
Qed.

Lemma ValidateCoordinates_accepts_finite_numbers_only_witness :
  is_finite 12.5 = true ∧ is_finite 77.5 = true.
Proof.
  exact (ValidateCoordinates_accepts_finite_numbers_only 12.5 77.5 eq_refl).
Defined.

Section Nearby.

Variable geodist : float → float → float → float → float.
Variable ParseFloat : string → result float.

Local Abbreviation GetNearby := (Drivers.GetNearby geodist ParseFloat).

(** X16.  [GetNearby] either answers 400 whatever the store holds, or it has
    parsed a latitude and a longitude that are finite and within range and a
    radius that is 5 when none was given and otherwise parsed and not at or
    below zero, and it answers with what the store finds for these, at most
    10 asked for: 200 with the drivers, or 500 with the error of the
    store. *)
Theorem GetNearby_asks_the_store_for_valid_input_only
  (latStr lngStr radiusStr : string) (c : Redis.Client) :
  (∃ msg, ∀ c',
     GetNearby latStr lngStr radiusStr c' =
       Drivers.Refused (Drivers.writeJSON 400 [("error", msg)])) ∨
  (∃ lat lng radius,
     ParseFloat latStr = Ok lat ∧ ParseFloat lngStr = Ok lng ∧
     Validation.ValidateCoordinates lat lng = true ∧
     is_finite lat = true ∧ is_finite lng = true ∧
     (if String.eqb radiusStr "" then radius = 5
      else ParseFloat radiusStr = Ok radius ∧ (radius <=? 0) = false) ∧
     GetNearby latStr lngStr radiusStr c =
       match Redis.GetNearbyDrivers geodist lat lng radius 10 c with
       | Ok ids => Drivers.Drivers 200 ids
       | Fail err =>
           Drivers.Refused (Drivers.writeJSON 500 [("error", Drivers.Error err)])
       end).
Proof.
  unfold Drivers.GetNearby.
  destruct (String.eqb latStr "" || String.eqb lngStr "")%bool; [by left; eexists|].
  destruct (ParseFloat latStr) as [lat|e1]; [|by left; eexists].
  destruct (ParseFloat lngStr) as [lng|e2]; [|by left; eexists].
  destruct (Validation.ValidateCoordinates lat lng) eqn:Hv; simpl;
    [|by left; eexists].
  destruct (ValidateCoordinates_bounds lat lng Hv) as (H1 & H2 & H3 & H4).
  assert (Hf1 : is_finite lat = true) by by apply (between_finite (-90) 90).
  assert (Hf2 : is_finite lng = true) by by apply (between_finite (-180) 180).
  destruct (String.eqb radiusStr "") eqn:Hr.
  - right. by exists lat, lng, 5.
  - destruct (ParseFloat radiusStr) as [radius|e3] eqn:Hp; [|by left; eexists].
    destruct (radius <=? 0) eqn:Hle; [by left; eexists|].
    right. by exists lat, lng, radius.
Qed.

End Nearby.

(** *** The bearer token *)

Lemma substring_whole s : String.substring 0 (String.length s) s = s.
Proof. induction s as [|a s IH]; simpl; [done|]. by rewrite IH. Qed.

Lemma after_bearer_app tok : Jwt.after_bearer ("Bearer " +:+ tok) = tok.
Proof.
  unfold Jwt.after_bearer. cbv [String.append]. cbn [String.length].
  replace (S (S (S (S (S (S (S (String.length tok))))))) - 7)%nat
    with (String.length tok) by lia.
  cbn [String.substring]. apply substring_whole.
Qed.

Lemma prefix_bearer_app tok : String.prefix "Bearer " ("Bearer " +:+ tok) = true.
Proof. apply String.prefix_correct. by destruct tok. Qed.

Lemma prefix_bearer auth :
  String.prefix "Bearer " auth = true → auth = "Bearer " +:+ Jwt.after_bearer auth.
Proof.
  intros H. apply String.prefix_correct in H.
  do 7 (destruct auth as [|? auth]; [done|]).
  cbn [String.length String.substring] in H.
  injection H as -> -> -> -> -> -> ->.
  pose proof (after_bearer_app auth) as Ha. cbv [String.append] in Ha.
  by rewrite Ha.
Qed.

Section Trips.

Import Trips TripsHandler.

Variables Sin Cos : float → float.
Variable Atan2 : float → float → float.
Variable FormatRFC3339 : Time → string.
Variable SubSeconds : Time → Time → Z.
Variable Decode_TripRequest : list Byte.byte → result TripRequest.
Variable Decode_AssignRequest : list Byte.byte → result string.
Variable Decode_EndRequest : list Byte.byte → option float * option error.
Variable Validate : string → result Jwt.Claims.

Local Abbreviation handler :=
  (TripsHandler.handler Sin Cos Atan2 FormatRFC3339 SubSeconds
     Decode_TripRequest Decode_AssignRequest Decode_EndRequest).
Local Abbreviation serve :=
  (TripsHandler.serve Sin Cos Atan2 FormatRFC3339 SubSeconds
     Decode_TripRequest Decode_AssignRequest Decode_EndRequest Validate).

Lemma serve_authorized rt fresh now tok body c s :
  Validate tok = Ok c →
  serve rt fresh now ("Bearer " +:+ tok) body s =
    handler rt fresh now body (Jwt.mkRequest ("Bearer " +:+ tok) (Some c)) s.
Proof.
  intros Hv. unfold TripsHandler.serve, Jwt.OptionalAuth, Jwt.incoming.
  cbn [Jwt.Authorization]. by rewrite prefix_bearer_app, after_bearer_app, Hv.
Qed.

Lemma serve_unauthorized rt fresh now authorization body s :
  (∀ tok, authorization = "Bearer " +:+ tok → is_ok (Validate tok) = false) →
  serve rt fresh now authorization body s = (http_Error Jwt.unauthorized 401, s).
Proof.
  intros Hno. unfold TripsHandler.serve, Jwt.OptionalAuth, Jwt.incoming.
  cbn [Jwt.Authorization].
  destruct (String.prefix "Bearer " authorization) eqn:Hp; [|done].
  specialize (Hno _ (prefix_bearer _ Hp)).
  by destruct (Validate (Jwt.after_bearer authorization)).
Qed.

Lemma serve_cases rt fresh now authorization body s :
  serve rt fresh now authorization body s = (http_Error Jwt.unauthorized 401, s) ∨
  ∃ tok c, authorization = "Bearer " +:+ tok ∧ Validate tok = Ok c ∧
           serve rt fresh now authorization body s =
             handler rt fresh now body (Jwt.mkRequest authorization (Some c)) s.
Proof.
  destruct (String.prefix "Bearer " authorization) eqn:Hp.
  - pose proof (prefix_bearer _ Hp) as Heq.
    destruct (Validate (Jwt.after_bearer authorization)) as [c|e] eqn:Hv.
    + right. exists (Jwt.after_bearer authorization), c.
      split; [done|]. split; [done|].
      rewrite Heq at 1. rewrite (serve_authorized _ _ _ _ _ c); [|done].
      by rewrite <-Heq.
    + left. apply serve_unauthorized. intros tok ->.
      rewrite after_bearer_app in Hv. by rewrite Hv.
  - left. apply serve_unauthorized. intros tok ->.
    by rewrite prefix_bearer_app in Hp.
Qed.

(** X17.  Every trip endpoint is closed to a request without a valid token:
    unless the Authorization header is the word Bearer, one space, and a
    token that [Validate] accepts, the answer is 401 with the body
    error: unauthorized and the service is not touched, whatever the endpoint
    and the body; with such a header the handler of the endpoint runs, with
    the claims of that token in the context. *)
Theorem trip_endpoints_ask_for_a_valid_token
  (rt : route) (fresh : string) (now : Time) (authorization : string)
  (body : list Byte.byte) (s : Service) :
  ((∀ tok, authorization = "Bearer " +:+ tok → is_ok (Validate tok) = false) →
   serve rt fresh now authorization body s = (http_Error Jwt.unauthorized 401, s)) ∧
  (∀ tok c, authorization = "Bearer " +:+ tok → Validate tok = Ok c →
   serve rt fresh now authorization body s =
     handler rt fresh now body (Jwt.mkRequest authorization (Some c)) s).
Proof.
  split; [apply serve_unauthorized|].
  intros tok c -> Hv. by apply serve_authorized.
Qed.

(** X18.  Served through the router, the request endpoint never runs into the
    nil claims, and a trip it creates belongs to the bearer of the token: when
    the answer is 201, the header carried a token that [Validate] accepts,
    the trip id in the answer is the fresh one, the status is REQUESTED, and
    the row under that id has the user id of the claims as its rider. *)
Theorem requested_trip_belongs_to_the_token_bearer
  (fresh : string) (now : Time) (authorization : string)
  (body : list Byte.byte) (s : Service) :
  (serve PostRequest fresh now authorization body s).1 ≠ panic ∧
  (∀ code id st s',
     serve PostRequest fresh now authorization body s =
       (writeJSON_created code id st, s') →
     ∃ tok c, authorization = "Bearer " +:+ tok ∧ Validate tok = Ok c ∧
              code = 201%Z ∧ id = fresh ∧ st = StatusRequested ∧
              RiderID <$> trips (db s') !! fresh = Some (Jwt.UserID c)).
Proof.
  destruct (serve_cases PostRequest fresh now authorization body s)
    as [->|(tok & c & Hauth & Hv & ->)]; [by split|].
  unfold TripsHandler.handler, TripsHandler.Request. cbn [Jwt.GetClaims Jwt.ctx_claims].
  destruct (Decode_TripRequest body) as [req|e]; [|by split].
  destruct (Trips.Request FormatRFC3339 fresh now (Jwt.UserID c) req s)
    as [[trip|e] s1] eqn:Hreq; [|by split].
  split; [done|]. intros code id st s' [= <- <- <- <-].
  exists tok, c. split; [done|]. split; [done|].
  destruct (reachable (db s)) eqn:Hup.
  - destruct (trips (db s) !! fresh) as [row|] eqn:Hrow.
    + destruct (LedgerFacts.Request_refused FormatRFC3339 s fresh now (Jwt.UserID c) req)
        as [e He]; [right; by rewrite Hrow|]. by rewrite He in Hreq.
    + rewrite LedgerFacts.Request_inserts in Hreq by done. injection Hreq as <- <-.
      repeat split. unfold with_spawned, with_row. simpl.
      by rewrite lookup_insert_eq.
  - destruct (LedgerFacts.Request_refused FormatRFC3339 s fresh now (Jwt.UserID c) req)
      as [e He]; [by left|]. by rewrite He in Hreq.
Qed.


End Trips.


End ApiFacts.

(** ** Consumer loop and start-up *)

Module LoopFacts.

Section Subscribe.

Context {Reader W : Type}.
Variable ReadMessage : Reader → Kafka.read * Reader.
Variable logf : log_line → W → W.

Local Abbreviation Subscribe := (Kafka.Subscribe ReadMessage logf).
Local Abbreviation reads := (Kafka.reads ReadMessage).
Local Abbreviation turn := (Kafka.turn logf).

(** X20.  The consumer loop hands every message it reads to the handler, once
    and in the order read.  Neither an error of the handler nor a read error
    with the context still live ends the loop or makes it skip a message:
    each is logged and the loop goes on; only a read error with the context
    done ends it.  What the loop leaves behind is the fold of its body over
    what was read, and what was read does not depend on the handler. *)
Theorem Subscribe_handles_what_it_reads
  (n : nat) (topic : string) (handler : list Byte.byte → W → option error * W)
  (r : Reader) (w : W) :
  (Subscribe n topic handler r w).2 = fold_left (turn topic handler) (reads n r) w ∧
  (length (reads n r) ≤ n)%nat ∧
  (∀ i err, reads n r !! i = Some (Kafka.ReadError err true) →
            S i = length (reads n r)).
Proof.
  revert r w. induction n as [|n IH]; intros r w.
  { repeat split; [simpl; lia|]. intros i err. simpl. by rewrite lookup_nil. }
  cbn [Kafka.Subscribe Kafka.reads].
  destruct (ReadMessage r) as [[msg|err [|]] r'].
  - destruct (IH r' (turn topic handler w (Kafka.Delivered msg))) as (H1 & H2 & H3).
    repeat split.
    + cbn [fold_left]. rewrite <-H1. unfold Kafka.turn.
      by destruct (handler (Kafka.Value msg) w) as [[e|] w'].
    + simpl. lia.
    + intros [|i] e; [done|]. simpl. intros Hi. by rewrite (H3 i e Hi).
  - repeat split; [simpl; lia|].
    by intros [|i] e.
  - destruct (IH r' (turn topic handler w (Kafka.ReadError err false))) as (H1 & H2 & H3).
    repeat split.
    + cbn [fold_left]. by rewrite <-H1.
    + simpl. lia.
    + intros [|i] e; [done|]. simpl. intros Hi. by rewrite (H3 i e Hi).
Qed.

End Subscribe.

(** *** The retry loops of the start-up *)

Section NewClient.

Variable Ping : nat → option error.

Lemma NewClient_loop_gives_up togo i st :
  (∀ j, (i ≤ j < i + togo)%nat → Ping j ≠ None) →
  (Redis.NewClient_loop Ping togo i st).1 =
    Some (errorString "redis: failed to connect after 20 attempts") ∧
  slept (Redis.NewClient_loop Ping togo i st).2 = slept st + 2 * Z.of_nat togo.
Proof.
  revert i st. induction togo as [|togo IH]; intros i st Hall; simpl.
  - split; [done|lia].
  - destruct (Ping i) as [e|] eqn:Hi; [|exfalso; apply (Hall i); [lia|done]].
    destruct (IH (S i) (Sleep 2 (Print "Waiting for Redis... (%d/20)"
                                   [PInt (Z.of_nat i + 1)] st))) as [H1 H2].
    { intros j Hj. apply Hall. lia. }
    split; [done|]. rewrite H2. simpl. lia.
Qed.

Lemma NewClient_loop_connects togo i k st :
  (i ≤ k < i + togo)%nat → Ping k = None →
  (∀ j, (i ≤ j < k)%nat → Ping j ≠ None) →
  (Redis.NewClient_loop Ping togo i st).1 = None ∧
  slept (Redis.NewClient_loop Ping togo i st).2 = slept st + 2 * Z.of_nat (k - i).
Proof.
  revert i st. induction togo as [|togo IH]; intros i st Hk Hok Hbefore; [lia|].
  simpl. destruct (Ping i) as [e|] eqn:Hi.
  - assert (i ≠ k) by (intros ->; by rewrite Hok in Hi).
    destruct (IH (S i) (Sleep 2 (Print "Waiting for Redis... (%d/20)"
                                   [PInt (Z.of_nat i + 1)] st))) as [H1 H2];
      [lia|done|intros j Hj; apply Hbefore; lia|].
    split; [done|]. rewrite H2. simpl. lia.
  - destruct (decide (i = k)) as [->|Hne].
    + split; [done|]. simpl. lia.
    + exfalso. apply (Hbefore i); [lia|done].
Qed.

(** X21.  [NewClient] pings at most 20 times, 2 seconds apart.  When none of
    the 20 pings succeeds it returns its error, after 40 seconds of sleep;
    when the first ping to succeed is the one of turn k, it returns the
    client after 2 k seconds of sleep. *)
Theorem NewClient_waits_for_twenty_pings :
  ((∀ j, (j < 20)%nat → Ping j ≠ None) →
   (Redis.NewClient Ping).1 =
     Some (errorString "redis: failed to connect after 20 attempts") ∧
   slept (Redis.NewClient Ping).2 = 40) ∧
  (∀ k, (k < 20)%nat → Ping k = None → (∀ j, (j < k)%nat → Ping j ≠ None) →
   (Redis.NewClient Ping).1 = None ∧
   slept (Redis.NewClient Ping).2 = 2 * Z.of_nat k).
Proof.
  split.
  - intros Hall.
    destruct (NewClient_loop_gives_up 20 0 (mkStartup 0 [])) as [H1 H2].
    { intros j Hj. apply Hall. lia. }
    split; [exact H1|]. unfold Redis.NewClient. rewrite H2. simpl. lia.
  - intros k Hk Hok Hbefore.
    destruct (NewClient_loop_connects 20 0 k (mkStartup 0 [])) as [H1 H2];
      [lia|done|intros j Hj; apply Hbefore; lia|].
    split; [exact H1|]. unfold Redis.NewClient. rewrite H2. simpl. lia.
Qed.

End NewClient.

Section EnsureTopics.

Variable DialContext : nat → option error.
Variable CreateTopics : list Kafka.TopicConfig → option error.

Local Abbreviation EnsureTopics_loop := (Kafka.EnsureTopics_loop DialContext CreateTopics).
Local Abbreviation EnsureTopics := (Kafka.EnsureTopics DialContext CreateTopics).

Lemma EnsureTopics_loop_spec togo attempt topics st :
  match list_find (λ j, DialContext j = None) (seq attempt togo) with
  | None =>
      (EnsureTopics_loop togo attempt topics st).1.1 =
        Some (errorString "kafka: could not connect after 20 attempts") ∧
      slept (EnsureTopics_loop togo attempt topics st).1.2 =
        slept st + 3 * Z.of_nat togo ∧
      (EnsureTopics_loop togo attempt topics st).2 = None
  | Some (i, _) =>
      (EnsureTopics_loop togo attempt topics st).1.1 = None ∧
      slept (EnsureTopics_loop togo attempt topics st).1.2 =
        slept st + 3 * Z.of_nat i ∧
      (EnsureTopics_loop togo attempt topics st).2 =
        Some ((λ t, Kafka.mkTopicConfig t 3 1) <$> topics)
  end.
Proof.
  revert attempt st. induction togo as [|togo IH]; intros attempt st.
  { simpl. repeat split. lia. }
  cbn [seq list_find Kafka.EnsureTopics_loop].
  destruct (decide (DialContext attempt = None)) as [Hd|Hd].
  - rewrite Hd. simpl. repeat split.
    + destruct (CreateTopics _); simpl; lia.
  - destruct (DialContext attempt) as [e|]; [|done].
    specialize (IH (S attempt) (Sleep 3 (Print "Kafka not ready, retrying in 3s... (%d/20)"
                                           [PInt (Z.of_nat attempt)] st))).
    destruct (list_find _ (seq (S attempt) togo)) as [[i j]|]; simpl.
    + destruct IH as (H1 & H2 & H3). repeat split; [done| |done].
      rewrite H2. simpl. lia.
    + destruct IH as (H1 & H2 & H3). repeat split; [done| |done].
      rewrite H2. simpl. lia.
Qed.

(** X22.  [EnsureTopics] dials at most 20 times, 3 seconds apart.  When no
    dial succeeds it returns its error after 60 seconds of sleep and creates
    nothing.  When the first dial to succeed is attempt k, it has slept
    3 (k - 1) seconds, asks once for the given topics, each with 3 partitions
    and replication factor 1, and returns nil, also when the creation fails. *)
Theorem EnsureTopics_waits_for_twenty_dials (topics : list string) :
  ((∀ j, (1 ≤ j ≤ 20)%nat → DialContext j ≠ None) →
   EnsureTopics topics =
     (Some (errorString "kafka: could not connect after 20 attempts"),
      (EnsureTopics topics).1.2, None) ∧
   slept (EnsureTopics topics).1.2 = 60) ∧
  (∀ k, (1 ≤ k ≤ 20)%nat → DialContext k = None →
        (∀ j, (1 ≤ j < k)%nat → DialContext j ≠ None) →
   EnsureTopics topics =
     (None, (EnsureTopics topics).1.2,
      Some ((λ t, Kafka.mkTopicConfig t 3 1) <$> topics)) ∧
   slept (EnsureTopics topics).1.2 = 3 * (Z.of_nat k - 1)).
Proof.
  pose proof (EnsureTopics_loop_spec 20 1 topics (mkStartup 0 [])) as Hspec.
  fold (EnsureTopics topics) in Hspec.
  destruct (list_find (λ j, DialContext j = None) (seq 1 20)) as [[i j]|] eqn:Hfind.
  - apply list_find_Some in Hfind as (Hi & Hj & Hbefore).
    apply lookup_seq in Hi as [-> Hi].
    destruct Hspec as (H1 & H2 & H3). split.
    + intros Hall. exfalso. apply (Hall (1 + i)%nat); [lia|done].
    + intros k Hk Hok Hfirst.
      assert (k = (1 + i)%nat) as ->.
      { destruct (decide (k < 1 + i)%nat) as [Hlt|Hge].
        - exfalso. apply (Hbefore (k - 1)%nat k); [|lia|done].
          apply lookup_seq. split; lia.
        - destruct (decide (1 + i < k)%nat) as [Hlt|Hge']; [|lia].
          exfalso. apply (Hfirst (1 + i)%nat); [lia|done]. }
      split.
      * destruct (EnsureTopics topics) as [[e st] cfg]. simpl in *. by subst.
      * rewrite H2. simpl. lia.
  - apply list_find_None in Hfind. destruct Hspec as (H1 & H2 & H3). split.
    + intros _. split.
      * destruct (EnsureTopics topics) as [[e st] cfg]. simpl in *. by subst.
      * rewrite H2. simpl. lia.
    + intros k Hk Hok _. exfalso.
      rewrite Forall_forall in Hfind. apply (Hfind k); [|done].
      apply elem_of_seq. lia.
Qed.

End EnsureTopics.

Section Connect.

Variable New : nat → option error.
Variable Ping : nat → option error.

Local Abbreviation Connect_loop := (Db.Connect_loop New Ping).

(** Whether turn [i] of the loop connects. *)
Local Abbreviation up i := (New i = None ∧ Ping i = None).

Lemma Connect_loop_gives_up togo i err st :
  (∀ j, (i ≤ j < i + togo)%nat → ¬ up j) →
  (Connect_loop togo i err st).1 =
    Db.FailedAfter30 (if togo is S n then New (i + n) else err) ∧
  slept (Connect_loop togo i err st).2 = slept st + 2 * Z.of_nat togo.
Proof.
  revert i err st. induction togo as [|togo IH]; intros i err st Hall.
  { simpl. split; [done|lia]. }
  cbn [Db.Connect_loop].
  assert (Hrest : ∀ j, (S i ≤ j < S i + togo)%nat → ¬ up j)
    by (intros j Hj; apply Hall; lia).
  assert (Hlast : ∀ e, (if togo is S n then New (S i + n) else e) = New (i + togo)
                       ∨ togo = O).
  { intros e. destruct togo; [by right|left]. f_equal. lia. }
  destruct (New i) as [e|] eqn:Hn.
  - destruct (IH (S i) (Some e)
                (Sleep 2 (Print "Waiting for PostgreSQL... (%d/30)"
                            [PInt (Z.of_nat i + 1)] st)) Hrest) as [H1 H2].
    split.
    + rewrite H1. f_equal. destruct togo; [by rewrite Nat.add_0_r|].
      f_equal. lia.
    + rewrite H2. simpl. lia.
  - destruct (Ping i) as [e|] eqn:Hp; [|exfalso; apply (Hall i); [lia|done]].
    destruct (IH (S i) None
                (Sleep 2 (Print "Waiting for PostgreSQL... (%d/30)"
                            [PInt (Z.of_nat i + 1)] st)) Hrest) as [H1 H2].
    split.
    + rewrite H1. f_equal. destruct togo; [by rewrite Nat.add_0_r|].
      f_equal. lia.
    + rewrite H2. simpl. lia.
Qed.

Lemma Connect_loop_connects togo i k err st :
  (i ≤ k < i + togo)%nat → up k → (∀ j, (i ≤ j < k)%nat → ¬ up j) →
  (Connect_loop togo i err st).1 = Db.Connected ∧
  slept (Connect_loop togo i err st).2 = slept st + 2 * Z.of_nat (k - i).
Proof.
  revert i err st. induction togo as [|togo IH]; intros i err st Hk [Hn Hp] Hbefore;
    [lia|].
  cbn [Db.Connect_loop].
  destruct (decide (i = k)) as [->|Hne].
  - rewrite Hn, Hp. split; [done|]. simpl. lia.
  - assert (Hrest : ∀ j, (S i ≤ j < k)%nat → ¬ up j)
      by (intros j Hj; apply Hbefore; lia).
    destruct (New i) as [e|] eqn:Hni.
    + destruct (IH (S i) (Some e)
                  (Sleep 2 (Print "Waiting for PostgreSQL... (%d/30)"
                              [PInt (Z.of_nat i + 1)] st))) as [H1 H2];
        [lia|done|done|].
      split; [done|]. rewrite H2. simpl. lia.
    + destruct (Ping i) as [e|] eqn:Hpi.
      * destruct (IH (S i) None
                    (Sleep 2 (Print "Waiting for PostgreSQL... (%d/30)"
                                [PInt (Z.of_nat i + 1)] st))) as [H1 H2];
          [lia|done|done|].
        split; [done|]. rewrite H2. simpl. lia.
      * exfalso. apply (Hbefore i); [lia|done].
Qed.

(** X23.  [Connect] tries at most 30 times, 2 seconds apart; a turn connects
    when both the pool can be made and its ping succeeds.  When no turn
    connects it returns, after 60 seconds of sleep, an error that wraps the
    error of the last [pgxpool.New] alone, which is nil when the pool could be
    made and only the ping failed; when turn k is the first to connect it
    returns the pool after 2 k seconds of sleep. *)
Theorem Connect_waits_for_thirty_turns :
  ((∀ j, (j < 30)%nat → ¬ up j) →
   (Db.Connect New Ping).1 = Db.FailedAfter30 (New 29) ∧
   slept (Db.Connect New Ping).2 = 60) ∧
  (∀ k, (k < 30)%nat → up k → (∀ j, (j < k)%nat → ¬ up j) →
   (Db.Connect New Ping).1 = Db.Connected ∧
   slept (Db.Connect New Ping).2 = 2 * Z.of_nat k).
Proof.
  split.
  - intros Hall.
    destruct (Connect_loop_gives_up 30 0 None (mkStartup 0 [])) as [H1 H2].
    { intros j Hj. apply Hall. lia. }
    split; [exact H1|]. unfold Db.Connect. rewrite H2. simpl. lia.
  - intros k Hk Hup Hbefore.
    destruct (Connect_loop_connects 30 0 k None (mkStartup 0 [])) as [H1 H2];
      [lia|done|intros j Hj; apply Hbefore; lia|].
    split; [exact H1|]. unfold Db.Connect. rewrite H2. simpl. lia.
Qed.

End Connect.

End LoopFacts.

(** ** Migrations *)

Module MigrationFacts.
Import Db.

Lemma existsb_eqb_elem f l : existsb (String.eqb f) l = true ↔ f ∈ l.
Proof.
  rewrite existsb_exists. split.
  - intros (x & Hin & Heq). apply String.eqb_eq in Heq as ->.
    by apply list_elem_of_In.
  - intros Hin. exists f. split; [by apply list_elem_of_In|apply String.eqb_refl].
Qed.

Lemma count_positive f l :
  (0 <? length (List.filter (String.eqb f) l))%nat = existsb (String.eqb f) l.
Proof.
  induction l as [|x l IH]; simpl; [done|].
  destruct (String.eqb f x); simpl; [done|exact IH].
Qed.

Lemma filter_sublist {A} (f : A → bool) l : List.filter f l `sublist_of` l.
Proof.
  induction l as [|x l IH]; simpl; [done|].
  destruct (f x); by constructor.
Qed.

Lemma pending_snoc versions file rest :
  file ∉ rest → pending (versions ++ [file]) rest = pending versions rest.
Proof.
  intros Hnot. unfold pending. apply filter_ext_in. intros g Hg.
  rewrite existsb_app. simpl. rewrite orb_false_r.
  destruct (String.eqb g file) eqn:E; [|by rewrite orb_false_r].
  apply String.eqb_eq in E as ->. exfalso. apply Hnot. by apply list_elem_of_In.
Qed.

Section RunMigrations.

Variable ReadDir : result (list DirEntry).
Variable ReadFile : string → result string.
Variable sort_Strings : list string → list string.
Variable rejects : string → DB → option error.

Local Abbreviation apply_files := (Db.apply_files ReadFile rejects).
Local Abbreviation RunMigrations := (Db.RunMigrations ReadDir ReadFile sort_Strings rejects).

Lemma QueryRow_count_recorded file d versions :
  reachable d = true → schema_migrations d = Some versions →
  (0 <? QueryRow_count file d)%nat = existsb (String.eqb file) versions.
Proof.
  intros Hup Hvs. unfold QueryRow_count. rewrite Hup, Hvs. apply count_positive.
Qed.

(** One file that is not recorded yet, when everything goes through. *)
Lemma apply_one file d versions d2 content :
  reachable d = true → schema_migrations d = Some versions →
  existsb (String.eqb file) versions = false →
  Exec_content rejects content d = (None, d2) →
  Exec_record file d2 =
    (None, mkDB true (Some (versions ++ [file])) (executed d ++ [content])).
Proof.
  intros Hup Hvs Hnew. unfold Exec_content. rewrite Hup.
  destruct (rejects content d); [done|]. intros [= <-].
  unfold Exec_record. simpl. by rewrite Hvs, Hnew.
Qed.

Lemma apply_files_done files d versions log d' log' :
  reachable d = true → schema_migrations d = Some versions → NoDup files →
  apply_files files d log = (None, d', log') →
  reachable d' = true ∧
  schema_migrations d' = Some (versions ++ pending versions files) ∧
  ∃ contents,
    Forall2 (λ f c, ReadFile f = Ok c) (pending versions files) contents ∧
    executed d' = executed d ++ contents.
Proof.
  revert d versions log. induction files as [|file rest IH];
    intros d versions log Hup Hvs Hnd.
  { simpl. intros [= <- <-]. rewrite app_nil_r. repeat split; try done.
    exists []. by rewrite app_nil_r. }
  apply NoDup_cons in Hnd as [Hnot Hnd].
  cbn [Db.apply_files]. rewrite (QueryRow_count_recorded file d versions Hup Hvs).
  unfold pending. cbn [List.filter]. fold (pending versions rest).
  destruct (existsb (String.eqb file) versions) eqn:Hrec; cbn [negb].
  { by apply IH. }
  destruct (ReadFile file) as [content|e] eqn:Hread; [|done].
  destruct (Exec_content rejects content d) as [[e|] d1] eqn:Hexec; [done|].
  rewrite (apply_one file d versions d1 content Hup Hvs Hrec Hexec).
  intros Hrun. apply (IH _ (versions ++ [file])) in Hrun as (H1 & H2 & cs & H3 & H4);
    [|done|done|done].
  rewrite pending_snoc in H2, H3 by done.
  split; [done|]. split; [by rewrite H2, <-app_assoc|].
  exists (content :: cs). split; [by constructor|].
  rewrite H4. simpl. by rewrite <-app_assoc.
Qed.

Lemma apply_files_recorded files d versions log :
  reachable d = true → schema_migrations d = Some versions →
  (∀ f, f ∈ files → f ∈ versions) →
  apply_files files d log =
    (None, d,
     log ++ ((λ f, Printf "Migration %s — already applied" [LStr f]) <$> files)).
Proof.
  intros Hup Hvs. revert log. induction files as [|file rest IH]; intros log Hall.
  { simpl. by rewrite app_nil_r. }
  cbn [Db.apply_files]. rewrite (QueryRow_count_recorded file d versions Hup Hvs).
  assert (Hin : existsb (String.eqb file) versions = true).
  { apply existsb_eqb_elem, Hall. by left. }
  rewrite Hin, IH.
  - by rewrite fmap_cons, <-app_assoc.
  - intros f Hf. apply Hall. by right.
Qed.

Lemma pending_covers versions files f :
  f ∈ files → f ∈ versions ++ pending versions files.
Proof.
  intros Hf. apply elem_of_app.
  destruct (existsb (String.eqb f) versions) eqn:E.
  - left. by apply existsb_eqb_elem.
  - right. unfold pending. apply list_elem_of_In, filter_In.
    split; [by apply list_elem_of_In|by rewrite E].
Qed.

Lemma sorted_files_NoDup entries :
  NoDup (Name <$> entries) → (∀ l, sort_Strings l ≡ₚ l) →
  NoDup (sort_Strings (sqlFiles entries)).
Proof.
  intros Hnd Hperm. rewrite Hperm. unfold sqlFiles.
  eapply sublist_NoDup; [exact Hnd|]. apply fmap_sublist, filter_sublist.
Qed.

Lemma RunMigrations_Ok_inv d d' log entries :
  ReadDir = Ok entries →
  RunMigrations d = (None, d', log) →
  reachable d = true ∧
  Db.apply_files ReadFile rejects (sort_Strings (sqlFiles entries))
    (mkDB true (Some (default [] (schema_migrations d))) (executed d)) []
  = (None, d', log).
Proof.
  intros Hdir. unfold Db.RunMigrations, Exec_create. rewrite Hdir.
  destruct (reachable d); [|done]. by intros ->.
Qed.

(** X24.  When [RunMigrations] returns nil, it has executed exactly the
    migration files that were not recorded in schema_migrations before, each
    once, in the order that [sort.Strings] gives to the names of the regular
    entries ending in .sql, and has recorded them in that order after the
    versions that were there; files recorded before are not executed again. *)
Theorem RunMigrations_executes_the_pending_files_in_order
  (d d' : DB) (log : list log_line) (entries : list DirEntry) :
  ReadDir = Ok entries →
  NoDup (Name <$> entries) →
  (∀ l, sort_Strings l ≡ₚ l) →
  RunMigrations d = (None, d', log) →
  let versions := default [] (schema_migrations d) in
  let new := pending versions (sort_Strings (sqlFiles entries)) in
  schema_migrations d' = Some (versions ++ new) ∧
  ∃ contents,
    Forall2 (λ f c, ReadFile f = Ok c) new contents ∧
    executed d' = executed d ++ contents.
Proof.
  intros Hdir Hnd Hperm Hrun versions new.
  destruct (RunMigrations_Ok_inv d d' log entries Hdir Hrun) as [Hup Happly].
  apply apply_files_done with (versions := versions) in Happly
    as (_ & H2 & H3); [done|done|done|].
  by apply sorted_files_NoDup.
Qed.

(** X25.  [RunMigrations] is idempotent: run again on the database that a
    successful run has left, it executes and records nothing, reports every
    file as already applied, and returns nil. *)
Theorem RunMigrations_again_changes_nothing
  (d d' : DB) (log : list log_line) (entries : list DirEntry) :
  ReadDir = Ok entries →
  RunMigrations d = (None, d', log) →
  RunMigrations d' =
    (None, d',
     (λ f, Printf "Migration %s — already applied" [LStr f])
       <$> sort_Strings (sqlFiles entries)).
Proof.
  intros Hdir Hrun.
  destruct (RunMigrations_Ok_inv d d' log entries Hdir Hrun) as [Hup Happly].
  assert (Hinv : ∀ files d0 versions log0 d1 log1,
            reachable d0 = true → schema_migrations d0 = Some versions →
            Db.apply_files ReadFile rejects files d0 log0 = (None, d1, log1) →
            reachable d1 = true ∧
            ∃ versions', schema_migrations d1 = Some versions' ∧
                         (∀ f, f ∈ versions → f ∈ versions') ∧
                         (∀ f, f ∈ files → f ∈ versions')).
  { induction files as [|file rest IH]; intros d0 versions log0 d1 log1 Hup0 Hvs0.
    { simpl. intros [= <- <-]. split; [done|]. exists versions.
      split; [done|]. split; [done|]. by intros f ?%elem_of_nil. }
    cbn [Db.apply_files].
    rewrite (QueryRow_count_recorded file d0 versions Hup0 Hvs0).
    destruct (existsb (String.eqb file) versions) eqn:Hrec.
    - intros Hrest. destruct (IH _ _ _ _ _ Hup0 Hvs0 Hrest) as (H1 & vs' & H2 & H3 & H4).
      split; [done|]. exists vs'. split; [done|]. split; [done|].
      intros f [->|Hf]%elem_of_cons; [|by apply H4].
      by apply H3, existsb_eqb_elem.
    - destruct (ReadFile file) as [content|e]; [|done].
      destruct (Exec_content rejects content d0) as [[e|] d2] eqn:Hexec; [done|].
      rewrite (apply_one file d0 versions d2 content Hup0 Hvs0 Hrec Hexec).
      intros Hrest.
      destruct (IH (mkDB true (Some (versions ++ [file])) (executed d0 ++ [content]))
                  (versions ++ [file]) _ _ _ eq_refl eq_refl Hrest)
        as (H1 & vs' & H2 & H3 & H4).
      split; [done|]. exists vs'. split; [done|]. split.
      + intros f Hf. apply H3, elem_of_app. by left.
      + intros f [->|Hf]%elem_of_cons; [|by apply H4].
        apply H3, elem_of_app. right. by left. }
  destruct (Hinv _ (mkDB true (Some (default [] (schema_migrations d))) (executed d))
              _ _ _ _ eq_refl eq_refl Happly) as (Hup' & vs' & Hvs' & _ & Hall).
  unfold Db.RunMigrations, Exec_create. rewrite Hup', Hdir, Hvs'. simpl.
  assert (Hd' : mkDB true (Some vs') (executed d') = d').
  { destruct d' as [up vs ex]. simpl in *. by subst. }
  rewrite Hd'.
  by rewrite (apply_files_recorded _ d' vs' [] Hup' Hvs' Hall).
Qed.

End RunMigrations.

Local Abbreviation sample_run :=
  (Db.RunMigrations (Ok Samples.migration_entries) Samples.read_migration
     Samples.sort_in_order Samples.rejects_nothing).

Lemma sample_entries_NoDup : NoDup (Name <$> Samples.migration_entries).
Proof. apply (bool_decide_unpack _). by vm_compute. Qed.

(** The three files on a database that has the first one already. *)
Lemma RunMigrations_executes_the_pending_files_in_order_witness :
  schema_migrations (sample_run Samples.db_after_V1).1.2 =
    Some (["V1_create_users.sql"] ++
          ["V2_create_drivers.sql"; "V3_create_trips.sql"]) ∧
  ∃ contents,
    Forall2 (λ f c, Samples.read_migration f = Ok c)
      ["V2_create_drivers.sql"; "V3_create_trips.sql"] contents ∧
    executed (sample_run Samples.db_after_V1).1.2 =
      ["-- V1_create_users.sql"] ++ contents.
Proof.
  exact (RunMigrations_executes_the_pending_files_in_order
           (Ok Samples.migration_entries) Samples.read_migration
           Samples.sort_in_order Samples.rejects_nothing
           Samples.db_after_V1 (sample_run Samples.db_after_V1).1.2
           (sample_run Samples.db_after_V1).2 Samples.migration_entries
           eq_refl sample_entries_NoDup (λ l, reflexivity l) eq_refl).
Defined.

Lemma RunMigrations_again_changes_nothing_witness :
  sample_run (sample_run Samples.db_after_V1).1.2 =
    (None, (sample_run Samples.db_after_V1).1.2,
     (λ f, Printf "Migration %s — already applied" [LStr f])
       <$> ["V1_create_users.sql"; "V2_create_drivers.sql"; "V3_create_trips.sql"]).
Proof.
  exact (RunMigrations_again_changes_nothing
           (Ok Samples.migration_entries) Samples.read_migration
           Samples.sort_in_order Samples.rejects_nothing
           Samples.db_after_V1 (sample_run Samples.db_after_V1).1.2
           (sample_run Samples.db_after_V1).2 Samples.migration_entries
           eq_refl eq_refl).
Defined.

End MigrationFacts.

(** ** Rider accounts *)

Module UsersFacts.
Import Users.

Lemma find_snoc_new {A} (f : A → bool) l x :
  existsb f l = false → f x = true → List.find f (l ++ [x]) = Some x.
Proof.
  induction l as [|y l IH]; simpl; [by intros _ ->|].
  destruct (f y); [done|]. apply IH.
Qed.

Section Service.

Variable GenerateFromPassword : string → result string.
Variable CompareHashAndPassword : string → string → bool.
Variable Generate : Trips.Time → string → string → string → result string.

Local Abbreviation Register :=
  (Users.Register GenerateFromPassword Generate).
Local Abbreviation Login := (Users.Login CompareHashAndPassword Generate).

Lemma Register_Ok_inv id now req p resp p' :
  Register id now req p = (Ok resp, p') →
  ∃ hash token,
    GenerateFromPassword (req_Password req) = Ok hash ∧
    Generate now id (req_Email req) "rider" = Ok token ∧
    reachable p = true ∧
    existsb (λ u, String.eqb (Email u) (req_Email req)) (users p) = false ∧
    p' = mkPool true
           (users p ++
              [mkUser id (req_Name req) (req_Email req) (req_Phone req) hash 5
                 (Some now)]) ∧
    resp = mkAuthResponse token
             (mkUser id (req_Name req) (req_Email req) (req_Phone req) "" 5 None).
Proof.
  unfold Users.Register, QueryRow_exists, Exec_insert.
  destruct (reachable p) eqn:Hup; simpl.
  - destruct (existsb (λ u, String.eqb (Email u) (req_Email req)) (users p)) eqn:He;
      [done|].
    destruct (existsb (λ u, String.eqb (Phone u) (req_Phone req)) (users p)); [done|].
    destruct (GenerateFromPassword (req_Password req)) as [hash|e]; [|done].
    match goal with |- context [if ?b then _ else _] => destruct b end; [done|].
    destruct (Generate now id (req_Email req) "rider") as [token|e]; [|done].
    intros [= <- <-]. by exists hash, token.
  - destruct (GenerateFromPassword (req_Password req)) as [hash|e]; done.
Qed.

(** X26.  A rider who has registered can log in.  When [Register] returns an
    account, the table has one more row, with the id, name, email and phone of
    the request, the hash of its password and the rating 5; and from then on
    [Login] with the email and the password of the request finds that row and,
    if a token can be made, returns the account with the same id, name, email
    and phone, provided the hash of a password matches the password; with a
    password that does not match the hash it answers invalid credentials. *)
Theorem registered_rider_can_log_in
  (id : string) (now : Trips.Time) (req : RegisterRequest) (p p' : Pool)
  (resp : AuthResponse) :
  (∀ pw hash, GenerateFromPassword pw = Ok hash →
              CompareHashAndPassword hash pw = true) →
  Register id now req p = (Ok resp, p') →
  (ID (user resp), Name (user resp), Email (user resp), Phone (user resp)) =
    (id, req_Name req, req_Email req, req_Phone req) ∧
  (∃ hash, GenerateFromPassword (req_Password req) = Ok hash ∧
     users p' =
       users p ++
         [mkUser id (req_Name req) (req_Email req) (req_Phone req) hash 5 (Some now)] ∧
     ∀ pw, CompareHashAndPassword hash pw = false →
           ∀ now', Login now' (mkLoginRequest (req_Email req) pw) p' =
                     Fail (errorString "invalid credentials")) ∧
  ∀ now',
    match Generate now' id (req_Email req) "rider" with
    | Ok token =>
        Login now' (mkLoginRequest (req_Email req) (req_Password req)) p' =
          Ok (mkAuthResponse token
                (mkUser id (req_Name req) (req_Email req) (req_Phone req) "" 5
                   (Some now)))
    | Fail err =>
        Login now' (mkLoginRequest (req_Email req) (req_Password req)) p' = Fail err
    end.
Proof.
  intros Hbcrypt Hreg.
  apply Register_Ok_inv in Hreg as (hash & token & Hhash & Htok & Hup & Hnew & -> & ->).
  assert (Hfind : QueryRow_by_email (req_Email req)
                    (mkPool true
                       (users p ++
                          [mkUser id (req_Name req) (req_Email req) (req_Phone req)
                             hash 5 (Some now)]))
                  = Ok (mkUser id (req_Name req) (req_Email req) (req_Phone req)
                          hash 5 (Some now))).
  { unfold QueryRow_by_email. simpl. rewrite find_snoc_new; [done|done|].
    simpl. apply String.eqb_refl. }
  split; [done|]. split.
  - exists hash. split; [done|]. split; [done|].
    intros pw Hpw now'. unfold Users.Login. cbn [login_Email login_Password].
    rewrite Hfind. simpl. by rewrite Hpw.
  - intros now'. unfold Users.Login. cbn [login_Email login_Password].
    rewrite Hfind. simpl. rewrite (Hbcrypt _ _ Hhash). simpl.
    by destruct (Generate now' id (req_Email req) "rider").
Qed.

(** X27.  [Login] succeeds only with the password of the account: when it
    returns an account, the table has a row with the email of the request
    whose hash matches the password of the request, and the account returned
    is that row, without the hash.  An email that no row has, a password that
    does not match, and a pool that does not answer are all answered with the
    same error, invalid credentials. *)
Theorem Login_needs_the_password_of_the_account
  (now : Trips.Time) (req : LoginRequest) (p : Pool) :
  (∀ resp, Login now req p = Ok resp →
     ∃ row, row ∈ users p ∧ Email row = login_Email req ∧
            CompareHashAndPassword (PasswordHash row) (login_Password req) = true ∧
            user resp = mkUser (ID row) (Name row) (Email row) (Phone row) ""
                          (Rating row) (CreatedAt row)) ∧
  (reachable p = false ∨
   (∀ row, row ∈ users p → Email row ≠ login_Email req) ∨
   (∀ row, row ∈ users p →
           CompareHashAndPassword (PasswordHash row) (login_Password req) = false) →
   Login now req p = Fail (errorString "invalid credentials")).
Proof.
  unfold Users.Login, QueryRow_by_email. split.
  - intros resp. destruct (reachable p); [|done].
    destruct (List.find _ (users p)) as [row|] eqn:Hfind; [|done].
    apply find_some in Hfind as [Hin Heq]. apply String.eqb_eq in Heq.
    destruct (CompareHashAndPassword (PasswordHash row) (login_Password req)) eqn:Hc;
      [|done].
    simpl. destruct (Generate now (ID row) (Email row) "rider"); [|done].
    intros [= <-]. exists row. repeat split; try done. by apply list_elem_of_In.
  - intros Hcase. destruct (reachable p); [|done].
    destruct (List.find _ (users p)) as [row|] eqn:Hfind; [|done].
    apply find_some in Hfind as [Hin Heq]. apply String.eqb_eq in Heq.
    apply list_elem_of_In in Hin.
    destruct Hcase as [?|[Hno|Hno]]; [done| |].
    + by destruct (Hno row Hin).
    + by rewrite (Hno row Hin).
Qed.

End Service.

(** The sample rider registers on an empty table and logs in. *)
Lemma registered_rider_can_log_in_witness :
  ∃ p',
    (Users.Register Samples.hash_stub Samples.sign_stub "u1" 100 Samples.rider_1
       (mkPool true [])).2 = p' ∧
    Users.Login Samples.compare_stub Samples.sign_stub 200
      (mkLoginRequest "asha@example.com" "secret1") p' =
      Ok (mkAuthResponse "u1.rider"
            (mkUser "u1" "Asha" "asha@example.com" "+919876543210" "" 5 (Some 100))) ∧
    Users.Login Samples.compare_stub Samples.sign_stub 200
      (mkLoginRequest "asha@example.com" "secret2") p' =
      Fail (errorString "invalid credentials").
Proof.
  eexists. split; [reflexivity|].
  destruct (registered_rider_can_log_in
              Samples.hash_stub Samples.compare_stub Samples.sign_stub
              "u1" 100 Samples.rider_1 (mkPool true [])
              (Users.Register Samples.hash_stub Samples.sign_stub "u1" 100
                 Samples.rider_1 (mkPool true [])).2
              (mkAuthResponse "u1.rider"
                 (mkUser "u1" "Asha" "asha@example.com" "+919876543210" "" 5 None)))
    as (_ & (hash & Hhash & _ & Hwrong) & Hright).
  { intros pw hash [= <-]. apply String.eqb_refl. }
  { reflexivity. }
  split.
  - exact (Hright 200).
  - apply Hwrong. injection Hhash as <-. reflexivity.
Defined.

End UsersFacts.

(** ** Regular expressions *)

Module RegexpFacts.
Import Regexp.

Lemma nullable_matches r : nullable r = true ↔ matches r [].
Proof.
  split.
  - induction r as [| |c|r1 IH1 r2 IH2|r1 IH1 r2 IH2|r IH]; simpl; try done.
    + intros _. constructor.
    + intros [H1 H2]%andb_true_iff. apply (matches_Concat r1 r2 [] []); auto.
    + intros [H|H]%orb_true_iff; [apply matches_Alternate_l|apply matches_Alternate_r]; auto.
    + intros _. constructor.
  - remember [] as s eqn:Hs. intros Hm. revert Hs.
    induction Hm as [|c a Hc|r1 r2 s1 s2 H1 IH1 H2 IH2|r1 r2 s H IH|r1 r2 s H IH
                     |r|r s1 s2 H1 IH1 H2 IH2]; simpl; try done.
    + intros Hs. apply app_eq_nil in Hs as [-> ->].
      by rewrite IH1, IH2.
    + intros Hs. by rewrite IH.
    + intros Hs. rewrite IH by done. apply orb_true_r.
Qed.

Lemma matches_Star_inv r a s :
  matches (Star r) (a :: s) →
  ∃ s1 s2, s = s1 ++ s2 ∧ matches r (a :: s1) ∧ matches (Star r) s2.
Proof.
  remember (Star r) as r' eqn:Hr. remember (a :: s) as t eqn:Ht.
  intros Hm. revert Hr Ht.
  induction Hm as [|c b Hc|r1 r2 s1 s2 H1 IH1 H2 IH2|r1 r2 s0 H IH|r1 r2 s0 H IH
                   |r0|r0 s1 s2 H1 IH1 H2 IH2]; try done.
  intros [= ->] Ht. destruct s1 as [|b s1].
  - simpl in Ht. by apply IH2.
  - simpl in Ht. injection Ht as -> <-. by exists s1, s2.
Qed.

Lemma matches_Nothing_inv s : ¬ matches Nothing s.
Proof. inversion 1. Qed.

Lemma matches_Epsilon_inv s : matches Epsilon s → s = [].
Proof. by inversion 1. Qed.

Lemma matches_Class_inv c s : matches (Class c) s → ∃ a, s = [a] ∧ c a = true.
Proof. inversion 1; subst; eauto. Qed.

Lemma matches_Concat_inv r1 r2 s :
  matches (Concat r1 r2) s → ∃ s1 s2, s = s1 ++ s2 ∧ matches r1 s1 ∧ matches r2 s2.
Proof. inversion 1; subst; eauto. Qed.

Lemma matches_Alternate_inv r1 r2 s :
  matches (Alternate r1 r2) s → matches r1 s ∨ matches r2 s.
Proof. inversion 1; subst; eauto. Qed.

Lemma matches_Concat_cons r1 r2 a s :
  matches (Concat r1 r2) (a :: s) ↔
  (∃ s1 s2, s = s1 ++ s2 ∧ matches r1 (a :: s1) ∧ matches r2 s2) ∨
  (matches r1 [] ∧ matches r2 (a :: s)).
Proof.
  split.
  - intros (s1 & s2 & Heq & H1 & H2)%matches_Concat_inv.
    destruct s1 as [|b s1]; simpl in Heq.
    + subst. by right.
    + injection Heq as <- ->. left. by exists s1, s2.
  - intros [(s1 & s2 & -> & H1 & H2)|[H1 H2]].
    + by apply (matches_Concat r1 r2 (a :: s1) s2).
    + by apply (matches_Concat r1 r2 [] (a :: s)).
Qed.

Lemma derive_matches a r s : matches (derive a r) s ↔ matches r (a :: s).
Proof.
  revert s. induction r as [| |c|r1 IH1 r2 IH2|r1 IH1 r2 IH2|r IH]; intros s; simpl.
  - split; by intros ?%matches_Nothing_inv.
  - split; [by intros ?%matches_Nothing_inv|by intros ?%matches_Epsilon_inv].
  - destruct (c a) eqn:Hc; split.
    + intros ->%matches_Epsilon_inv. by constructor.
    + intros (b & [= <- ->] & _)%matches_Class_inv. constructor.
    + by intros ?%matches_Nothing_inv.
    + intros (b & [= <- ->] & Hb)%matches_Class_inv. congruence.
  - rewrite matches_Concat_cons. destruct (nullable r1) eqn:Hn.
    + split.
      * intros [(s1 & s2 & -> & H1 & H2)%matches_Concat_inv|H]%matches_Alternate_inv.
        -- left. exists s1, s2. split; [done|]. split; [by apply IH1|done].
        -- right. split; [by apply nullable_matches|by apply IH2].
      * intros [(s1 & s2 & -> & H1 & H2)|[H1 H2]].
        -- apply matches_Alternate_l, matches_Concat; [by apply IH1|done].
        -- apply matches_Alternate_r. by apply IH2.
    + split.
      * intros (s1 & s2 & -> & H1 & H2)%matches_Concat_inv.
        left. exists s1, s2. split; [done|]. split; [by apply IH1|done].
      * intros [(s1 & s2 & -> & H1 & H2)|[H1 H2]].
        -- apply matches_Concat; [by apply IH1|done].
        -- apply nullable_matches in H1. congruence.
  - split.
    + intros [H|H]%matches_Alternate_inv;
        [apply matches_Alternate_l; by apply IH1|apply matches_Alternate_r; by apply IH2].
    + intros [H|H]%matches_Alternate_inv;
        [apply matches_Alternate_l; by apply IH1|apply matches_Alternate_r; by apply IH2].
  - split.
    + intros (s1 & s2 & -> & H1 & H2)%matches_Concat_inv.
      apply IH in H1. by apply (matches_Star_cons r (a :: s1) s2).
    + intros (s1 & s2 & -> & H1 & H2)%matches_Star_inv.
      apply matches_Concat; [by apply IH|done].
Qed.

Lemma matchb_matches r s : matchb r s = true ↔ matches r s.
Proof.
  revert r. induction s as [|a s IH]; intros r; simpl.
  - apply nullable_matches.
  - rewrite IH. apply derive_matches.
Qed.

(** *** Repetitions of a class *)

Lemma matches_Star_Class c s :
  matches (Star (Class c)) s ↔ Forall (λ a, c a = true) s.
Proof.
  split.
  - remember (Star (Class c)) as r eqn:Hr. intros Hm. revert Hr.
    induction Hm as [|c' a Hc|r1 r2 s1 s2 H1 IH1 H2 IH2|r1 r2 s0 H IH|r1 r2 s0 H IH
                     |r0|r0 s1 s2 H1 IH1 H2 IH2]; try done.
    intros [= ->]. apply matches_Class_inv in H1 as (a & -> & Ha).
    constructor; [done|by apply IH2].
  - induction 1 as [|a s Ha Hs IH]; [constructor|].
    apply (matches_Star_cons (Class c) [a] s); [by constructor|done].
Qed.

Lemma matches_Power_Class n c s :
  matches (Power n (Class c)) s ↔ length s = n ∧ Forall (λ a, c a = true) s.
Proof.
  revert s. induction n as [|n IH]; intros s; simpl.
  - split.
    + by intros ->%matches_Epsilon_inv.
    + intros [Hl _]. destruct s; [constructor|done].
  - split.
    + intros (s1 & s2 & -> & (a & -> & Ha)%matches_Class_inv & H2)%matches_Concat_inv.
      apply IH in H2 as [<- H2]. split; [done|by constructor].
    + intros [Hl Hall]. destruct s as [|a s]; [done|].
      apply Forall_cons in Hall as [Ha Hall]. injection Hl as Hl.
      apply (matches_Concat (Class c) _ [a] s); [by constructor|by apply IH].
Qed.

Lemma matches_AtMost_Class k c s :
  matches (AtMost k (Class c)) s ↔ (length s ≤ k)%nat ∧ Forall (λ a, c a = true) s.
Proof.
  revert s. induction k as [|k IH]; intros s; simpl.
  - split.
    + intros ->%matches_Epsilon_inv. by split.
    + intros [Hl _]. destruct s; [constructor|simpl in Hl; lia].
  - unfold Quest. split.
    + intros [(s1 & s2 & -> & (a & -> & Ha)%matches_Class_inv & H2)%matches_Concat_inv
             | ->%matches_Epsilon_inv]%matches_Alternate_inv.
      * apply IH in H2 as [Hl H2]. split; [simpl; lia|by constructor].
      * split; [simpl; lia|done].
    + intros [Hl Hall]. destruct s as [|a s].
      * apply matches_Alternate_r. constructor.
      * apply Forall_cons in Hall as [Ha Hall]. simpl in Hl.
        apply matches_Alternate_l.
        apply (matches_Concat (Class c) _ [a] s); [by constructor|].
        apply IH. split; [lia|done].
Qed.

Lemma matches_Plus_Class c s :
  matches (Plus (Class c)) s ↔ s ≠ [] ∧ Forall (λ a, c a = true) s.
Proof.
  unfold Plus. split.
  - intros (s1 & s2 & -> & (a & -> & Ha)%matches_Class_inv & H2)%matches_Concat_inv.
    apply matches_Star_Class in H2. split; [done|by constructor].
  - intros [Hne Hall]. destruct s as [|a s]; [done|].
    apply Forall_cons in Hall as [Ha Hall].
    apply (matches_Concat (Class c) _ [a] s); [by constructor|].
    by apply matches_Star_Class.
Qed.

Lemma matches_Repeat_Class n m c s :
  (n ≤ m)%nat →
  matches (Repeat n m (Class c)) s ↔
  (n ≤ length s ≤ m)%nat ∧ Forall (λ a, c a = true) s.
Proof.
  intros Hnm. unfold Repeat. split.
  - intros (s1 & s2 & -> & [H1 A1]%matches_Power_Class
            & [H2 A2]%matches_AtMost_Class)%matches_Concat_inv.
    rewrite length_app. split; [lia|by apply Forall_app].
  - intros [Hl Hall]. rewrite <-(take_drop n s) in Hall |- *.
    apply Forall_app in Hall as [A1 A2].
    apply matches_Concat.
    + apply matches_Power_Class. split; [rewrite length_take; lia|done].
    + apply matches_AtMost_Class. split; [rewrite length_drop; lia|done].
Qed.

Lemma matches_AtLeast_Class n c s :
  matches (AtLeast n (Class c)) s ↔
  (n ≤ length s)%nat ∧ Forall (λ a, c a = true) s.
Proof.
  unfold AtLeast. split.
  - intros (s1 & s2 & -> & [H1 A1]%matches_Power_Class
            & A2%matches_Star_Class)%matches_Concat_inv.
    rewrite length_app. split; [lia|by apply Forall_app].
  - intros [Hl Hall]. rewrite <-(take_drop n s) in Hall |- *.
    apply Forall_app in Hall as [A1 A2].
    apply matches_Concat.
    + apply matches_Power_Class. split; [rewrite length_take; lia|done].
    + by apply matches_Star_Class.
Qed.

End RegexpFacts.

(** ** Names, addresses, numbers *)

Module ValidationFacts.
Import Regexp RegexpFacts Validation.

Lemma length_chars s : length (String.list_ascii_of_string s) = String.length s.
Proof. induction s as [|a s IH]; simpl; [done|by rewrite IH]. Qed.

Lemma MatchString_matches r s :
  MatchString r s = true ↔ matches r (String.list_ascii_of_string s).
Proof. apply matchb_matches. Qed.

Section Trimmed.

Variable TrimSpace : string → string.

Local Abbreviation chars s := (String.list_ascii_of_string (TrimSpace s)).

(** X28.  [ValidatePhone] accepts exactly the numbers that, once trimmed,
    are an optional plus sign, a digit from 1 to 9, and 1 to 14 more digits.
    Such a text has at most 16 bytes, so the bound of 50 on the length never
    decides; and the emptiness test never decides either. *)
Theorem ValidatePhone_accepts_international_numbers (phone : string) :
  (ValidatePhone TrimSpace phone = true ↔
   ∃ sign d ds,
     chars phone = sign ++ d :: ds ∧
     (sign = [] ∨ ∃ a, sign = [a] ∧ is_byte 43 a = true) ∧
     nonzero_digit d = true ∧
     (1 ≤ length ds ≤ 14)%nat ∧ Forall (λ a, digit a = true) ds) ∧
  ValidatePhone TrimSpace phone = MatchString phoneRegex (TrimSpace phone).
Proof.
  assert (Hshape : MatchString phoneRegex (TrimSpace phone) = true ↔
            ∃ sign d ds,
              chars phone = sign ++ d :: ds ∧
              (sign = [] ∨ ∃ a, sign = [a] ∧ is_byte 43 a = true) ∧
              nonzero_digit d = true ∧
              (1 ≤ length ds ≤ 14)%nat ∧ Forall (λ a, digit a = true) ds).
  { rewrite MatchString_matches. unfold phoneRegex, Quest. split.
    - intros (sign & rest & -> & Hsign & Hrest)%matches_Concat_inv.
      apply matches_Concat_inv in Hrest
        as (s1 & ds & -> & (d & -> & Hd)%matches_Class_inv & Hds).
      apply matches_Repeat_Class in Hds as [Hl Hall]; [|lia].
      exists sign, d, ds. split; [done|]. split; [|done].
      apply matches_Alternate_inv in Hsign
        as [(a & -> & Ha)%matches_Class_inv| ->%matches_Epsilon_inv]; eauto.
    - intros (sign & d & ds & -> & Hsign & Hd & Hl & Hall).
      apply matches_Concat.
      + destruct Hsign as [->|(a & -> & Ha)].
        * apply matches_Alternate_r. constructor.
        * apply matches_Alternate_l. by constructor.
      + apply (matches_Concat _ _ [d] ds); [by constructor|].
        apply matches_Repeat_Class; [lia|done]. }
  assert (Heq : ValidatePhone TrimSpace phone = MatchString phoneRegex (TrimSpace phone)).
  { apply eq_true_iff_eq. unfold ValidatePhone.
    rewrite !andb_true_iff, Nat.leb_le, negb_true_iff. split; [by intros [[_ ?] _]|].
    intros Hm. split; [split; [|done]|].
    - apply Hshape in Hm as (sign & d & ds & Hch & _).
      destruct (TrimSpace phone); [by destruct sign|done].
    - apply Hshape in Hm as (sign & d & ds & Hch & Hsign & _ & Hl & _).
      rewrite <-length_chars, Hch, length_app. simpl.
      assert (length sign ≤ 1)%nat by (destruct Hsign as [->|(a & -> & _)]; simpl; lia).
      lia. }
  split; [|done]. by rewrite Heq.
Qed.

(** X29.  [ValidateEmail] accepts exactly the addresses that, once trimmed,
    have at most 200 bytes and are a local part, an at sign, a domain, a dot
    and a top-level part: the local part one or more bytes out of letters,
    digits and . _ % + -, the domain one or more out of letters, digits and
    . -, the top-level part two or more letters. *)
Theorem ValidateEmail_accepts_well_formed_addresses (email : string) :
  ValidateEmail TrimSpace email = true ↔
  (String.length (TrimSpace email) ≤ 200)%nat ∧
  ∃ loc a dom b tld,
    chars email = loc ++ a :: dom ++ b :: tld ∧
    loc ≠ [] ∧ Forall (λ x, local_class x = true) loc ∧
    is_byte 64 a = true ∧
    dom ≠ [] ∧ Forall (λ x, domain_class x = true) dom ∧
    is_byte 46 b = true ∧
    (2 ≤ length tld)%nat ∧ Forall (λ x, letter x = true) tld.
Proof.
  unfold ValidateEmail. rewrite !andb_true_iff, Nat.leb_le, MatchString_matches.
  unfold emailRegex. split.
  - intros [[_ Hm] Hlen]. split; [done|].
    apply matches_Concat_inv in Hm as (loc & r1 & -> & [Hl1 Hl2]%matches_Plus_Class & Hm).
    apply matches_Concat_inv in Hm as (s1 & r2 & -> & (a & -> & Ha)%matches_Class_inv & Hm).
    apply matches_Concat_inv in Hm as (dom & r3 & -> & [Hd1 Hd2]%matches_Plus_Class & Hm).
    apply matches_Concat_inv in Hm as (s2 & tld & -> & (b & -> & Hb)%matches_Class_inv & Hm).
    apply matches_AtLeast_Class in Hm as [Ht1 Ht2].
    by exists loc, a, dom, b, tld.
  - intros (Hlen & loc & a & dom & b & tld & Hch & Hl1 & Hl2 & Ha & Hd1 & Hd2 & Hb
            & Ht1 & Ht2).
    split; [split|done].
    + destruct (TrimSpace email); [by destruct loc|done].
    + rewrite Hch. apply matches_Concat; [by apply matches_Plus_Class|].
      apply (matches_Concat _ _ [a]); [by constructor|].
      apply matches_Concat; [by apply matches_Plus_Class|].
      apply (matches_Concat _ _ [b]); [by constructor|].
      by apply matches_AtLeast_Class.
Qed.

End Trimmed.

End ValidationFacts.

(** ** Driver accounts *)

Module AccountFacts.
Import Drivers.

Section Accounts.

Variable TrimSpace : string → string.
Variable Decode_RegisterRequest : list Byte.byte → result RegisterRequest.
Variable GenerateFromPassword : string → result string.
Variable Generate : Z → string → string → string → result string.

Local Abbreviation Service_Register :=
  (Drivers.Service_Register GenerateFromPassword Generate).
Local Abbreviation Register :=
  (Drivers.Register TrimSpace Decode_RegisterRequest GenerateFromPassword Generate).
Local Abbreviation Register_all :=
  (Drivers.Register_all TrimSpace Decode_RegisterRequest GenerateFromPassword Generate).
Local Abbreviation well_formed := (Drivers.well_formed TrimSpace).

(** The vehicle type that [Service.Register] stores. *)
Local Abbreviation vehicle req :=
  (if String.eqb (req_VehicleType req) "" then "sedan" else req_VehicleType req).

Lemma Service_Register_rows id now req p :
  drivers (Service_Register id now req p).2 = drivers p ∨
  ∃ hash,
    GenerateFromPassword (req_Password req) = Ok hash ∧
    drivers (Service_Register id now req p).2 =
      drivers p ++
        [mkDriver id (req_Name req) (req_Email req) (req_Phone req) hash (vehicle req)
           (req_LicensePlate req) "available" 5 (Some now)].
Proof.
  unfold Drivers.Service_Register, Exec_insert.
  destruct (QueryRow_exists_email (req_Email req) p); [by left|].
  destruct (GenerateFromPassword (req_Password req)) as [hash|e]; [|by left].
  destruct (reachable p); [|by left].
  match goal with |- context [if ?b then _ else _] => destruct b end; [by left|].
  right. exists hash. split; [done|].
  by destruct (Generate now id (req_Email req) "driver").
Qed.

Lemma Register_rows id now body p :
  drivers (Register id now body p).2 = drivers p ∨
  ∃ req hash,
    Decode_RegisterRequest body = Ok req ∧
    Validation.ValidateName TrimSpace (req_Name req) = true ∧
    Validation.ValidateEmail TrimSpace (req_Email req) = true ∧
    Validation.ValidatePhone TrimSpace (req_Phone req) = true ∧
    Validation.ValidatePassword (req_Password req) = true ∧
    GenerateFromPassword (req_Password req) = Ok hash ∧
    drivers (Register id now body p).2 =
      drivers p ++
        [mkDriver id (req_Name req) (req_Email req) (req_Phone req) hash (vehicle req)
           (req_LicensePlate req) "available" 5 (Some now)].
Proof.
  unfold Drivers.Register.
  destruct (Decode_RegisterRequest body) as [req|e]; [|by left].
  destruct (Validation.ValidateName TrimSpace (req_Name req)) eqn:Hn; [|by left].
  destruct (Validation.ValidateEmail TrimSpace (req_Email req)) eqn:He; [|by left].
  destruct (Validation.ValidatePhone TrimSpace (req_Phone req)) eqn:Hp; [|by left].
  destruct (Validation.ValidatePassword (req_Password req)) eqn:Hw; [|by left].
  simpl.
  destruct (Service_Register_rows id now req p) as [Hsame|(hash & Hhash & Hnew)].
  - left. by destruct (Service_Register id now req p) as [[resp|e] p'].
  - right. exists req, hash. repeat split; try done.
    by destruct (Service_Register id now req p) as [[resp|e] p'].
Qed.

Lemma vehicle_not_empty req : vehicle req ≠ "".
Proof.
  destruct (String.eqb (req_VehicleType req) "") eqn:E; [done|].
  by apply String.eqb_neq in E.
Qed.

Lemma Register_well_formed id now body p :
  Forall well_formed (drivers p) →
  Forall well_formed (drivers (Register id now body p).2).
Proof.
  intros Hall.
  destruct (Register_rows id now body p)
    as [->|(req & hash & _ & Hn & He & Hp & _ & _ & ->)]; [done|].
  apply Forall_app. split; [done|]. apply Forall_singleton.
  unfold Drivers.well_formed. simpl. repeat split; try done.
  apply vehicle_not_empty.
Qed.

(** X30.  An account comes into the table of drivers through the register
    endpoint only if its request passed all four checks.  A request is
    answered without the table being touched unless its body decodes and its
    name, email, phone and password are valid; and after any series of
    requests on an empty table, every row has a name of 2 to 200 bytes once
    trimmed, an email and a phone that [ValidateEmail] and [ValidatePhone]
    accept, a vehicle type that is not empty, sedan when the request gave
    none, and the status available. *)
Theorem registered_drivers_are_well_formed
  (requests : list (string * Z * list Byte.byte)) (up : bool) :
  Forall well_formed (drivers (Register_all requests (mkPool up []))) ∧
  ∀ id now body p,
    drivers (Register id now body p).2 ≠ drivers p →
    ∃ req hash,
      Decode_RegisterRequest body = Ok req ∧
      Validation.ValidateName TrimSpace (req_Name req) = true ∧
      Validation.ValidateEmail TrimSpace (req_Email req) = true ∧
      Validation.ValidatePhone TrimSpace (req_Phone req) = true ∧
      Validation.ValidatePassword (req_Password req) = true ∧
      drivers (Register id now body p).2 =
        drivers p ++
          [mkDriver id (req_Name req) (req_Email req) (req_Phone req) hash
             (vehicle req) (req_LicensePlate req) "available" 5 (Some now)].
Proof.
  split.
  - assert (Hrun : ∀ p, Forall well_formed (drivers p) →
                        Forall well_formed (drivers (Register_all requests p))).
    { induction requests as [|[[id now] body] rest IH]; intros p Hp; [done|].
      simpl. apply IH. by apply Register_well_formed. }
    apply Hrun. simpl. constructor.
  - intros id now body p Hchanged.
    destruct (Register_rows id now body p)
      as [Hsame|(req & hash & Hd & Hn & He & Hp & Hw & _ & Hnew)]; [done|].
    by exists req, hash.
Qed.

End Accounts.

End AccountFacts.
